(** * MDAP-Agent: voting core, red-flag filter, orchestrator state machine
      and intent detector, embedded from the Python sources.

    Conventions of the embedding.
    - A Python [int] is a [Z]; [len] of a list is [Z.of_nat (length _)].
    - A Python [str] is a [string]; one [ascii] stands for one character
      (code points 0..255).
    - A Python call either returns or raises: [outcome].  Functions that
      mutate objects take the objects' state and give it back.
    - A [dict] whose iteration order is observed is an insertion-ordered
      association list ([dict_set]); the comparison cache, whose order is
      never observed, is a [gmap].
    - [datetime.now()] readings are arguments of the function that takes
      them; the logger calls have no effect on the modelled state. *)

From Stdlib Require Import ZArith String Ascii DecimalString.
From Stdlib Require DecimalZ DecimalPos.
From Corelib Require Import PrimFloat.
From stdpp Require Import gmap strings list.

Local Open Scope string_scope.
Local Open Scope list_scope.
Local Open Scope Z_scope.

(** ** Python calls: return or raise *)

Inductive exn : Type :=
| RuntimeError (msg : string)
| ValueError (msg : string)
| JSONDecodeError (msg : string)
| KeyError (msg : string)
| TypeError (msg : string)
| AttributeError (msg : string)
| OverflowError (msg : string)
| OtherException (msg : string).

Inductive outcome (A : Type) : Type :=
| Returns (a : A)
| Raises (e : exn).
Arguments Returns {A} a.
Arguments Raises {A} e.

(** A raise in a callee propagates through the caller: [x ← m; k]. *)
#[export] Instance outcome_bind : MBind outcome := fun A B f m =>
  match m with
  | Returns a => f a
  | Raises e => Raises e
  end.

Definition returned {A} (m : outcome A) : bool :=
  match m with Returns _ => true | Raises _ => false end.

(** ** Insertion-ordered dictionaries *)

Section Dict.
Context {V : Type}.

(** [d[key] = v]: an existing key keeps its position, a new key goes last. *)
Fixpoint dict_set (key : string) (v : V) (d : list (string * V)) : list (string * V) :=
  match d with
  | [] => [(key, v)]
  | (k', v') :: d' =>
      if String.eqb k' key then (k', v) :: d' else (k', v') :: dict_set key v d'
  end.

Fixpoint dict_get (key : string) (d : list (string * V)) : option V :=
  match d with
  | [] => None
  | (k', v') :: d' => if String.eqb k' key then Some v' else dict_get key d'
  end.

Definition dict_values (d : list (string * V)) : list V := map snd d.
Definition dict_keys (d : list (string * V)) : list string := map fst d.
End Dict.

(** ** Python strings and the [re] patterns the sources use *)

Module PyStr.

(** [str.isspace] on one character; [\s] in a [str] pattern is the same
    class. *)
Definition isspace (c : ascii) : bool :=
  let n := N_of_ascii c in
  ((9 <=? n) && (n <=? 13) || (28 <=? n) && (n <=? 32)
   || (n =? 133) || (n =? 160))%N.

Fixpoint lstrip (s : string) : string :=
  match s with
  | EmptyString => EmptyString
  | String c s' => if isspace c then lstrip s' else s
  end.

Fixpoint rstrip (s : string) : string :=
  match s with
  | EmptyString => EmptyString
  | String c s' =>
      match rstrip s' with
      | EmptyString => if isspace c then EmptyString else String c EmptyString
      | r => String c r
      end
  end.

(** [s.strip()] *)
Definition strip (s : string) : string := rstrip (lstrip s).

(** [len(s)] *)
Definition len (s : string) : Z := Z.of_nat (String.length s).

(** Lower case of an ASCII letter; the other characters of the range
    never fold onto an ASCII letter, so they are left alone. *)
Definition to_lower (c : ascii) : ascii :=
  let n := N_of_ascii c in
  if ((65 <=? n) && (n <=? 90))%N then ascii_of_N (n + 32) else c.

(** [str(n)] for an [int]. *)
Definition str_of_int (n : Z) : string :=
  DecimalString.NilZero.string_of_int (Z.to_int n).

(** [str(x)] for an optional [int] ([None] prints as its name). *)
Definition str_of_opt_int (n : option Z) : string :=
  match n with Some z => str_of_int z | None => "None" end.

(** Drop [p] from the front of [s] when it is there. *)
Fixpoint strip_prefix (p s : string) : option string :=
  match p, s with
  | EmptyString, _ => Some s
  | String a p', String b s' =>
      if Ascii.eqb a b then strip_prefix p' s' else None
  | String _ _, EmptyString => None
  end.

(** The text after the first occurrence of [sep] in [s]. *)
Fixpoint after_first (sep s : string) : option string :=
  match strip_prefix sep s with
  | Some rest => Some rest
  | None =>
      match s with
      | EmptyString => None
      | String _ s' => after_first sep s'
      end
  end.

(** The text before the first occurrence of [sep] in [s]. *)
Fixpoint before_first (sep s : string) : option string :=
  match strip_prefix sep s with
  | Some _ => Some EmptyString
  | None =>
      match s with
      | EmptyString => None
      | String c s' =>
          match before_first sep s' with
          | Some b => Some (String c b)
          | None => None
          end
      end
  end.

(** [chr(n)] as a one-character string. *)
Definition chr (n : nat) : string := String (ascii_of_nat n) EmptyString.

(** [s.lower()] and [s.upper()].  Three characters of the range have an
    upper case outside it (181, 223, 255); none of them becomes an ASCII
    letter, and they are left as they are. *)
Definition lower_char (c : ascii) : ascii :=
  let n := N_of_ascii c in
  if ((65 <=? n) && (n <=? 90)
      || (192 <=? n) && (n <=? 222) && negb (n =? 215))%N
  then ascii_of_N (n + 32) else c.

Definition upper_char (c : ascii) : ascii :=
  let n := N_of_ascii c in
  if ((97 <=? n) && (n <=? 122)
      || (224 <=? n) && (n <=? 254) && negb (n =? 247))%N
  then ascii_of_N (n - 32) else c.

Fixpoint map_chars (f : ascii -> ascii) (s : string) : string :=
  match s with
  | EmptyString => EmptyString
  | String c s' => String (f c) (map_chars f s')
  end.

Definition lower (s : string) : string := map_chars lower_char s.
Definition upper (s : string) : string := map_chars upper_char s.

(** [p in s] *)
Fixpoint contains (p s : string) : bool :=
  match strip_prefix p s with
  | Some _ => true
  | None =>
      match s with
      | EmptyString => false
      | String _ s' => contains p s'
      end
  end.

(** [s] without its ending [suf], when it ends with it. *)
Fixpoint drop_suffix (suf s : string) : option string :=
  if String.eqb s suf then Some EmptyString
  else match s with
       | EmptyString => None
       | String c s' => String c <$> drop_suffix suf s'
       end.

(** The part of [s] from the first [c] on. *)
Fixpoint from_first (c : ascii) (s : string) : option string :=
  match s with
  | EmptyString => None
  | String x s' => if Ascii.eqb x c then Some s else from_first c s'
  end.

(** The part of [s] up to its last [c], included. *)
Fixpoint upto_last (c : ascii) (s : string) : option string :=
  match s with
  | EmptyString => None
  | String x s' =>
      match upto_last c s' with
      | Some r => Some (String x r)
      | None => if Ascii.eqb x c then Some (String x EmptyString) else None
      end
  end.

End PyStr.

(** Regular expressions without captures, matched by derivatives:
    [re_match r s] holds when some prefix of [s] is in the language of
    [r], which is when [re.match(r, s)] is not [None]. *)
Module Re.

Inductive regex : Type :=
| Fail
| Eps
| Chr (p : ascii -> bool)
| Cat (r1 r2 : regex)
| Alt (r1 r2 : regex)
| Star (r : regex).

Fixpoint nullable (r : regex) : bool :=
  match r with
  | Fail => false
  | Eps => true
  | Chr _ => false
  | Cat r1 r2 => nullable r1 && nullable r2
  | Alt r1 r2 => nullable r1 || nullable r2
  | Star _ => true
  end.

Definition is_fail (r : regex) : bool :=
  match r with Fail => true | _ => false end.

Definition cat (r1 r2 : regex) : regex :=
  if is_fail r1 || is_fail r2 then Fail else Cat r1 r2.

Definition alt (r1 r2 : regex) : regex :=
  if is_fail r1 then r2 else if is_fail r2 then r1 else Alt r1 r2.

Fixpoint deriv (c : ascii) (r : regex) : regex :=
  match r with
  | Fail => Fail
  | Eps => Fail
  | Chr p => if p c then Eps else Fail
  | Cat r1 r2 =>
      if nullable r1 then alt (cat (deriv c r1) r2) (deriv c r2)
      else cat (deriv c r1) r2
  | Alt r1 r2 => alt (deriv c r1) (deriv c r2)
  | Star r1 => cat (deriv c r1) (Star r1)
  end.

Fixpoint re_match (r : regex) (s : string) : bool :=
  nullable r ||
  match s with
  | EmptyString => false
  | String c s' => re_match (deriv c r) s'
  end.

(** Pattern syntax.  The four patterns are matched with [re.IGNORECASE]:
    a literal character matches both of its cases. *)
Definition ichr (c : ascii) : regex :=
  Chr (fun x => Ascii.eqb (PyStr.to_lower x) (PyStr.to_lower c)).

Fixpoint ilit (s : string) : regex :=
  match s with
  | EmptyString => Eps
  | String c s' => Cat (ichr c) (ilit s')
  end.

Definition opt (r : regex) : regex := Alt r Eps.
Definition plus (r : regex) : regex := Cat r (Star r).
Definition ws : regex := Chr PyStr.isspace.

End Re.

(** ** mdap_cli/orchestrator/state.py *)

Module State.

Definition Time := Z.

Inductive PipelineState : Type :=
| IDLE | EXPANDING | DECOMPOSING | GENERATING | VALIDATING
| PAUSED | AWAITING_DECISION | COMPLETED | ERROR.

#[export] Instance PipelineState_eq_dec : EqDecision PipelineState.
Proof. solve_decision. Defined.

Definition value (s : PipelineState) : string :=
  match s with
  | IDLE => "idle" | EXPANDING => "expanding" | DECOMPOSING => "decomposing"
  | GENERATING => "generating" | VALIDATING => "validating" | PAUSED => "paused"
  | AWAITING_DECISION => "awaiting" | COMPLETED => "completed" | ERROR => "error"
  end.

(** The table, one entry per key of the source dictionary. *)
Definition VALID_TRANSITIONS : list (PipelineState * list PipelineState) :=
  [ (IDLE, [EXPANDING]);
    (EXPANDING, [DECOMPOSING; PAUSED; ERROR; AWAITING_DECISION]);
    (DECOMPOSING, [GENERATING; PAUSED; ERROR; AWAITING_DECISION]);
    (GENERATING, [VALIDATING; COMPLETED; PAUSED; ERROR; AWAITING_DECISION]);
    (VALIDATING, [COMPLETED; GENERATING; PAUSED; ERROR; AWAITING_DECISION]);
    (PAUSED, [EXPANDING; DECOMPOSING; GENERATING; VALIDATING; IDLE]);
    (AWAITING_DECISION,
      [EXPANDING; DECOMPOSING; GENERATING; VALIDATING; PAUSED; IDLE]);
    (COMPLETED, [IDLE]);
    (ERROR, [IDLE]) ].

(** [VALID_TRANSITIONS.get(state, set())] *)
Fixpoint table_get (tbl : list (PipelineState * list PipelineState))
    (s : PipelineState) : list PipelineState :=
  match tbl with
  | [] => []
  | (k, v) :: tbl' => if bool_decide (k = s) then v else table_get tbl' s
  end.

Definition mem (s : PipelineState) (l : list PipelineState) : bool :=
  existsb (fun x => bool_decide (x = s)) l.

Definition EXECUTION_PHASES : list PipelineState :=
  [EXPANDING; DECOMPOSING; GENERATING; VALIDATING].

Record StateTransition : Type := {
  from_state : PipelineState;
  to_state : PipelineState;
  reason : string;
  timestamp : Time;
}.

Record OrchestratorState : Type := {
  current : PipelineState;
  previous : option PipelineState;
  task : string;
  current_phase_detail : string;
  transition_history : list StateTransition;
  error_message : option string;
  started_at : option Time;
  completed_at : option Time;
}.

(** [OrchestratorState()] *)
Definition initial : OrchestratorState :=
  {| current := IDLE; previous := None; task := ""; current_phase_detail := "";
     transition_history := []; error_message := None;
     started_at := None; completed_at := None |}.

Definition can_transition (self : OrchestratorState) (to : PipelineState) : bool :=
  let valid := table_get VALID_TRANSITIONS (current self) in
  mem to valid.

(** [transition]: [ts] is the clock reading stored in the history record,
    [now] the one stored in [started_at] / [completed_at]. *)
Definition transition (ts now : Time) (to : PipelineState) (why : string)
    (self : OrchestratorState) : outcome (bool * OrchestratorState) :=
  if negb (can_transition self to) then Returns (false, self)
  else
    let tr := {| from_state := current self; to_state := to;
                 reason := why; timestamp := ts |} in
    let history := transition_history self ++ [tr] in
    let prev := if bool_decide (to = PAUSED) then Some (current self)
                else previous self in
    let started :=
      if mem to EXECUTION_PHASES && bool_decide (started_at self = None)
      then Some now else started_at self in
    let completed :=
      if mem to EXECUTION_PHASES && bool_decide (started_at self = None)
      then completed_at self
      else if bool_decide (to = COMPLETED) then Some now
      else completed_at self in
    Returns (true,
      {| current := to; previous := prev; task := task self;
         current_phase_detail := current_phase_detail self;
         transition_history := history;
         error_message := error_message self;
         started_at := started; completed_at := completed |}).

Definition get_resume_state (self : OrchestratorState) : option PipelineState :=
  if negb (bool_decide (current self = PAUSED)) then None else previous self.

Definition is_running (self : OrchestratorState) : bool :=
  mem (current self) EXECUTION_PHASES.

Definition is_pausable (self : OrchestratorState) : bool :=
  mem (current self) EXECUTION_PHASES
  || bool_decide (current self = AWAITING_DECISION).

Definition is_terminal (self : OrchestratorState) : bool :=
  mem (current self) [COMPLETED; ERROR; IDLE].

(** [reset] keeps the transition history. *)
Definition reset (self : OrchestratorState) : OrchestratorState :=
  {| current := IDLE; previous := None; task := ""; current_phase_detail := "";
     transition_history := transition_history self; error_message := None;
     started_at := None; completed_at := None |}.

Definition set_task (t : string) (self : OrchestratorState) : OrchestratorState :=
  {| current := current self; previous := previous self; task := t;
     current_phase_detail := current_phase_detail self;
     transition_history := transition_history self;
     error_message := error_message self;
     started_at := started_at self; completed_at := completed_at self |}.

(** The pairs the table allows. *)
Definition in_table (from to : PipelineState) : Prop :=
  In to (table_get VALID_TRANSITIONS from).

End State.

(** ** mdap_cli/orchestrator/orchestrator.py *)

Module Orchestrator.
Import State.

Record OrchestratorResult : Type := {
  task : string;
  requirements : list string;
  functions : list string;
  code : list (string * string);
  validation_passed : bool;
  error : option string;
  elapsed_seconds : Z;
  decisions_made : Z;
}.

(** [OrchestratorResult(task=task)] *)
Definition fresh_result (t : string) : OrchestratorResult :=
  {| task := t; requirements := []; functions := []; code := [];
     validation_passed := false; error := None;
     elapsed_seconds := 0; decisions_made := 0 |}.

Inductive EventType : Type :=
| ORCHESTRATOR_STATE_CHANGE
| ORCHESTRATOR_INTERRUPT.

(** What [emit_simple] hands to the bus: the event type and its keyword
    data ([state_name] is a function of [state] and is left out). *)
Record Event : Type := {
  type : EventType;
  data : list (string * string);
}.

(** The orchestrator object: its state machine, its result, and the
    events it has emitted on the bus so far. *)
Record MDAPOrchestrator : Type := {
  state : OrchestratorState;
  result : OrchestratorResult;
  emitted : list Event;
}.

Definition _emit_event (ty : EventType) (d : list (string * string))
    (self : MDAPOrchestrator) : MDAPOrchestrator :=
  {| state := state self; result := result self;
     emitted := emitted self ++ [ {| type := ty; data := d |} ] |}.

Definition _emit_state_change (why : string) (self : MDAPOrchestrator)
    : MDAPOrchestrator :=
  _emit_event ORCHESTRATOR_STATE_CHANGE
    [ ("state", value (current (state self)));
      ("reason", why);
      ("task", State.task (state self)) ] self.

Definition with_state (st : OrchestratorState) (self : MDAPOrchestrator)
    : MDAPOrchestrator :=
  {| state := st; result := result self; emitted := emitted self |}.

(** [pause]: the value of [transition] is dropped, as in the source. *)
Definition pause (ts now : Time) (self : MDAPOrchestrator)
    : outcome (bool * MDAPOrchestrator) :=
  if negb (is_pausable (state self)) then Returns (false, self)
  else
    '(_, st) ← transition ts now PAUSED ("Pausado pelo usu" +:+ PyStr.chr 225 +:+ "rio") (state self);
    let self := with_state st self in
    let self := _emit_state_change "Pipeline pausado" self in
    let self := _emit_event ORCHESTRATOR_INTERRUPT [("action", "pause")] self in
    Returns (true, self).

Definition resume (ts now : Time) (self : MDAPOrchestrator)
    : outcome (bool * MDAPOrchestrator) :=
  match get_resume_state (state self) with
  | None => Returns (false, self)
  | Some resume_state =>
      '(_, st) ← transition ts now resume_state ("Retomando execu" +:+ PyStr.chr 231 +:+ PyStr.chr 227 +:+ "o") (state self);
      let self := with_state st self in
      let self := _emit_state_change ("Retomando para " +:+ value resume_state) self in
      Returns (true, self)
  end.

Definition cancel (ts now : Time) (self : MDAPOrchestrator)
    : outcome (bool * MDAPOrchestrator) :=
  if bool_decide (current (state self) = IDLE) then Returns (false, self)
  else
    '(_, st) ← transition ts now IDLE ("Cancelado pelo usu" +:+ PyStr.chr 225 +:+ "rio") (state self);
    let self := with_state st self in
    let self := _emit_state_change "Pipeline cancelado" self in
    Returns (true, self).

(** [start_task] up to the first phase: the running check, the reset of
    the state, the new result and the start event.  The phases that
    follow talk to the session and the LLM and are not modelled. *)
Definition start_task_begin (t : string) (self : MDAPOrchestrator)
    : outcome MDAPOrchestrator :=
  if is_running (state self)
  then Raises (RuntimeError
         ("Pipeline j" +:+ PyStr.chr 225 +:+ " est" +:+ PyStr.chr 225 +:+ " em execu" +:+ PyStr.chr 231 +:+ PyStr.chr 227 +:+ "o. Use /pause ou /cancel primeiro."))
  else
    let st := set_task t (reset (state self)) in
    let self := {| state := st; result := fresh_result t;
                   emitted := emitted self |} in
    Returns (_emit_state_change "Iniciando pipeline" self).

End Orchestrator.

(** ** mdap/types.py and the LLM response of mdap/llm/client.py *)

Module Types.

Inductive Language : Type := PYTHON | TYPESCRIPT.

Inductive StepType : Type :=
| EXPAND | DECOMPOSE | GENERATE | VALIDATE | DECIDE
| READ | SEARCH | TEST | APPLY | DONE.

Record Step : Type := {
  step_id : string;
  step_type : StepType;
  description : string;
  signature : string;
  step_context : string;
  action : option string;
  specification : option string;
}.

Record Candidate : Type := {
  id : string;
  code : string;
  tokens_used : Z;
  is_valid : bool;
  red_flag_reason : option string;
  group_id : option string;
}.

(** A reference to a [Candidate] object: its index in the heap of the
    candidates created so far. *)
Definition ref := nat.

Record VoteResult : Type := {
  winner : ref;
  groups : list (string * list ref);
  votes_per_group : list (string * Z);
  total_samples : Z;
  winning_margin : Z;
}.

Record MDAPConfig : Type := {
  k : Z;
  max_samples : Z;
  max_tokens_response : Z;
  temperature : PrimFloat.float;
  model : string;
  vote_timeout_seconds : Z;
  execution_timeout_seconds : Z;
  enable_syntax_check : bool;
  enable_length_check : bool;
  enable_format_check : bool;
}.

(** [MDAPConfig()] *)
Definition default_config : MDAPConfig :=
  {| k := 3; max_samples := 20; max_tokens_response := 500;
     temperature := 0x1.999999999999ap-4%float;
     model := "claude-3-haiku-20240307";
     vote_timeout_seconds := 60; execution_timeout_seconds := 30;
     enable_syntax_check := true; enable_length_check := true;
     enable_format_check := true |}.

Record LLMResponse : Type := {
  content : string;
  tokens_input : Z;
  tokens_output : Z;
  response_model : string;
  stop_reason : string;
}.

(** [VoteResult.winner_votes]; [heap] holds the candidate objects, among
    them the one [winner] refers to.  A group id that is [None] or the
    empty string is false. *)
Definition winner_votes (heap : list Candidate) (self : VoteResult) : Z :=
  match heap !! winner self with
  | Some obj =>
      match group_id obj with
      | Some gid =>
          if negb (String.eqb gid "") then
            match dict_get gid (votes_per_group self) with
            | Some v => v
            | None => 0
            end
          else 0
      | None => 0
      end
  | None => 0
  end.

End Types.

(** ** mdap/mdap/red_flag.py *)

Module RedFlag.
Import Types.

Record RedFlagResult : Type := {
  passed : bool;
  reason : option string;
  checks : list (string * bool);
}.

(** What [ast.parse] does with a text: it parses, raises [SyntaxError]
    (with its [msg] and [lineno]), or raises another exception (with
    its [str]).  The parser is Python's, not this repository's. *)
Inductive parse_result : Type :=
| Parsed
| SyntaxError (msg : string) (lineno : option Z)
| ParseException (str_e : string).

Section Filter.
Variable ast_parse : string -> parse_result.
Variable config : MDAPConfig.

Definition _check_length (candidate : Candidate) : bool :=
  tokens_used candidate <=? max_tokens_response config.

(** [r"^Here'?s?\s+(the|a|an)\s+"], [r"^I'?ll\s+"],
    [r"^This\s+(function|code|implementation)"], [r"^The\s+following"] *)
Definition explanation_patterns : list Re.regex :=
  [ Re.Cat (Re.ilit "Here") (Re.Cat (Re.opt (Re.ichr "'")) (Re.Cat (Re.opt (Re.ichr "s"))
      (Re.Cat (Re.plus Re.ws)
        (Re.Cat (Re.Alt (Re.ilit "the") (Re.Alt (Re.ilit "a") (Re.ilit "an")))
           (Re.plus Re.ws)))));
    Re.Cat (Re.ilit "I") (Re.Cat (Re.opt (Re.ichr "'")) (Re.Cat (Re.ilit "ll")
      (Re.plus Re.ws)));
    Re.Cat (Re.ilit "This") (Re.Cat (Re.plus Re.ws)
      (Re.Alt (Re.ilit "function") (Re.Alt (Re.ilit "code") (Re.ilit "implementation"))));
    Re.Cat (Re.ilit "The") (Re.Cat (Re.plus Re.ws) (Re.ilit "following")) ].

Definition _check_format (candidate : Candidate) : bool * option string :=
  let code := PyStr.strip (code candidate) in
  if bool_decide (code = "") then (false, Some "Empty code")
  else if PyStr.len code <? 10 then (false, Some "Code too short")
  else if existsb (fun pattern => Re.re_match pattern code) explanation_patterns
  then (false, Some "Contains explanation instead of code")
  else (true, None).

(** The language tag that may follow an opening fence:
    [(?:python|typescript|javascript|js|ts)?].  No tag is a prefix of
    another, so at most one applies. *)
Definition fence_tags : list string :=
  ["python"; "typescript"; "javascript"; "js"; "ts"].

Fixpoint drop_tag (tags : list string) (s : string) : string :=
  match tags with
  | [] => s
  | t :: tags' =>
      match PyStr.strip_prefix t s with
      | Some rest => rest
      | None => drop_tag tags' s
      end
  end.

(** [\n?] *)
Definition drop_newline (s : string) : string :=
  match s with
  | String c s' => if Ascii.eqb c (ascii_of_nat 10) then s' else s
  | EmptyString => s
  end.

Definition fence : string := "```".

(** [re.findall(r"```(?:python|typescript|javascript|js|ts)?\n?(.*?)```",
    text, re.DOTALL)] and its first element: the match starts at the
    first fence, takes the tag and the newline when they are there,
    and the lazy group stops at the next fence.  Without a closing
    fence after the first opening one there is no match at all. *)
Definition first_fenced_block (text : string) : option string :=
  match PyStr.after_first fence text with
  | Some rest => PyStr.before_first fence (drop_newline (drop_tag fence_tags rest))
  | None => None
  end.

Definition _extract_code (text : string) : string :=
  match first_fenced_block text with
  | Some block => PyStr.strip block
  | None => PyStr.strip text
  end.

Definition _check_python_syntax (code : string) : bool * option string :=
  match ast_parse code with
  | Parsed => (true, None)
  | SyntaxError msg lineno =>
      (false, Some ("Python syntax error: " +:+ msg +:+ " at line "
                    +:+ PyStr.str_of_opt_int lineno))
  | ParseException str_e => (false, Some ("Python parse error: " +:+ str_e))
  end.

(** [brackets = {'{': '}', '[': ']', '(': ')'}] *)
Definition brackets : list (ascii * ascii) :=
  [ ("{", "}"); ("[", "]"); ("(", ")") ]%char.

Definition brackets_get (c : ascii) : option ascii :=
  snd <$> find (fun kv => Ascii.eqb (fst kv) c) brackets.

Definition is_closing (c : ascii) : bool :=
  existsb (fun kv => Ascii.eqb (snd kv) c) brackets.

Definition is_quote (c : ascii) : bool :=
  Ascii.eqb c (ascii_of_nat 34) || Ascii.eqb c "'" || Ascii.eqb c "`".

(** [repr] of the list of closing brackets still expected. *)
Fixpoint repr_items (stack : list ascii) : string :=
  match stack with
  | [] => ""
  | [c] => "'" +:+ String c "" +:+ "'"
  | c :: rest => "'" +:+ String c "" +:+ "', " +:+ repr_items rest
  end.

Definition repr_stack (stack : list ascii) : string :=
  "[" +:+ repr_items stack +:+ "]".

(** The loop of [_check_typescript_syntax].  [stack] is the Python
    list: [append] adds at the end and [pop] takes from the end.
    [None] means the loop ran through; [Some r] is an early return. *)
Fixpoint ts_loop (code : string) (stack : list ascii) (in_string : bool)
    (string_char : option ascii) : option (bool * option string) + list ascii :=
  match code with
  | EmptyString => inr stack
  | String char rest =>
      if is_quote char && negb in_string
      then ts_loop rest stack true (Some char)
      else if bool_decide (Some char = string_char) && in_string
      then ts_loop rest stack false None
      else if negb in_string then
        match brackets_get char with
        | Some closing => ts_loop rest (stack ++ [closing]) in_string string_char
        | None =>
            if is_closing char then
              match last stack with
              | None =>
                  inl (Some (false, Some ("Unbalanced brackets at '"
                                          +:+ String char "" +:+ "'")))
              | Some top =>
                  if negb (Ascii.eqb top char)
                  then inl (Some (false, Some ("Unbalanced brackets at '"
                                          +:+ String char "" +:+ "'")))
                  else ts_loop rest (removelast stack) in_string string_char
              end
            else ts_loop rest stack in_string string_char
        end
      else ts_loop rest stack in_string string_char
  end.

Definition _check_typescript_syntax (code : string) : bool * option string :=
  match ts_loop code [] false None with
  | inl (Some r) => r
  | inl None => (true, None)
  | inr [] => (true, None)
  | inr stack => (false, Some ("Unclosed brackets: " +:+ repr_stack stack))
  end.

Definition _check_syntax (candidate : Candidate) (language : Language)
    : bool * option string :=
  let code := _extract_code (code candidate) in
  match language with
  | PYTHON => _check_python_syntax code
  | TYPESCRIPT => _check_typescript_syntax code
  end.

Definition too_long_reason (candidate : Candidate) : string :=
  "Response too long (" +:+ PyStr.str_of_int (tokens_used candidate)
  +:+ " tokens > " +:+ PyStr.str_of_int (max_tokens_response config) +:+ ")".

(** [check]: the three blocks of the source, each behind its flag.
    [checks] is the dictionary built so far. *)
Definition check_syntax_step (checks : list (string * bool))
    (candidate : Candidate) (language : Language) : RedFlagResult :=
  if enable_syntax_check config then
    let '(syntax_ok, syntax_reason) := _check_syntax candidate language in
    let checks := dict_set "syntax" syntax_ok checks in
    if negb syntax_ok
    then {| passed := false; reason := syntax_reason; checks := checks |}
    else {| passed := true; reason := None; checks := checks |}
  else {| passed := true; reason := None; checks := checks |}.

Definition check_format_step (checks : list (string * bool))
    (candidate : Candidate) (language : Language) : RedFlagResult :=
  if enable_format_check config then
    let '(format_ok, format_reason) := _check_format candidate in
    let checks := dict_set "format" format_ok checks in
    if negb format_ok
    then {| passed := false; reason := format_reason; checks := checks |}
    else check_syntax_step checks candidate language
  else check_syntax_step checks candidate language.

Definition check (candidate : Candidate) (language : Language) : RedFlagResult :=
  let checks := [] in
  if enable_length_check config then
    let length_ok := _check_length candidate in
    let checks := dict_set "length" length_ok checks in
    if negb length_ok
    then {| passed := false; reason := Some (too_long_reason candidate);
            checks := checks |}
    else check_format_step checks candidate language
  else check_format_step checks candidate language.

End Filter.

End RedFlag.

(** ** [sorted(xs, key=key, reverse=True)]

    Python's sort is stable, also with [reverse=True]: elements with equal
    keys keep their order. *)

Section Sorted.
Context {A : Type} (key : A -> Z).

Fixpoint insert_desc (x : A) (l : list A) : list A :=
  match l with
  | [] => [x]
  | y :: l' => if key x <? key y then y :: insert_desc x l' else x :: l
  end.

Definition sorted_desc (l : list A) : list A := foldr insert_desc [] l.
End Sorted.

(** ** mdap/mdap/discriminator.py *)

Module Discriminator.
Import Types.

Record SemanticGroup : Type := {
  id : string;
  representative : ref;
  members : list ref;
}.

Definition votes (g : SemanticGroup) : Z := Z.of_nat (length (members g)).

(** The discriminator object together with what it reaches: the heap of
    candidate objects ([ref] is an index into it) and the number of
    comparisons the LLM client has been asked so far. *)
Record DiscState : Type := {
  heap : list Candidate;
  groups : list (string * SemanticGroup);
  _comparison_cache : gmap (string * string) bool;
  cmp_calls : nat;
}.

Definition set_group_id (g : option string) (c : Candidate) : Candidate :=
  {| Types.id := Types.id c; code := code c; tokens_used := tokens_used c;
     is_valid := is_valid c; red_flag_reason := red_flag_reason c;
     group_id := g |}.

(** [candidate.code] through a reference. *)
Definition code_of (h : list Candidate) (r : ref) : string :=
  match h !! r with
  | Some c => code c
  | None => ""
  end.

(** [SemanticGroup.add]: the candidate object gets the group's id and
    joins the member list. *)
Definition add (candidate : ref) (g : SemanticGroup) : SemanticGroup :=
  {| id := id g; representative := representative g;
     members := members g ++ [candidate] |}.

Definition _cache_key (code_a code_b : string) : string * string :=
  (PyStr.strip code_a, PyStr.strip code_b).

Section WithClient.
(** [client.compare_semantic]: the answer, or the exception, of the
    [n]-th comparison the client is asked. *)
Variable compare_semantic : nat -> string -> string -> string -> outcome bool.

Definition compare (code_a code_b context : string) (d : DiscState)
    : outcome bool * DiscState :=
  let key := _cache_key code_a code_b in
  match _comparison_cache d !! key with
  | Some cached => (Returns cached, d)
  | None =>
      match compare_semantic (cmp_calls d) code_a code_b context with
      | Raises e =>
          (Raises e,
           {| heap := heap d; groups := groups d;
              _comparison_cache := _comparison_cache d;
              cmp_calls := S (cmp_calls d) |})
      | Returns result =>
          (Returns result,
           {| heap := heap d; groups := groups d;
              _comparison_cache :=
                <[_cache_key code_b code_a := result]>
                  (<[key := result]> (_comparison_cache d));
              cmp_calls := S (cmp_calls d) |})
      end
  end.

(** [find_group]: the loop over [self.groups.values()].  [i] is the
    position of [gs]'s head in the dictionary; the group object found is
    returned with its position, which stands for the object's identity. *)
Fixpoint find_group_from (i : nat) (gs : list SemanticGroup) (candidate : ref)
    (context : string) (d : DiscState)
    : outcome (option (nat * SemanticGroup)) * DiscState :=
  match gs with
  | [] => (Returns None, d)
  | group :: gs' =>
      let '(r, d') := compare (code_of (heap d) candidate)
                        (code_of (heap d) (representative group)) context d in
      match r with
      | Raises e => (Raises e, d')
      | Returns true => (Returns (Some (i, group)), d')
      | Returns false => find_group_from (S i) gs' candidate context d'
      end
  end.

Definition find_group (candidate : ref) (context : string) (d : DiscState)
    : outcome (option (nat * SemanticGroup)) * DiscState :=
  find_group_from 0 (dict_values (groups d)) candidate context d.

(** [f"group_{n}"] *)
Definition group_name (n : nat) : string :=
  "group_" +:+ PyStr.str_of_int (Z.of_nat n).

Definition on_value (f : SemanticGroup -> SemanticGroup)
    (kv : string * SemanticGroup) : string * SemanticGroup :=
  (fst kv, f (snd kv)).

Definition classify (candidate : ref) (context : string) (d : DiscState)
    : outcome SemanticGroup * DiscState :=
  let '(r, d1) := find_group candidate context d in
  match r with
  | Raises e => (Raises e, d1)
  | Returns (Some (i, group)) =>
      (Returns (add candidate group),
       {| heap := alter (set_group_id (Some (id group))) candidate (heap d1);
          groups := alter (on_value (add candidate)) i (groups d1);
          _comparison_cache := _comparison_cache d1;
          cmp_calls := cmp_calls d1 |})
  | Returns None =>
      let group_id := group_name (length (groups d1)) in
      let group := {| id := group_id; representative := candidate;
                      members := [candidate] |} in
      (Returns group,
       {| heap := alter (set_group_id (Some group_id)) candidate (heap d1);
          groups := dict_set group_id group (groups d1);
          _comparison_cache := _comparison_cache d1;
          cmp_calls := cmp_calls d1 |})
  end.

(** [classify_batch]: the candidates are classified in order; the
    dictionary returned is a copy of the groups. *)
Fixpoint classify_batch (candidates : list ref) (context : string) (d : DiscState)
    : outcome (list (string * SemanticGroup)) * DiscState :=
  match candidates with
  | [] => (Returns (groups d), d)
  | candidate :: rest =>
      let '(r, d1) := classify candidate context d in
      match r with
      | Raises e => (Raises e, d1)
      | Returns _ => classify_batch rest context d1
      end
  end.

End WithClient.

(** [get_winner]: an empty dictionary is the case where the sorted list
    has no first element, a single group the case where it has no second. *)
Definition get_winner (k : Z) (d : DiscState) : option SemanticGroup :=
  match sorted_desc votes (dict_values (groups d)) with
  | [] => None
  | leader :: rest =>
      let runner_up_votes :=
        match rest with
        | second :: _ => votes second
        | [] => 0
        end in
      if votes leader - runner_up_votes >=? k then Some leader else None
  end.

Definition reset (d : DiscState) : DiscState :=
  {| heap := heap d; groups := []; _comparison_cache := ∅;
     cmp_calls := cmp_calls d |}.

(** [sum(xs)] *)
Definition py_sum (xs : list Z) : Z := foldl Z.add 0 xs.

Record Stats : Type := {
  stats_groups : Z;
  total_candidates : Z;
  cache_hits : Z;
  group_sizes : list (string * Z);
}.

(** [stats]: ["cache_hits"] is the number of entries of the cache. *)
Definition stats (d : DiscState) : Stats :=
  {| stats_groups := Z.of_nat (length (groups d));
     total_candidates := py_sum (map votes (dict_values (groups d)));
     cache_hits := Z.of_nat (size (_comparison_cache d));
     group_sizes :=
       foldl (fun acc g => dict_set (id g) (votes g) acc) []
         (dict_values (groups d)) |}.

End Discriminator.


(** ** mdap/mdap/voter.py *)

Module Voter.
Import Types Discriminator.

Record VotingSession : Type := {
  step : Step;
  context : string;
  samples : list ref;
  valid_samples : list ref;
  invalid_samples : list ref;
  is_complete : bool;
  winner : option SemanticGroup;
}.

(** [VotingSession(step=step, context=context)] *)
Definition new_session (s : Step) (ctx : string) : VotingSession :=
  {| step := s; context := ctx; samples := []; valid_samples := [];
     invalid_samples := []; is_complete := false; winner := None |}.

(** The voter during one [vote]: its discriminator (with the candidate
    heap), the session, and the number of times the generator has been
    invoked. *)
Record VoteState : Type := {
  disc : DiscState;
  session : VotingSession;
  gen_calls : nat;
}.

(** [x or default] for an optional [int]. *)
Definition py_or (x : option Z) (default : Z) : Z :=
  match x with
  | Some v => if v =? 0 then default else v
  | None => default
  end.

(** [Candidate(code=response.content, tokens_used=response.tokens_output)];
    the id comes from the dataclass default. *)
Definition new_candidate (cid : string) (response : LLMResponse) : Candidate :=
  {| Types.id := cid; code := content response;
     tokens_used := tokens_output response; is_valid := true;
     red_flag_reason := None; group_id := None |}.

Definition mark_invalid (why : option string) (c : Candidate) : Candidate :=
  {| Types.id := Types.id c; code := code c; tokens_used := tokens_used c;
     is_valid := false; red_flag_reason := why; group_id := group_id c |}.

Section WithEnv.
(** [generator n]: what the [n]-th invocation of the generator passed to
    [vote] does, a response or an exception caught by [except Exception].
    [uuid4 n]: the id given to the [n]-th candidate object. *)
Variable generator : nat -> outcome LLMResponse.
Variable compare_semantic : nat -> string -> string -> string -> outcome bool.
Variable uuid4 : nat -> string.
Variable ast_parse : string -> RedFlag.parse_result.
Variable config : MDAPConfig.

Definition loop_cond (max_samples : Z) (st : VoteState) : bool :=
  (Z.of_nat (length (samples (session st))) <? max_samples)
  && negb (is_complete (session st)).

(** One pass through the body of the [while] loop.  [Raises] is an
    exception that leaves [vote] (a comparison that raised). *)
Definition vote_body (language : Language) (k : Z) (st : VoteState)
    : outcome unit * VoteState :=
  let d := disc st in
  let ses := session st in
  match generator (gen_calls st) with
  | Raises _ =>
      (Returns tt,
       {| disc := d; session := ses; gen_calls := S (gen_calls st) |})
  | Returns response =>
      let candidate := new_candidate (uuid4 (length (heap d))) response in
      let c : ref := length (heap d) in
      let h := heap d ++ [candidate] in
      let flag_result := RedFlag.check ast_parse config candidate language in
      if negb (RedFlag.passed flag_result) then
        (Returns tt,
         {| disc := {| heap := alter (mark_invalid (RedFlag.reason flag_result)) c h;
                       groups := groups d;
                       _comparison_cache := _comparison_cache d;
                       cmp_calls := cmp_calls d |};
            session := {| step := step ses; context := context ses;
                          samples := samples ses ++ [c];
                          valid_samples := valid_samples ses;
                          invalid_samples := invalid_samples ses ++ [c];
                          is_complete := is_complete ses;
                          winner := winner ses |};
            gen_calls := S (gen_calls st) |})
      else
        let d1 := {| heap := h; groups := groups d;
                     _comparison_cache := _comparison_cache d;
                     cmp_calls := cmp_calls d |} in
        let '(r, d2) := classify compare_semantic c (context ses) d1 in
        let found := match r with
                     | Returns _ => get_winner k d2
                     | Raises _ => None
                     end in
        (match r with Returns _ => Returns tt | Raises e => Raises e end,
         {| disc := d2;
            session := {| step := step ses; context := context ses;
                          samples := samples ses ++ [c];
                          valid_samples := valid_samples ses ++ [c];
                          invalid_samples := invalid_samples ses;
                          is_complete := match found with
                                         | Some _ => true
                                         | None => is_complete ses
                                         end;
                          winner := match found with
                                    | Some w => Some w
                                    | None => winner ses
                                    end |};
            gen_calls := S (gen_calls st) |})
  end.

(** The [while] loop; [fuel] bounds the number of passes, and [None]
    means the loop is still running when the fuel is spent. *)
Fixpoint vote_loop (fuel : nat) (language : Language) (k max_samples : Z)
    (st : VoteState) : option (outcome unit * VoteState) :=
  if loop_cond max_samples st then
    match fuel with
    | O => None
    | S fuel' =>
        let '(r, st') := vote_body language k st in
        match r with
        | Raises e => Some (Raises e, st')
        | Returns _ => vote_loop fuel' language k max_samples st'
        end
    end
  else Some (Returns tt, st).

(** [{g.id: g.votes for g in groups.values()}] and
    [{g.id: g.members for g in groups.values()}] *)
Definition votes_dict (gs : list SemanticGroup) : list (string * Z) :=
  foldl (fun acc g => dict_set (Discriminator.id g) (votes g) acc) [] gs.

Definition members_dict (gs : list SemanticGroup) : list (string * list ref) :=
  foldl (fun acc g => dict_set (Discriminator.id g) (members g) acc) [] gs.

(** [winning_margin]: [len(votes_per_group) > 1] is the case where the
    sorted votes have a second element. *)
Definition margin_of (votes_per_group : list (string * Z)) : Z :=
  match sorted_desc (fun v => v) (dict_values votes_per_group) with
  | first :: second :: _ => first - second
  | _ => 0
  end.

(** The code after the loop ("Monta resultado"): a non-empty
    [discriminator.groups] is the case where the sorted groups have a
    first element. *)
Definition build_result (st : VoteState) : outcome VoteResult * VoteState :=
  let d := disc st in
  let ses := session st in
  let gs := dict_values (groups d) in
  let chosen :=
    match winner ses with
    | Some w => Some w
    | None =>
        match sorted_desc votes gs with
        | top :: _ => Some top
        | [] => None
        end
    end in
  match chosen with
  | None =>
      (Raises (ValueError ("No valid candidates for step " +:+ step_id (step ses))),
       st)
  | Some w =>
      let votes_per_group := votes_dict gs in
      (Returns {| Types.winner := representative w;
                  Types.groups := members_dict gs;
                  Types.votes_per_group := votes_per_group;
                  total_samples := Z.of_nat (length (samples ses));
                  winning_margin := margin_of votes_per_group |},
       {| disc := d;
          session := {| step := step ses; context := context ses;
                        samples := samples ses;
                        valid_samples := valid_samples ses;
                        invalid_samples := invalid_samples ses;
                        is_complete := is_complete ses;
                        winner := Some w |};
          gen_calls := gen_calls st |})
  end.

(** [Voter.vote].  [d0] is the state of the voter's discriminator when
    the call is made. *)
Definition vote (fuel : nat) (s : Step) (ctx : string) (language : Language)
    (k max_samples : option Z) (d0 : DiscState)
    : option (outcome VoteResult * VoteState) :=
  let k := py_or k (Types.k config) in
  let max_samples := py_or max_samples (Types.max_samples config) in
  let st0 := {| disc := reset d0; session := new_session s ctx;
                gen_calls := 0 |} in
  match vote_loop fuel language k max_samples st0 with
  | None => None
  | Some (Raises e, st) => Some (Raises e, st)
  | Some (Returns _, st) => Some (build_result st)
  end.

(** One response of a batch of [vote_parallel]: an exception among the
    gathered responses is skipped, a response becomes a candidate that
    is filtered and classified.  [Raises] is an exception that leaves
    [vote_parallel] (a comparison that raised). *)
Definition parallel_response (language : Language)
    (response : outcome LLMResponse) (st : VoteState)
    : outcome unit * VoteState :=
  let d := disc st in
  let ses := session st in
  match response with
  | Raises _ => (Returns tt, st)
  | Returns response =>
      let candidate := new_candidate (uuid4 (length (heap d))) response in
      let c : ref := length (heap d) in
      let h := heap d ++ [candidate] in
      let flag_result := RedFlag.check ast_parse config candidate language in
      if negb (RedFlag.passed flag_result) then
        (Returns tt,
         {| disc := {| heap := alter (mark_invalid (RedFlag.reason flag_result)) c h;
                       groups := groups d;
                       _comparison_cache := _comparison_cache d;
                       cmp_calls := cmp_calls d |};
            session := {| step := step ses; context := context ses;
                          samples := samples ses ++ [c];
                          valid_samples := valid_samples ses;
                          invalid_samples := invalid_samples ses ++ [c];
                          is_complete := is_complete ses;
                          winner := winner ses |};
            gen_calls := gen_calls st |})
      else
        let d1 := {| heap := h; groups := groups d;
                     _comparison_cache := _comparison_cache d;
                     cmp_calls := cmp_calls d |} in
        let '(r, d2) := classify compare_semantic c (context ses) d1 in
        (match r with Returns _ => Returns tt | Raises e => Raises e end,
         {| disc := d2;
            session := {| step := step ses; context := context ses;
                          samples := samples ses ++ [c];
                          valid_samples := valid_samples ses ++ [c];
                          invalid_samples := invalid_samples ses;
                          is_complete := is_complete ses;
                          winner := winner ses |};
            gen_calls := gen_calls st |})
  end.

(** [for response in responses] *)
Fixpoint parallel_responses (language : Language)
    (responses : list (outcome LLMResponse)) (st : VoteState)
    : outcome unit * VoteState :=
  match responses with
  | [] => (Returns tt, st)
  | response :: rest =>
      let '(r, st') := parallel_response language response st in
      match r with
      | Raises e => (Raises e, st')
      | Returns _ => parallel_responses language rest st'
      end
  end.

(** One pass of the [while] loop of [vote_parallel]: the batch is
    [min(batch_size, max_samples - len(session.samples))] generator
    invocations ([range] of a number that is not positive is empty),
    gathered with their exceptions; the winner is looked for once the
    whole batch is classified. *)
Definition parallel_body (language : Language) (k batch_size max_samples : Z)
    (st : VoteState) : outcome unit * VoteState :=
  let n := Z.to_nat (Z.min batch_size
                       (max_samples - Z.of_nat (length (samples (session st))))) in
  let responses := map generator (seq (gen_calls st) n) in
  let st1 := {| disc := disc st; session := session st;
                gen_calls := (gen_calls st + n)%nat |} in
  let '(r, st2) := parallel_responses language responses st1 in
  match r with
  | Raises e => (Raises e, st2)
  | Returns _ =>
      match get_winner k (disc st2) with
      | Some w =>
          (Returns tt,
           {| disc := disc st2;
              session := {| step := step (session st2);
                            context := context (session st2);
                            samples := samples (session st2);
                            valid_samples := valid_samples (session st2);
                            invalid_samples := invalid_samples (session st2);
                            is_complete := true;
                            winner := Some w |};
              gen_calls := gen_calls st2 |})
      | None => (Returns tt, st2)
      end
  end.

Fixpoint parallel_loop (fuel : nat) (language : Language)
    (k batch_size max_samples : Z) (st : VoteState)
    : option (outcome unit * VoteState) :=
  if loop_cond max_samples st then
    match fuel with
    | O => None
    | S fuel' =>
        let '(r, st') := parallel_body language k batch_size max_samples st in
        match r with
        | Raises e => Some (Raises e, st')
        | Returns _ => parallel_loop fuel' language k batch_size max_samples st'
        end
    end
  else Some (Returns tt, st).

(** [Voter._build_result]: as the end of [vote], but the session is left
    as it is. *)
Definition _build_result (st : VoteState) : outcome VoteResult :=
  let ses := session st in
  let gs := dict_values (groups (disc st)) in
  let chosen :=
    match winner ses with
    | Some w => Some w
    | None =>
        match sorted_desc votes gs with
        | top :: _ => Some top
        | [] => None
        end
    end in
  match chosen with
  | None =>
      Raises (ValueError ("No valid candidates for step " +:+ step_id (step ses)))
  | Some w =>
      let votes_per_group := votes_dict gs in
      Returns {| Types.winner := representative w;
                 Types.groups := members_dict gs;
                 Types.votes_per_group := votes_per_group;
                 total_samples := Z.of_nat (length (samples ses));
                 winning_margin := margin_of votes_per_group |}
  end.

(** [Voter.vote_parallel]; the bound on the samples is the configured
    one. *)
Definition vote_parallel (fuel : nat) (s : Step) (ctx : string)
    (language : Language) (k : option Z) (batch_size : Z) (d0 : DiscState)
    : option (outcome VoteResult * VoteState) :=
  let k := py_or k (Types.k config) in
  let max_samples := Types.max_samples config in
  let st0 := {| disc := reset d0; session := new_session s ctx;
                gen_calls := 0 |} in
  match parallel_loop fuel language k batch_size max_samples st0 with
  | None => None
  | Some (Raises e, st) => Some (Raises e, st)
  | Some (Returns _, st) => Some (_build_result st, st)
  end.

End WithEnv.

End Voter.


(** ** mdap_cli/orchestrator/intent.py *)

Module Intent.

Inductive UserIntent : Type :=
| TASK_SIMPLE | TASK_COMPLEX | TASK_EXPLORE
| META_STATUS | META_EXPLAIN | META_HELP
| CONTROL_PAUSE | CONTROL_RESUME | CONTROL_CANCEL
| CHAT_GREETING | CHAT_GENERAL | CHAT_QUESTION.

#[export] Instance UserIntent_eq_dec : EqDecision UserIntent.
Proof. solve_decision. Defined.

(** The values [json.loads] builds. *)
#[warnings="-register-all"]
Inductive json : Type :=
| JNull
| JBool (b : bool)
| JInt (n : Z)
| JFloat (x : float)
| JStr (s : string)
| JList (items : list json)
| JDict (entries : list (string * json)).

(** Python truth value. *)
Definition truthy (v : json) : bool :=
  match v with
  | JNull => false
  | JBool b => b
  | JInt n => negb (n =? 0)
  | JFloat x => negb (PrimFloat.eqb x 0%float)
  | JStr s => negb (String.eqb s "")
  | JList [] => false
  | JList _ => true
  | JDict [] => false
  | JDict _ => true
  end.

Record IntentResult : Type := {
  intent : UserIntent;
  confidence : float;
  task : json;
  reasoning : json;
}.

(** The constructor with its [__post_init__]. *)
Definition make_result (i : UserIntent) (c : float) (t r : json) : IntentResult :=
  {| intent := i; confidence := c; task := t;
     reasoning := if negb (truthy r) then JStr "" else r |}.

Definition str_of_exn (e : exn) : string :=
  match e with
  | RuntimeError m | ValueError m | JSONDecodeError m | KeyError m
  | TypeError m | AttributeError m | OverflowError m | OtherException m => m
  end.

(** [re.sub(r'^```(?:json)?\s*', '', s)] *)
Definition sub_open_fence (s : string) : string :=
  match PyStr.strip_prefix "```" s with
  | Some rest =>
      PyStr.lstrip (match PyStr.strip_prefix "json" rest with
                    | Some rest' => rest'
                    | None => rest
                    end)
  | None => s
  end.

(** [re.sub(r'\s*```$', '', s)]: [$] is the end of the text, or the
    place before a newline that ends it. *)
Definition sub_close_fence (s : string) : string :=
  match PyStr.drop_suffix "```" s with
  | Some before => PyStr.rstrip before
  | None =>
      match PyStr.drop_suffix ("```" +:+ PyStr.chr 10) s with
      | Some before => PyStr.rstrip before +:+ PyStr.chr 10
      | None => s
      end
  end.

(** [re.search(r'\{[\s\S]*\}', s)]: from the first opening brace to the
    last closing one. *)
Definition search_braces (s : string) : option string :=
  match PyStr.from_first "{" s with
  | Some t => PyStr.upto_last "}" t
  | None => None
  end.

Definition intent_map : list (string * UserIntent) :=
  [ ("TASK_SIMPLE", TASK_SIMPLE); ("TASK_COMPLEX", TASK_COMPLEX);
    ("TASK_EXPLORE", TASK_EXPLORE); ("META_STATUS", META_STATUS);
    ("META_EXPLAIN", META_EXPLAIN); ("META_HELP", META_HELP);
    ("CONTROL_PAUSE", CONTROL_PAUSE); ("CONTROL_RESUME", CONTROL_RESUME);
    ("CONTROL_CANCEL", CONTROL_CANCEL); ("CHAT_GREETING", CHAT_GREETING);
    ("CHAT_GENERAL", CHAT_GENERAL); ("CHAT_QUESTION", CHAT_QUESTION) ].

(** [intent_map.get(intent_str, UserIntent.CHAT_GENERAL)] *)
Definition intent_of (intent_str : string) : UserIntent :=
  default CHAT_GENERAL (dict_get intent_str intent_map).

(** [data.get(key, dflt)] *)
Definition data_get (key : string) (dflt : json) (data : list (string * json)) : json :=
  default dflt (dict_get key data).

(** [type(v).__name__] *)
Definition type_name (v : json) : string :=
  match v with
  | JNull => "NoneType"
  | JBool _ => "bool"
  | JInt _ => "int"
  | JFloat _ => "float"
  | JStr _ => "str"
  | JList _ => "list"
  | JDict _ => "dict"
  end.

(** The [AttributeError] of a method the value does not have. *)
Definition no_attribute (v : json) (name : string) : exn :=
  AttributeError ("'" +:+ type_name v +:+ "' object has no attribute '"
                  +:+ name +:+ "'").

(** [v.upper()]: only a string has the method. *)
Definition py_upper (v : json) : outcome string :=
  match v with
  | JStr s => Returns (PyStr.upper s)
  | _ => Raises (no_attribute v "upper")
  end.

(** [except (json.JSONDecodeError, ValueError, KeyError)] *)
Definition caught_by_parse (e : exn) : bool :=
  match e with
  | JSONDecodeError _ | ValueError _ | KeyError _ => true
  | _ => false
  end.

Definition fallback_result : IntentResult :=
  make_result CHAT_GENERAL 0x1p-1%float (JStr "")
    (JStr ("N" +:+ PyStr.chr 227 +:+ "o foi poss" +:+ PyStr.chr 237
           +:+ "vel classificar com precis" +:+ PyStr.chr 227 +:+ "o")).

Section WithPython.
(** Python's own functions: [json.loads], and [float] on an [int] and on
    a [str]. *)
Variable json_loads : string -> outcome json.
Variable float_of_int : Z -> outcome float.
Variable float_of_str : string -> outcome float.

(** [float(v)] *)
Definition py_float (v : json) : outcome float :=
  match v with
  | JFloat x => Returns x
  | JInt n => float_of_int n
  | JBool b => Returns (if b then 1%float else 0%float)
  | JStr s => float_of_str s
  | _ => Raises (TypeError "float")
  end.

(** The body of the [try] in [_parse_response]: [Returns None] when it
    falls through without a [return]. *)
Definition parse_attempt (response original_message : string)
    : outcome (option IntentResult) :=
  let clean_response := PyStr.strip response in
  let clean_response := sub_open_fence clean_response in
  let clean_response := sub_close_fence clean_response in
  match search_braces clean_response with
  | Some matched =>
      loaded ← json_loads matched;
      match loaded with
      | JDict data =>
          intent_str ← py_upper (data_get "intent" (JStr "CHAT_GENERAL") data);
          confidence ← py_float (data_get "confidence" (JFloat 0x1.6666666666666p-1%float) data);
          let task := data_get "task" (JStr "") data in
          let reasoning := data_get "reasoning" (JStr "") data in
          let intent := intent_of intent_str in
          Returns (Some (make_result intent confidence
                           (if truthy task then task else JStr original_message)
                           reasoning))
      | _ => Raises (no_attribute loaded "get")
      end
  | None => Returns None
  end.

Definition _parse_response (response original_message : string)
    : outcome IntentResult :=
  match parse_attempt response original_message with
  | Returns (Some r) => Returns r
  | Returns None => Returns fallback_result
  | Raises e => if caught_by_parse e then Returns fallback_result else Raises e
  end.

Definition help_patterns : list string :=
  [ "o que voc" +:+ PyStr.chr 234 +:+ " faz"; "o que vc faz";
    "o que voc" +:+ PyStr.chr 234 +:+ " pode"; "o que vc pode";
    "capaz de fazer"; "suas capacidades"; "me ajuda"; "ajuda"; "help";
    "comandos" ].

Definition complex_patterns : list string :=
  [ "sistema"; "projeto";
    "aplica" +:+ PyStr.chr 231 +:+ PyStr.chr 227 +:+ "o";
    "aplicativo"; "app"; "completo"; "backend"; "frontend"; "banco de dados" ].

Definition task_verbs : list string :=
  [ "quero"; "preciso"; "criar"; "fazer"; "desenvolver"; "construir" ].

Definition simple_patterns : list string :=
  [ "fun" +:+ PyStr.chr 231 +:+ PyStr.chr 227 +:+ "o"; "validador"; "script";
    "hello world" ].

Definition greetings : list string :=
  [ "oi"; "ol" +:+ PyStr.chr 225; "ola"; "bom dia"; "boa tarde"; "boa noite";
    "e a" +:+ PyStr.chr 237; "eai" ].

(** [any(p in msg for p in patterns)] *)
Definition any_in (patterns : list string) (msg : string) : bool :=
  existsb (fun p => PyStr.contains p msg) patterns.

Definition _detect_local (message : string) : option IntentResult :=
  let msg := PyStr.strip (PyStr.lower message) in
  if any_in help_patterns msg then
    Some (make_result META_HELP 0x1.b333333333333p-1%float (JStr "")
            (JStr "Detectado localmente: pergunta sobre capacidades"))
  else if any_in complex_patterns msg && any_in task_verbs msg then
    Some (make_result TASK_COMPLEX 0x1.b333333333333p-1%float (JStr message)
            (JStr "Detectado localmente: tarefa complexa"))
  else if any_in simple_patterns msg && any_in task_verbs msg then
    Some (make_result TASK_SIMPLE 0x1.b333333333333p-1%float (JStr message)
            (JStr "Detectado localmente: tarefa simples"))
  else if existsb (String.eqb msg) greetings
          || ((PyStr.len msg <? 15) && any_in greetings msg
              && negb (PyStr.contains "?" msg)) then
    Some (make_result CHAT_GREETING 0x1.ccccccccccccdp-1%float (JStr "")
            (JStr ("Detectado localmente: sauda" +:+ PyStr.chr 231
                   +:+ PyStr.chr 227 +:+ "o")))
  else None.

(** [detect].  [reply] is what [session.client.generate(prompt)] did: the
    text of the LLM, or an exception. *)
Definition detect (reply : outcome string) (message : string) : IntentResult :=
  match (response ← reply; _parse_response response message) with
  | Returns result =>
      if PrimFloat.eqb (confidence result) 0x1p-1%float
         && bool_decide (intent result = CHAT_GENERAL)
      then match _detect_local message with
           | Some local_result => local_result
           | None => result
           end
      else result
  | Raises e =>
      match _detect_local message with
      | Some local_result => local_result
      | None =>
          make_result CHAT_GENERAL 0x1p-1%float (JStr "")
            (JStr ("Erro: " +:+ str_of_exn e))
      end
  end.

End WithPython.

End Intent.


(** * Properties *)

(** ** The orchestrator state machine *)

Module StateFacts.
Import State Orchestrator.

(** Membership questions about the closed table are settled by
    evaluation. *)
Ltac table_in := vm_compute; intuition congruence.
Ltac table_out H := vm_compute in H; intuition discriminate.

Lemma mem_In s l : mem s l = true <-> In s l.
Proof.
  unfold mem. rewrite existsb_exists. split.
  - intros (x & Hx & Hd). apply bool_decide_eq_true in Hd. by subst.
  - intros H. exists s. split; [done | by apply bool_decide_eq_true].
Qed.

Lemma can_transition_in_table s to :
  can_transition s to = true <-> in_table (current s) to.
Proof. unfold can_transition, in_table. apply mem_In. Qed.

Lemma transition_rejected ts now to why s :
  ~ in_table (current s) to -> transition ts now to why s = Returns (false, s).
Proof.
  intros H. unfold transition.
  destruct (can_transition s to) eqn:E; [|done].
  by apply can_transition_in_table in E.
Qed.

Lemma transition_taken ts now to why s :
  in_table (current s) to ->
  exists s', transition ts now to why s = Returns (true, s')
    /\ current s' = to
    /\ previous s' = (if bool_decide (to = PAUSED) then Some (current s)
                      else previous s)
    /\ transition_history s' =
         transition_history s ++
           [ {| from_state := current s; to_state := to; reason := why;
                timestamp := ts |} ].
Proof.
  intros H. apply can_transition_in_table in H.
  unfold transition. rewrite H. simpl. eexists. split; [reflexivity|]. done.
Qed.

(** Every record of the history is a pair of the table. *)
Definition history_in_table (s : OrchestratorState) : Prop :=
  Forall (fun tr => in_table (from_state tr) (to_state tr)) (transition_history s).

(** C3 (as stated): a transition outside the table raises.  It does not:
    the call returns [False], the state untouched. *)
Lemma transition_outside_table_returns_false :
  ~ in_table IDLE COMPLETED
  /\ transition 0 0 COMPLETED "skip" initial = Returns (false, initial).
Proof. split; [|reflexivity]. intros H. table_out H. Qed.

(** C3 (amended): a transition whose pair is not in the table is rejected
    by returning [False] with the state machine (current state and
    history included) unchanged, and nothing is raised; a transition is
    taken, returning [True], exactly when its pair is in the table, and
    then it is the pair recorded in the history, so that every record of
    the history is a pair of the table. *)
Theorem transition_respects_table ts now to why s :
  history_in_table s ->
  exists b s',
    transition ts now to why s = Returns (b, s')
    /\ (b = true <-> in_table (current s) to)
    /\ (b = false -> s' = s)
    /\ (b = true ->
          current s' = to
          /\ transition_history s' =
               transition_history s ++
                 [ {| from_state := current s; to_state := to; reason := why;
                      timestamp := ts |} ])
    /\ history_in_table s'.
Proof.
  intros Hh.
  assert (Hdec : in_table (current s) to \/ ~ in_table (current s) to).
  { destruct (can_transition s to) eqn:E.
    - left. by apply can_transition_in_table.
    - right. intros H. apply can_transition_in_table in H. congruence. }
  destruct Hdec as [Hin|Hout].
  - destruct (transition_taken ts now to why s Hin) as (s' & -> & Hc & _ & Hhist).
    exists true, s'. repeat split; try done.
    unfold history_in_table. rewrite Hhist. apply Forall_app. split; [done|].
    by constructor.
  - rewrite (transition_rejected _ _ _ _ _ Hout).
    exists false, s. repeat split; try done.
Qed.

Lemma transition_respects_table_witness :
  history_in_table initial
  /\ exists b s',
       transition 5 7 EXPANDING "run" initial = Returns (b, s')
       /\ (b = true <-> in_table (current initial) EXPANDING)
       /\ (b = false -> s' = initial)
       /\ (b = true ->
             current s' = EXPANDING
             /\ transition_history s' =
                  transition_history initial ++
                    [ {| from_state := current initial; to_state := EXPANDING;
                         reason := "run"; timestamp := 5 |} ])
       /\ history_in_table s'.
Proof.
  split.
  - constructor.
  - apply (transition_respects_table 5 7 EXPANDING "run" initial). constructor.
Defined.

Lemma is_running_phase o :
  is_running (state o) = true <-> In (current (state o)) EXECUTION_PHASES.
Proof. apply mem_In. Qed.

(** C2 (the code at the failing input): from an execution phase [cancel]
    reports success but the state machine has not moved, because the
    table has no pair from an execution phase to [IDLE]; the start of a
    new task is then refused. *)
Theorem cancel_from_execution_phase_stays ts now o t :
  is_running (state o) = true ->
  exists o',
    cancel ts now o = Returns (true, o')
    /\ state o' = state o
    /\ current (state o') <> IDLE
    /\ returned (start_task_begin t o') = false.
Proof.
  intros Hrun. pose proof Hrun as Hin. apply is_running_phase in Hin.
  unfold cancel.
  assert (Hidle : current (state o) <> IDLE).
  { intros E. rewrite E in Hin. table_out Hin. }
  rewrite bool_decide_eq_false_2 by done.
  rewrite transition_rejected.
  2:{ intros Ht. unfold in_table in Ht. simpl in Hin.
      destruct Hin as [E|[E|[E|[E|[]]]]]; rewrite <- E in Ht; table_out Ht. }
  simpl. eexists. split; [reflexivity|]. simpl. repeat split; try done.
  unfold start_task_begin. simpl. by rewrite Hrun.
Qed.

Definition expanding_orchestrator : MDAPOrchestrator :=
  {| state := {| current := EXPANDING; previous := None; State.task := "old task";
                 current_phase_detail := ""; transition_history := [];
                 error_message := None; started_at := Some 1;
                 completed_at := None |};
     result := {| task := "old task"; requirements := ["r1"]; functions := [];
                  code := []; validation_passed := false; error := None;
                  elapsed_seconds := 0; decisions_made := 0 |};
     emitted := [] |}.

Lemma cancel_from_execution_phase_stays_witness :
  is_running (state expanding_orchestrator) = true
  /\ exists o',
       cancel 2 3 expanding_orchestrator = Returns (true, o')
       /\ state o' = state expanding_orchestrator
       /\ current (state o') <> IDLE
       /\ returned (start_task_begin "new task" o') = false.
Proof.
  split; [reflexivity|].
  apply (cancel_from_execution_phase_stays 2 3 expanding_orchestrator "new task").
  reflexivity.
Defined.

(** X14: from [PAUSED], [AWAITING_DECISION], [COMPLETED] and [ERROR],
    [cancel] takes the machine to [IDLE], and a task started next gets a
    fresh result. *)
Lemma cancel_from_resting_state ts now o t :
  In (current (state o)) [PAUSED; AWAITING_DECISION; COMPLETED; ERROR] ->
  exists o' o'',
    cancel ts now o = Returns (true, o')
    /\ current (state o') = IDLE
    /\ start_task_begin t o' = Returns o''
    /\ result o'' = fresh_result t
    /\ State.task (state o'') = t.
Proof.
  intros Hin. unfold cancel.
  assert (Hidle : current (state o) <> IDLE).
  { intros E. rewrite E in Hin. table_out Hin. }
  rewrite bool_decide_eq_false_2 by done.
  destruct (transition_taken ts now IDLE
              ("Cancelado pelo usu" +:+ PyStr.chr 225 +:+ "rio") (state o))
    as (s' & Ht & Hc & _).
  { unfold in_table. simpl in Hin.
    destruct Hin as [E|[E|[E|[E|[]]]]]; rewrite <- E; table_in. }
  rewrite Ht. simpl. eexists _, _. split; [reflexivity|]. simpl.
  split; [done|]. unfold start_task_begin. simpl.
  unfold is_running. rewrite Hc. simpl. done.
Qed.

(** C8: from an execution phase, [pause] takes the machine to [PAUSED]
    with the phase saved as the prior state, and [resume] then takes it
    back to exactly that phase; a pause requested while the machine is
    [PAUSED] returns [False] and changes nothing. *)
Theorem pause_resume_round_trip ts now ts' now' o :
  In (current (state o)) EXECUTION_PHASES ->
  (exists o1 o2,
     pause ts now o = Returns (true, o1)
     /\ current (state o1) = PAUSED
     /\ previous (state o1) = Some (current (state o))
     /\ resume ts' now' o1 = Returns (true, o2)
     /\ current (state o2) = current (state o))
  /\ (forall p, current (state p) = PAUSED -> pause ts now p = Returns (false, p)).
Proof.
  intros Hin. split.
  - unfold pause.
    assert (Hp : is_pausable (state o) = true).
    { unfold is_pausable. apply orb_true_iff. left. by apply mem_In. }
    rewrite Hp. simpl.
    destruct (transition_taken ts now PAUSED
                ("Pausado pelo usu" +:+ PyStr.chr 225 +:+ "rio") (state o))
      as (s1 & Ht & Hc & Hprev & _).
    { unfold in_table. simpl in Hin.
      destruct Hin as [E|[E|[E|[E|[]]]]]; rewrite <- E; table_in. }
    assert (Hprev1 : previous s1 = Some (current (state o))).
    { rewrite Hprev. reflexivity. }
    destruct (transition_taken ts' now' (current (state o))
                ("Retomando execu" +:+ PyStr.chr 231 +:+ PyStr.chr 227 +:+ "o") s1)
      as (s2 & Ht2 & Hc2 & _).
    { unfold in_table. rewrite Hc. simpl in Hin.
      destruct Hin as [E|[E|[E|[E|[]]]]]; rewrite <- E; table_in. }
    rewrite Ht. simpl. eexists _, _. split; [reflexivity|]. simpl.
    split; [done|]. split; [done|].
    unfold resume, get_resume_state. simpl. rewrite Hc, Hprev1. simpl.
    rewrite Ht2. simpl. split; [reflexivity|]. simpl. done.
  - intros p Hp. unfold pause, is_pausable. rewrite Hp. reflexivity.
Qed.

Lemma pause_resume_round_trip_witness :
  In (current (state expanding_orchestrator)) EXECUTION_PHASES
  /\ (exists o1 o2,
        pause 2 3 expanding_orchestrator = Returns (true, o1)
        /\ current (state o1) = PAUSED
        /\ previous (state o1) = Some (current (state expanding_orchestrator))
        /\ resume 4 5 o1 = Returns (true, o2)
        /\ current (state o2) = current (state expanding_orchestrator))
     /\ (forall p, current (state p) = PAUSED -> pause 2 3 p = Returns (false, p)).
Proof.
  split; [left; reflexivity|].
  apply (pause_resume_round_trip 2 3 4 5 expanding_orchestrator).
  left; reflexivity.
Defined.

End StateFacts.

(** ** The discriminator *)

Module DiscriminatorFacts.
Import Types Discriminator.

(** [str(n)] is injective, so group names are. *)
Lemma str_of_int_inj n m : PyStr.str_of_int n = PyStr.str_of_int m -> n = m.
Proof.
  unfold PyStr.str_of_int. intros H.
  apply DecimalZ.to_int_inj.
  assert (Hn : forall z, NilZero.int_of_string (NilZero.string_of_int (Z.to_int z))
                         = Some (Z.to_int z)).
  { intros z. apply NilZero.isi; destruct z; simpl; try discriminate;
      intros [= E]; by apply DecimalPos.Unsigned.to_uint_nonnil in E. }
  pose proof (Hn n) as H1. rewrite H, Hn in H1. congruence.
Qed.

Lemma append_inj_l (p a b : string) : p +:+ a = p +:+ b -> a = b.
Proof. induction p; simpl; [done|]. intros [= E]. auto. Qed.

Lemma group_name_inj n m : group_name n = group_name m -> n = m.
Proof.
  unfold group_name. intros H. apply append_inj_l in H.
  apply str_of_int_inj in H. lia.
Qed.

(** The dictionary of a discriminator that only [classify] and [reset]
    have touched: the [i]-th entry has key and id [group_i]. *)
Definition named_in_order (gs : list (string * SemanticGroup)) : Prop :=
  forall i kv, gs !! i = Some kv ->
    fst kv = group_name i /\ id (snd kv) = group_name i.

Lemma dict_set_fresh {V} key (v : V) d :
  (forall kv, kv ∈ d -> fst kv <> key) -> dict_set key v d = d ++ [(key, v)].
Proof.
  induction d as [|[k' v'] d IH]; intros H; simpl; [done|].
  destruct (String.eqb_spec k' key) as [->|Hne].
  - exfalso. apply (H (key, v')); [left|done].
  - f_equal. apply IH. intros kv Hkv. apply H. by right.
Qed.

Lemma dict_set_next gs g :
  named_in_order gs ->
  dict_set (group_name (length gs)) g gs = gs ++ [(group_name (length gs), g)].
Proof.
  intros Hn. apply dict_set_fresh. intros kv Hkv E.
  apply list_elem_of_lookup in Hkv as [i Hi].
  destruct (Hn i kv Hi) as [Hk _]. rewrite Hk in E.
  apply group_name_inj in E. apply lookup_lt_Some in Hi. lia.
Qed.

Section WithClient.
Variable compare_semantic : nat -> string -> string -> string -> outcome bool.

Local Abbreviation compare := (compare compare_semantic).
Local Abbreviation find_group_from := (find_group_from compare_semantic).
Local Abbreviation find_group := (find_group compare_semantic).
Local Abbreviation classify := (classify compare_semantic).

(** Comparing touches the cache and the call count only. *)
Lemma compare_frame a b ctx d r d' :
  compare a b ctx d = (r, d') -> heap d' = heap d /\ groups d' = groups d.
Proof.
  unfold Discriminator.compare. intros H.
  destruct (_comparison_cache d !! _cache_key a b).
  - by inversion H.
  - destruct (compare_semantic _ _ _ _); by inversion H.
Qed.

(** "The candidate is compared against the representative of each group
    in insertion order, and the first yes decides": the run of
    [find_group] over the groups [gs] (the first of them at position
    [i]), from state [d] to state [d']. *)
Inductive first_yes (candidate : ref) (ctx : string)
  : nat -> list SemanticGroup -> DiscState
    -> outcome (option (nat * SemanticGroup)) -> DiscState -> Prop :=
| fy_none i d :
    first_yes candidate ctx i [] d (Returns None) d
| fy_yes i g gs d d' :
    compare (code_of (heap d) candidate) (code_of (heap d) (representative g)) ctx d
      = (Returns true, d') ->
    first_yes candidate ctx i (g :: gs) d (Returns (Some (i, g))) d'
| fy_no i g gs d d' r d'' :
    compare (code_of (heap d) candidate) (code_of (heap d) (representative g)) ctx d
      = (Returns false, d') ->
    first_yes candidate ctx (S i) gs d' r d'' ->
    first_yes candidate ctx i (g :: gs) d r d''
| fy_raise i g gs d e d' :
    compare (code_of (heap d) candidate) (code_of (heap d) (representative g)) ctx d
      = (Raises e, d') ->
    first_yes candidate ctx i (g :: gs) d (Raises e) d'.

Lemma find_group_from_first_yes candidate ctx gs : forall i d,
  first_yes candidate ctx i gs d
    (fst (find_group_from i gs candidate ctx d))
    (snd (find_group_from i gs candidate ctx d)).
Proof.
  induction gs as [|g gs IH]; intros i d; simpl.
  - constructor.
  - destruct (compare _ _ ctx d) as [r d'] eqn:E.
    destruct r as [[|]|e]; simpl.
    + by apply fy_yes.
    + eapply fy_no; [exact E|]. apply IH.
    + by apply fy_raise.
Qed.

Lemma first_yes_frame candidate ctx i gs d r d' :
  first_yes candidate ctx i gs d r d' ->
  heap d' = heap d /\ groups d' = groups d.
Proof.
  induction 1 as [| i g gs d d' Hc | i g gs d d' r d'' Hc _ IH | i g gs d e d' Hc];
    try done; try (by apply compare_frame in Hc).
  apply compare_frame in Hc as [Hh Hg]. destruct IH as [-> ->]. done.
Qed.

(** The group found sits at the position returned; when none is found
    the whole list was compared. *)
Lemma first_yes_position candidate ctx i gs d j g d' :
  first_yes candidate ctx i gs d (Returns (Some (j, g))) d' ->
  (i <= j)%nat /\ gs !! (j - i)%nat = Some g.
Proof.
  remember (Returns (Some (j, g))) as r eqn:Hr.
  induction 1 as [| i g0 gs d d' Hc | i g0 gs d d' r d'' Hc _ IH | i g0 gs d e d' Hc];
    try done.
  - injection Hr as -> ->. split; [lia|]. by rewrite Nat.sub_diag.
  - destruct (IH Hr) as [Hle Hl]. split; [lia|].
    replace (j - i)%nat with (S (j - S i)) by lia. done.
Qed.

Lemma find_group_frame candidate ctx d r d' :
  find_group candidate ctx d = (r, d') ->
  first_yes candidate ctx 0 (dict_values (groups d)) d r d'
  /\ heap d' = heap d /\ groups d' = groups d.
Proof.
  unfold Discriminator.find_group. intros H.
  pose proof (find_group_from_first_yes candidate ctx (dict_values (groups d)) 0%nat d)
    as Hfy.
  rewrite H in Hfy. simpl in Hfy. split; [done|].
  by eapply first_yes_frame.
Qed.

(** Whatever its outcome, [classify] allocates nothing and writes to the
    candidate's object only. *)
Lemma classify_frame candidate ctx d r d' :
  classify candidate ctx d = (r, d') ->
  length (heap d') = length (heap d)
  /\ (forall r', r' <> candidate -> heap d' !! r' = heap d !! r').
Proof.
  unfold Discriminator.classify. intros Hcl.
  destruct (find_group candidate ctx d) as [r0 dm] eqn:Hf.
  apply find_group_frame in Hf as (_ & Hh & _).
  destruct r0 as [[[i g]|]|e]; injection Hcl as <- <-; simpl;
    rewrite ?length_alter, Hh; (split; [done|]); intros r' Hr';
    by rewrite ?list_lookup_alter_ne.
Qed.

Lemma named_in_order_alter gs i c :
  named_in_order gs -> named_in_order (alter (on_value (add c)) i gs).
Proof.
  intros Hn j kv Hj.
  destruct (decide (i = j)) as [->|Hne].
  - rewrite list_lookup_alter_eq in Hj.
    destruct (gs !! j) as [kv0|] eqn:E; simplify_eq/=.
    destruct (Hn j kv0 E) as [H1 H2]. done.
  - rewrite list_lookup_alter_ne in Hj by done. by apply Hn.
Qed.

Lemma named_in_order_snoc gs g :
  named_in_order gs -> id g = group_name (length gs) ->
  named_in_order (gs ++ [(group_name (length gs), g)]).
Proof.
  intros Hn Hid j kv Hj.
  apply lookup_app_Some in Hj as [Hj|[Hle Hj]]; [by apply Hn|].
  apply list_lookup_singleton_Some in Hj as [Hz <-].
  replace j with (length gs) by lia. done.
Qed.

(** The two ways [classify] returns: the candidate joined the group at
    the position [find_group] gave, or founded the next group. *)
Lemma classify_returns_cases candidate ctx d g' d' :
  named_in_order (groups d) ->
  classify candidate ctx d = (Returns g', d') ->
  exists dm,
    (exists i g,
       first_yes candidate ctx 0 (dict_values (groups d)) d
         (Returns (Some (i, g))) dm
       /\ dict_values (groups d) !! i = Some g
       /\ g' = add candidate g
       /\ groups d' = alter (on_value (add candidate)) i (groups d))
    \/
    (first_yes candidate ctx 0 (dict_values (groups d)) d (Returns None) dm
     /\ g' = {| id := group_name (length (groups d));
                representative := candidate; members := [candidate] |}
     /\ groups d' = groups d ++ [(group_name (length (groups d)), g')]).
Proof.
  intros Hn Hcl. unfold Discriminator.classify in Hcl.
  destruct (find_group candidate ctx d) as [r dm] eqn:Hf.
  apply find_group_frame in Hf as (Hfy & Hh & Hg).
  destruct r as [[[i g]|]|e]; [| |done]; injection Hcl as <- <-; simpl;
    exists dm; rewrite Hg.
  - left. exists i, g.
    pose proof (first_yes_position _ _ _ _ _ _ _ _ Hfy) as [_ Hi].
    rewrite Nat.sub_0_r in Hi. done.
  - right. rewrite (dict_set_next _ _ Hn). done.
Qed.

Lemma classify_keeps_names candidate ctx d g' d' :
  named_in_order (groups d) ->
  classify candidate ctx d = (Returns g', d') ->
  named_in_order (groups d').
Proof.
  intros Hn Hcl.
  destruct (classify_returns_cases _ _ _ _ _ Hn Hcl)
    as (dm & [(i & g & _ & _ & _ & ->)|(_ & -> & ->)]).
  - by apply named_in_order_alter.
  - by apply named_in_order_snoc.
Qed.

(** C5: [classify] compares the candidate with the representatives in
    insertion order ([first_yes]) and puts it in the first group that
    answers yes, at the end of its member list; when no group answers
    yes it appends a new group named [group_n], [n] the number of groups
    there were, with the candidate as representative and only member.
    Either way the candidate object gets the id of the group returned,
    no other candidate object changes, the dictionary stays named in
    order, and a group's votes are the length of its member list. *)
Theorem classify_joins_first_match candidate ctx d g' d' :
  named_in_order (groups d) ->
  (candidate < length (heap d))%nat ->
  classify candidate ctx d = (Returns g', d') ->
  (exists dm,
     (exists i g,
        first_yes candidate ctx 0 (dict_values (groups d)) d
          (Returns (Some (i, g))) dm
        /\ dict_values (groups d) !! i = Some g
        /\ g' = {| id := id g; representative := representative g;
                   members := members g ++ [candidate] |}
        /\ groups d' = alter (on_value (add candidate)) i (groups d)
        /\ dict_values (groups d') !! i = Some g')
     \/
     (first_yes candidate ctx 0 (dict_values (groups d)) d (Returns None) dm
      /\ g' = {| id := group_name (length (groups d));
                 representative := candidate; members := [candidate] |}
      /\ groups d' = groups d ++ [(group_name (length (groups d)), g')]))
  /\ (group_id <$> heap d' !! candidate) = Some (Some (id g'))
  /\ (forall r, r <> candidate -> heap d' !! r = heap d !! r)
  /\ named_in_order (groups d')
  /\ (forall g, g ∈ dict_values (groups d') ->
        votes g = Z.of_nat (length (members g))).
Proof.
  intros Hn Hc Hcl.
  pose proof (classify_returns_cases _ _ _ _ _ Hn Hcl) as (dm & Hcases).
  pose proof (classify_frame _ _ _ _ _ Hcl) as [_ Hother].
  pose proof (classify_keeps_names _ _ _ _ _ Hn Hcl) as Hnamed.
  split; [|split; [|split; [|split]]]; try done.
  - exists dm. destruct Hcases as [(i & g & Hfy & Hi & -> & Hgs)|Hnew];
      [left|by right].
    exists i, g. repeat (split; [done|]).
    rewrite Hgs. unfold dict_values in *.
    change (map snd ?l) with (snd <$> l) in *.
    rewrite list_lookup_fmap in Hi |- *. rewrite list_lookup_alter_eq.
    destruct (groups d !! i) as [[k0 g0]|]; simplify_eq/=. done.
  - (* the candidate object now carries the id of the group returned *)
    destruct (lookup_lt_is_Some_2 (heap d) candidate Hc) as [c0 Hc0].
    unfold Discriminator.classify in Hcl.
    destruct (find_group candidate ctx d) as [r dm'] eqn:Hf.
    apply find_group_frame in Hf as (_ & Hh & _).
    destruct r as [[[i g]|]|e]; [| |done]; injection Hcl as <- <-; simpl;
      by rewrite list_lookup_alter_eq, Hh, Hc0.
Qed.

End WithClient.

Definition one_group_state : DiscState :=
  {| heap := [ {| Types.id := "a"; code := "x = 1"; tokens_used := 3;
                  is_valid := true; red_flag_reason := None;
                  group_id := Some "group_0" |};
               {| Types.id := "b"; code := "x=1"; tokens_used := 3;
                  is_valid := true; red_flag_reason := None;
                  group_id := None |} ];
     groups := [ ("group_0", {| id := "group_0"; representative := 0%nat;
                                members := [0%nat] |}) ];
     _comparison_cache := ∅;
     cmp_calls := 0 |}.

Definition says_no : nat -> string -> string -> string -> outcome bool :=
  fun _ _ _ _ => Returns false.

Definition new_group_1 : SemanticGroup :=
  {| id := "group_1"; representative := 1%nat; members := [1%nat] |}.

Lemma classify_joins_first_match_witness :
  named_in_order (groups one_group_state)
  /\ (1 < length (heap one_group_state))%nat
  /\ (group_id <$> heap (snd (classify says_no 1%nat "ctx" one_group_state)) !! 1%nat)
       = Some (Some "group_1")
  /\ groups (snd (classify says_no 1%nat "ctx" one_group_state))
       = groups one_group_state ++ [("group_1", new_group_1)].
Proof.
  assert (Hn : named_in_order (groups one_group_state)).
  { intros [|[|i]] kv; simpl; [|done..]. by intros [= <-]. }
  assert (Hl : (1 < length (heap one_group_state))%nat) by (simpl; lia).
  split; [exact Hn|]. split; [exact Hl|].
  destruct (classify says_no 1%nat "ctx" one_group_state) as [r d'] eqn:E.
  assert (Hr : r = Returns new_group_1).
  { apply (f_equal fst) in E. vm_compute in E. done. }
  subst r.
  destruct (classify_joins_first_match says_no 1%nat "ctx" one_group_state
              new_group_1 d' Hn Hl E) as (Hcases & Hgid & _).
  split; [exact Hgid|]. simpl.
  destruct Hcases as (dm & [(i & g & _ & Hi & Hg' & _)| (_ & _ & Hgs)]).
  - exfalso. apply (f_equal members) in Hg'.
    destruct i as [|i]; simpl in Hi; [|done].
    injection Hi as <-. discriminate Hg'.
  - exact Hgs.
Defined.

End DiscriminatorFacts.

(** ** The voter *)

Module VoterFacts.
Import Types Discriminator Voter DiscriminatorFacts.

Lemma dict_set_elem {V} key (v : V) d kv :
  kv ∈ dict_set key v d -> kv = (key, v) \/ exists v', (fst kv, v') ∈ d.
Proof.
  induction d as [|[k' v'] d IH]; simpl.
  - intros H. apply list_elem_of_singleton in H. by left.
  - destruct (String.eqb_spec k' key) as [->|Hne]; intros H.
    + apply elem_of_cons in H as [->|H]; [by left|].
      right. exists (snd kv). destruct kv. simpl. by right.
    + apply elem_of_cons in H as [->|H].
      * right. exists v'. by left.
      * destruct (IH H) as [->|[v'' Hv]]; [by left|].
        right. exists v''. by right.
Qed.

Lemma dict_set_value {V} key (v : V) d kv :
  kv ∈ dict_set key v d -> kv = (key, v) \/ kv ∈ d.
Proof.
  induction d as [|[k' v'] d IH]; simpl.
  - intros H. apply list_elem_of_singleton in H. by left.
  - destruct (String.eqb_spec k' key) as [->|Hne]; intros H.
    + apply elem_of_cons in H as [->|H]; [by left|]. right. by right.
    + apply elem_of_cons in H as [->|H]; [right; by left|].
      destruct (IH H) as [->|Hd]; [by left|]. right. by right.
Qed.

(** Updating the object just allocated. *)
Lemma alter_last {A} (f : A -> A) (l : list A) x :
  alter f (length l) (l ++ [x]) = l ++ [f x].
Proof. induction l as [|y l IH]; simpl; [done|]. f_equal. exact IH. Qed.

Lemma lookup_last {A} (l : list A) x : (l ++ [x]) !! length l = Some x.
Proof. by rewrite lookup_app_r, Nat.sub_diag. Qed.

(** Every entry of [{g.id: g.members for g in ...}] is some group's
    id and member list. *)
Lemma members_dict_elem gs kv :
  kv ∈ members_dict gs -> exists g, g ∈ gs /\ kv = (Discriminator.id g, members g).
Proof.
  unfold members_dict.
  assert (H : forall acc,
             (forall kv, kv ∈ acc ->
                exists g, g ∈ gs /\ kv = (Discriminator.id g, members g)) ->
             forall gs', gs' ⊆ gs ->
             forall kv,
               kv ∈ foldl (fun acc g => dict_set (Discriminator.id g) (members g) acc)
                      acc gs' ->
               exists g, g ∈ gs /\ kv = (Discriminator.id g, members g)).
  { intros acc Hacc gs'. revert acc Hacc.
    induction gs' as [|g gs' IH]; intros acc Hacc Hsub kv0 Hk; simpl in Hk.
    - by apply Hacc.
    - eapply (IH (dict_set (Discriminator.id g) (members g) acc)); [| |exact Hk].
      + intros kv1 H1. apply dict_set_value in H1 as [->|H1]; [|by apply Hacc].
        exists g. split; [|done]. apply Hsub. by left.
      + intros x Hx. apply Hsub. by right. }
  apply (H []); [|done].
  intros kv0 H0. by apply elem_of_nil in H0.
Qed.

Section WithEnv.
Variable generator : nat -> outcome LLMResponse.
Variable compare_semantic : nat -> string -> string -> string -> outcome bool.
Variable uuid4 : nat -> string.
Variable ast_parse : string -> RedFlag.parse_result.
Variable config : MDAPConfig.

Local Abbreviation vote_body := (vote_body generator compare_semantic uuid4 ast_parse config).
Local Abbreviation vote_loop := (vote_loop generator compare_semantic uuid4 ast_parse config).
Local Abbreviation vote := (vote generator compare_semantic uuid4 ast_parse config).
Local Abbreviation check := (RedFlag.check ast_parse config).

(** The number of invocations, among the first [n], at which the
    generator returned normally. *)
Fixpoint returned_calls (n : nat) : nat :=
  match n with
  | O => O
  | S m => (returned_calls m + (if returned (generator m) then 1 else 0))%nat
  end.

(** The filter reads the code and the token count only. *)
Lemma check_reads_code c1 c2 language :
  code c1 = code c2 -> tokens_used c1 = tokens_used c2 ->
  check c1 language = check c2 language.
Proof.
  intros Hc Ht.
  unfold RedFlag.check, RedFlag.check_format_step, RedFlag.check_syntax_step,
    RedFlag._check_length, RedFlag._check_format, RedFlag._check_syntax,
    RedFlag.too_long_reason.
  by rewrite Hc, Ht.
Qed.

(** *** One pass of the loop *)

(** A generator invocation that raises: the pass is skipped, nothing but
    the invocation count changes. *)
Lemma vote_body_generator_raises language k st e :
  generator (gen_calls st) = Raises e ->
  vote_body language k st =
    (Returns tt, {| disc := disc st; session := session st;
                    gen_calls := S (gen_calls st) |}).
Proof. intros H. unfold Voter.vote_body. by rewrite H. Qed.

(** A candidate the filter rejects: it is appended to the samples and to
    the invalid samples, its object is marked invalid with the filter's
    reason, and the discriminator's groups and cache are not touched. *)
Lemma vote_body_red_flagged language k st response :
  generator (gen_calls st) = Returns response ->
  let c := length (heap (disc st)) in
  let candidate := new_candidate (uuid4 c) response in
  RedFlag.passed (check candidate language) = false ->
  exists st',
    vote_body language k st = (Returns tt, st')
    /\ samples (session st') = samples (session st) ++ [c]
    /\ invalid_samples (session st') = invalid_samples (session st) ++ [c]
    /\ valid_samples (session st') = valid_samples (session st)
    /\ is_complete (session st') = is_complete (session st)
    /\ heap (disc st') =
         heap (disc st)
         ++ [mark_invalid (RedFlag.reason (check candidate language)) candidate]
    /\ groups (disc st') = groups (disc st)
    /\ gen_calls st' = S (gen_calls st).
Proof.
  intros Hg c candidate Hp. unfold Voter.vote_body. rewrite Hg.
  fold c. fold candidate. rewrite Hp. simpl.
  eexists. split; [reflexivity|]. simpl. repeat split; try done.
  apply alter_last.
Qed.

(** A candidate the filter accepts is classified; the pass raises when
    a comparison does, and otherwise asks for a winner. *)
Lemma vote_body_classified language k st response r d2 :
  generator (gen_calls st) = Returns response ->
  let c := length (heap (disc st)) in
  let candidate := new_candidate (uuid4 c) response in
  RedFlag.passed (check candidate language) = true ->
  classify compare_semantic c (context (session st))
    {| heap := heap (disc st) ++ [candidate]; groups := groups (disc st);
       _comparison_cache := _comparison_cache (disc st);
       cmp_calls := cmp_calls (disc st) |} = (r, d2) ->
  exists st',
    vote_body language k st =
      (match r with Returns _ => Returns tt | Raises e => Raises e end, st')
    /\ disc st' = d2
    /\ samples (session st') = samples (session st) ++ [c]
    /\ valid_samples (session st') = valid_samples (session st) ++ [c]
    /\ invalid_samples (session st') = invalid_samples (session st)
    /\ gen_calls st' = S (gen_calls st)
    /\ (returned r = true ->
          is_complete (session st') =
            (if get_winner k d2 is Some _ then true else is_complete (session st))
          /\ winner (session st') =
               (if get_winner k d2 is Some w then Some w else winner (session st))).
Proof.
  intros Hg c candidate Hp Hcl. unfold Voter.vote_body. rewrite Hg.
  fold c. fold candidate. rewrite Hp. simpl. rewrite Hcl.
  eexists. split; [reflexivity|]. simpl. repeat split; try done;
    destruct r; simpl in *; try done; by destruct (get_winner k d2).
Qed.

(** Every pass invokes the generator once, and appends one sample
    exactly when the invocation returned. *)
Lemma vote_body_samples language k st r st' :
  vote_body language k st = (r, st') ->
  gen_calls st' = S (gen_calls st)
  /\ length (samples (session st')) =
       (length (samples (session st))
        + (if returned (generator (gen_calls st)) then 1 else 0))%nat.
Proof.
  intros Hb. destruct (generator (gen_calls st)) as [response|e] eqn:Hg.
  - destruct (RedFlag.passed
                (check (new_candidate (uuid4 (length (heap (disc st)))) response)
                   language)) eqn:Hp.
    + destruct (classify compare_semantic (length (heap (disc st)))
                  (context (session st))
                  {| heap := heap (disc st)
                             ++ [new_candidate (uuid4 (length (heap (disc st)))) response];
                     groups := groups (disc st);
                     _comparison_cache := _comparison_cache (disc st);
                     cmp_calls := cmp_calls (disc st) |}) as [r0 d2] eqn:Hcl.
      destruct (vote_body_classified language k st response r0 d2 Hg Hp Hcl)
        as (st0 & Hb0 & _ & Hs & _ & _ & Hgc & _).
      rewrite Hb in Hb0. injection Hb0 as _ ->.
      rewrite Hs, length_app. simpl. done.
    + destruct (vote_body_red_flagged language k st response Hg Hp)
        as (st0 & Hb0 & Hs & _ & _ & _ & _ & _ & Hgc).
      rewrite Hb in Hb0. injection Hb0 as _ ->.
      rewrite Hs, length_app. simpl. done.
  - rewrite (vote_body_generator_raises language k st e Hg) in Hb.
    injection Hb as _ <-. simpl. split; [done|lia].
Qed.

(** *** What every state of the loop satisfies *)

(** The counted samples are the invocations that returned, and they
    never exceed the bound. *)
Definition count_inv (max_samples : Z) (st : VoteState) : Prop :=
  length (samples (session st)) = returned_calls (gen_calls st)
  /\ Z.of_nat (length (samples (session st))) <= Z.max 0 max_samples.

Lemma count_inv_body language k max_samples st r st' :
  count_inv max_samples st ->
  loop_cond max_samples st = true ->
  vote_body language k st = (r, st') ->
  count_inv max_samples st'.
Proof.
  intros [Hc Hb] Hcond Hbody.
  apply vote_body_samples in Hbody as [Hgc Hlen].
  unfold loop_cond in Hcond. apply andb_true_iff in Hcond as [Hlt _].
  apply Z.ltb_lt in Hlt.
  split.
  - rewrite Hgc. simpl. rewrite <- Hc. exact Hlen.
  - rewrite Hlen. destruct (returned _); lia.
Qed.

Lemma count_inv_loop language k max_samples fuel : forall st r st',
  count_inv max_samples st ->
  vote_loop fuel language k max_samples st = Some (r, st') ->
  count_inv max_samples st'.
Proof.
  induction fuel as [|fuel IH]; intros st r st' Hinv Hl; simpl in Hl.
  - destruct (loop_cond max_samples st); [done|]. by injection Hl as _ <-.
  - destruct (loop_cond max_samples st) eqn:Hcond;
      [|by injection Hl as _ <-].
    destruct (vote_body language k st) as [r0 st0] eqn:Hb.
    pose proof (count_inv_body _ _ _ _ _ _ Hinv Hcond Hb) as Hinv0.
    destruct r0 as [[]|e].
    + by eapply IH.
    + by injection Hl as _ <-.
Qed.

(** What the sessions, the heap and the groups have in common along the
    loop.  A rejected candidate's object is the candidate as built,
    marked invalid with the reason the filter gave. *)
Definition rejected_object (language : Language) (c : Candidate) : Prop :=
  exists cid response,
    let candidate := new_candidate cid response in
    RedFlag.passed (check candidate language) = false
    /\ c = mark_invalid (RedFlag.reason (check candidate language)) candidate.

Record vote_inv (language : Language) (st : VoteState) : Prop := {
  inv_samples : forall r, r ∈ samples (session st) ->
                  (r < length (heap (disc st)))%nat;
  inv_valid : forall r, r ∈ valid_samples (session st) -> r ∈ samples (session st);
  inv_invalid : forall r, r ∈ invalid_samples (session st) ->
                  r ∈ samples (session st)
                  /\ (r ∉ valid_samples (session st))
                  /\ (exists c, heap (disc st) !! r = Some c
                                /\ rejected_object language c);
  inv_members : forall g, g ∈ dict_values (groups (disc st)) ->
                  forall r, r ∈ members g -> r ∈ valid_samples (session st);
  inv_named : named_in_order (groups (disc st));
  inv_split : length (samples (session st)) =
                (length (valid_samples (session st))
                 + length (invalid_samples (session st)))%nat;
}.

Lemma members_after_classify (gs gs' : list (string * SemanticGroup)) c g g' :
  (gs' = gs ++ [(group_name (length gs), g')] /\ members g' = [c]
   \/ exists i, gs' = alter (on_value (add c)) i gs) ->
  g ∈ dict_values gs' ->
  forall r, r ∈ members g ->
    r = c \/ exists g0, g0 ∈ dict_values gs /\ r ∈ members g0.
Proof.
  intros Hcases Hg r Hr. unfold dict_values in *.
  destruct Hcases as [[-> Hm]|[i ->]].
  - rewrite map_app in Hg. apply elem_of_app in Hg as [Hg|Hg].
    + right. by exists g.
    + simpl in Hg. apply list_elem_of_singleton in Hg. subst g.
      rewrite Hm in Hr. apply list_elem_of_singleton in Hr. by left.
  - apply list_elem_of_lookup in Hg as [j Hj].
    change (map snd ?l) with (snd <$> l) in Hj.
    rewrite list_lookup_fmap in Hj.
    destruct (decide (i = j)) as [->|Hne].
    + rewrite list_lookup_alter_eq in Hj.
      destruct (gs !! j) as [[k0 g0]|] eqn:E; simplify_eq/=.
      apply elem_of_app in Hr as [Hr|Hr].
      * right. exists g0. split; [|done].
        apply list_elem_of_lookup. exists j.
        change (map snd ?l) with (snd <$> l).
        by rewrite list_lookup_fmap, E.
      * apply list_elem_of_singleton in Hr. by left.
    + rewrite list_lookup_alter_ne in Hj by done.
      right. exists g. split; [|done].
      apply list_elem_of_lookup. exists j.
      change (map snd ?l) with (snd <$> l). by rewrite list_lookup_fmap.
Qed.

Lemma vote_inv_body language k st st' :
  vote_inv language st ->
  vote_body language k st = (Returns tt, st') ->
  vote_inv language st'.
Proof.
  intros Hinv Hb.
  destruct (generator (gen_calls st)) as [response|e] eqn:Hg.
  2:{ rewrite (vote_body_generator_raises language k st e Hg) in Hb.
      injection Hb as <-. by destruct Hinv. }
  set (c := length (heap (disc st))) in *.
  set (candidate := new_candidate (uuid4 c) response) in *.
  assert (Hfresh : forall r, r ∈ samples (session st) -> r <> c).
  { intros r Hr. apply (inv_samples _ _ Hinv) in Hr. unfold c. lia. }
  destruct (RedFlag.passed (check candidate language)) eqn:Hp.
  - (* accepted and classified *)
    destruct (classify compare_semantic c (context (session st))
                {| heap := heap (disc st) ++ [candidate];
                   groups := groups (disc st);
                   _comparison_cache := _comparison_cache (disc st);
                   cmp_calls := cmp_calls (disc st) |}) as [r0 d2] eqn:Hcl.
    destruct (vote_body_classified language k st response r0 d2 Hg Hp Hcl)
      as (st0 & Hb0 & Hd & Hs & Hv & Hi & _).
    rewrite Hb in Hb0. injection Hb0 as Hr0 <-.
    destruct r0 as [g'|e]; [|done].
    pose proof (classify_frame _ _ _ _ _ _ Hcl) as [Hlen Hother].
    simpl in Hlen, Hother. rewrite length_app in Hlen. simpl in Hlen.
    assert (Hn1 : named_in_order (groups
                   {| heap := heap (disc st) ++ [candidate];
                      groups := groups (disc st);
                      _comparison_cache := _comparison_cache (disc st);
                      cmp_calls := cmp_calls (disc st) |}))
      by exact (inv_named _ _ Hinv).
    pose proof (classify_returns_cases compare_semantic _ _ _ _ _ Hn1 Hcl)
      as Hcases.
    pose proof (classify_keeps_names compare_semantic _ _ _ _ _ Hn1 Hcl)
      as Hnamed.
    simpl in Hcases.
    split; rewrite ?Hd, ?Hs, ?Hv, ?Hi.
    + intros r Hr. rewrite Hlen. apply elem_of_app in Hr as [Hr|Hr].
      * apply (inv_samples _ _ Hinv) in Hr. lia.
      * apply list_elem_of_singleton in Hr. subst r. unfold c. lia.
    + intros r Hr. apply elem_of_app in Hr as [Hr|Hr].
      * apply elem_of_app. left. by apply (inv_valid _ _ Hinv).
      * apply elem_of_app. by right.
    + intros r Hr. destruct (inv_invalid _ _ Hinv r Hr) as (Hrs & Hnv & c0 & Hc0 & Hrej).
      split; [apply elem_of_app; by left|]. split.
      * intros Hin. apply elem_of_app in Hin as [Hin|Hin]; [done|].
        apply list_elem_of_singleton in Hin. by apply (Hfresh r).
      * exists c0. split; [|done].
        rewrite Hother by (by apply Hfresh).
        rewrite lookup_app_l; [done|]. by apply (inv_samples _ _ Hinv).
    + intros g Hgin r Hr.
      assert (Hsrc : r = c \/ exists g0, g0 ∈ dict_values (groups (disc st))
                                        /\ r ∈ members g0).
      { eapply (members_after_classify (groups (disc st)) (groups d2) c g g');
          [|exact Hgin|exact Hr].
        destruct Hcases as (dm & [(i & g1 & _ & _ & _ & Hgs)|(_ & Hg' & Hgs)]).
        - right. by exists i.
        - left. split; [done|]. by rewrite Hg'. }
      destruct Hsrc as [->|(g0 & Hg0 & Hr0')].
      * apply elem_of_app. right. by apply list_elem_of_singleton.
      * apply elem_of_app. left. by apply (inv_members _ _ Hinv g0).
    + exact Hnamed.
    + rewrite !length_app. simpl. pose proof (inv_split _ _ Hinv). lia.
  - (* rejected by the filter *)
    destruct (vote_body_red_flagged language k st response Hg Hp)
      as (st0 & Hb0 & Hs & Hi & Hv & _ & Hh & Hgs & _).
    rewrite Hb in Hb0. injection Hb0 as <-.
    split; rewrite ?Hs, ?Hv, ?Hi, ?Hh, ?Hgs.
    + intros r Hr. rewrite length_app. simpl. apply elem_of_app in Hr as [Hr|Hr].
      * apply (inv_samples _ _ Hinv) in Hr. lia.
      * apply list_elem_of_singleton in Hr. subst r. unfold c. lia.
    + intros r Hr. apply elem_of_app. left. by apply (inv_valid _ _ Hinv).
    + intros r Hr. apply elem_of_app in Hr as [Hr|Hr].
      * destruct (inv_invalid _ _ Hinv r Hr) as (Hrs & Hnv & c0 & Hc0 & Hrej).
        split; [apply elem_of_app; by left|]. split; [done|].
        exists c0. split; [|done].
        rewrite lookup_app_l; [done|]. by apply (inv_samples _ _ Hinv).
      * apply list_elem_of_singleton in Hr. subst r.
        split; [apply elem_of_app; right; by apply list_elem_of_singleton|].
        split.
        -- intros Hin. apply (inv_valid _ _ Hinv) in Hin. by apply (Hfresh c).
        -- eexists. split; [apply lookup_last|].
           exists (uuid4 c), response. by split.
    + exact (inv_members _ _ Hinv).
    + exact (inv_named _ _ Hinv).
    + rewrite !length_app. simpl. pose proof (inv_split _ _ Hinv). lia.
Qed.

Lemma vote_inv_loop language k max_samples fuel : forall st st',
  vote_inv language st ->
  vote_loop fuel language k max_samples st = Some (Returns tt, st') ->
  vote_inv language st'.
Proof.
  induction fuel as [|fuel IH]; intros st st' Hinv Hl; simpl in Hl.
  - destruct (loop_cond max_samples st); [done|]. by injection Hl as <-.
  - destruct (loop_cond max_samples st); [|by injection Hl as <-].
    destruct (vote_body language k st) as [r0 st0] eqn:Hb.
    destruct r0 as [[]|e]; [|done].
    eapply IH; [|exact Hl]. by eapply vote_inv_body.
Qed.

Lemma rejected_object_fields language c :
  rejected_object language c ->
  is_valid c = false
  /\ group_id c = None
  /\ RedFlag.passed (check c language) = false
  /\ red_flag_reason c = RedFlag.reason (check c language).
Proof.
  intros (cid & response & Hp & ->). simpl.
  rewrite (check_reads_code
             (mark_invalid (RedFlag.reason (check (new_candidate cid response) language))
                (new_candidate cid response))
             (new_candidate cid response) language) by done.
  done.
Qed.

Lemma build_result_returns st res st' :
  build_result st = (Returns res, st') ->
  disc st' = disc st
  /\ samples (session st') = samples (session st)
  /\ valid_samples (session st') = valid_samples (session st)
  /\ invalid_samples (session st') = invalid_samples (session st)
  /\ gen_calls st' = gen_calls st
  /\ total_samples res = Z.of_nat (length (samples (session st)))
  /\ Types.groups res = members_dict (dict_values (groups (disc st))).
Proof.
  unfold build_result. intros H.
  destruct (match winner (session st) with
            | Some w => Some w
            | None => match sorted_desc votes (dict_values (groups (disc st))) with
                      | top :: _ => Some top
                      | [] => None
                      end
            end); [|done].
  by injection H as <- <-.
Qed.

(** *** The filter's verdict and the two lists of samples *)

(** The responses of the invocations, among the first [n], at which the
    generator returned normally, in order. *)
Fixpoint returned_responses (n : nat) : list LLMResponse :=
  match n with
  | O => []
  | S m => returned_responses m
           ++ match generator m with
              | Returns response => [response]
              | Raises _ => []
              end
  end.

(** The filter's verdict on the object a sample refers to. *)
Definition accepted (language : Language) (h : list Candidate) (r : ref) : bool :=
  match h !! r with
  | Some c => RedFlag.passed (check c language)
  | None => false
  end.

(** The object of a sample holds the content and the token count of a
    response. *)
Definition came_from (h : list Candidate) (r : ref) (response : LLMResponse) : Prop :=
  exists c, h !! r = Some c
            /\ code c = content response
            /\ tokens_used c = tokens_output response.

(** Along the loop the samples are the responses the generator returned,
    in order, the valid samples are those the filter accepts and the
    invalid ones those it rejects. *)
Record filter_inv (language : Language) (st : VoteState) : Prop := {
  fi_heap : forall r, r ∈ samples (session st) ->
              (r < length (heap (disc st)))%nat;
  fi_valid : valid_samples (session st)
             = List.filter (accepted language (heap (disc st)))
                 (samples (session st));
  fi_invalid : invalid_samples (session st)
               = List.filter (fun r => negb (accepted language (heap (disc st)) r))
                   (samples (session st));
  fi_source : Forall2 (came_from (heap (disc st))) (samples (session st))
                (returned_responses (gen_calls st));
}.

(** [classify] changes no object's code or token count. *)
Lemma classify_keeps_code candidate ctx d r d' :
  classify compare_semantic candidate ctx d = (r, d') ->
  forall r0 x, heap d !! r0 = Some x ->
    exists x', heap d' !! r0 = Some x'
               /\ code x' = code x /\ tokens_used x' = tokens_used x.
Proof.
  intros Hcl r0 x Hx. unfold Discriminator.classify in Hcl.
  destruct (find_group compare_semantic candidate ctx d) as [r1 dm] eqn:Hf.
  apply find_group_frame in Hf as (_ & Hh & _).
  assert (Halter : forall gid,
            exists x', alter (set_group_id gid) candidate (heap dm) !! r0 = Some x'
                       /\ code x' = code x /\ tokens_used x' = tokens_used x).
  { intros gid. rewrite Hh. destruct (decide (candidate = r0)) as [->|Hne].
    - rewrite list_lookup_alter_eq, Hx. simpl. by eexists.
    - rewrite list_lookup_alter_ne by done. by exists x. }
  destruct r1 as [[[i g]|]|e]; injection Hcl as _ <-; simpl;
    [apply Halter|apply Halter|].
  rewrite Hh. by exists x.
Qed.

Lemma accepted_same language h h' r :
  (forall x, h !! r = Some x ->
     exists x', h' !! r = Some x'
                /\ code x' = code x /\ tokens_used x' = tokens_used x) ->
  (r < length h)%nat ->
  accepted language h' r = accepted language h r.
Proof.
  intros Hkeep Hlt. unfold accepted, ref in *.
  destruct (lookup_lt_is_Some_2 h r Hlt) as [x Hx].
  destruct (Hkeep x Hx) as (x' & Hx' & Hc & Ht).
  rewrite Hx, Hx'. f_equal. by apply check_reads_code.
Qed.

(** One more sample: the heap has grown by the candidate built from the
    response, nothing but group ids and validity marks has changed on
    the objects, and the sample went to the list the verdict names. *)
Lemma filter_inv_sample language st st' response cid :
  filter_inv language st ->
  generator (gen_calls st) = Returns response ->
  let c := length (heap (disc st)) in
  let candidate := new_candidate cid response in
  (forall r0 x, (heap (disc st) ++ [candidate]) !! r0 = Some x ->
     exists x', heap (disc st') !! r0 = Some x'
                /\ code x' = code x /\ tokens_used x' = tokens_used x) ->
  length (heap (disc st')) = S (length (heap (disc st))) ->
  samples (session st') = samples (session st) ++ [c] ->
  valid_samples (session st')
  = valid_samples (session st)
    ++ (if RedFlag.passed (check candidate language) then [c] else []) ->
  invalid_samples (session st')
  = invalid_samples (session st)
    ++ (if RedFlag.passed (check candidate language) then [] else [c]) ->
  gen_calls st' = S (gen_calls st) ->
  filter_inv language st'.
Proof.
  intros [Hheap Hvalid Hinvalid Hsrc] Hg c candidate Hkeep Hlen Hs Hv Hi Hgc.
  assert (Hold : forall r, r ∈ samples (session st) ->
            accepted language (heap (disc st')) r
            = accepted language (heap (disc st)) r).
  { intros r Hr. apply accepted_same; [|by apply Hheap].
    intros x Hx. apply Hkeep. rewrite lookup_app_l; [done|]. by apply Hheap. }
  assert (Hnew : accepted language (heap (disc st')) c
                 = RedFlag.passed (check candidate language)).
  { unfold accepted.
    destruct (Hkeep c candidate) as (x' & Hx' & Hc & Ht); [apply lookup_last|].
    unfold ref in *. rewrite Hx'. f_equal. by apply check_reads_code. }
  split.
  - intros r Hr. rewrite Hs in Hr. rewrite Hlen.
    apply elem_of_app in Hr as [Hr|Hr].
    + apply Hheap in Hr. lia.
    + apply list_elem_of_singleton in Hr. subst r. unfold c. lia.
  - rewrite Hv, Hs, List.filter_app. simpl. rewrite Hnew.
    replace (List.filter (accepted language (heap (disc st')))
               (samples (session st)))
      with (valid_samples (session st)).
    { by destruct (RedFlag.passed (check candidate language)). }
    rewrite Hvalid. apply List.filter_ext_in. intros r Hr. symmetry.
    apply Hold. by apply list_elem_of_In.
  - rewrite Hi, Hs, List.filter_app. simpl. rewrite Hnew.
    replace (List.filter
               (fun r => negb (accepted language (heap (disc st')) r))
               (samples (session st)))
      with (invalid_samples (session st)).
    { by destruct (RedFlag.passed (check candidate language)). }
    rewrite Hinvalid. apply List.filter_ext_in. intros r Hr. f_equal.
    symmetry. apply Hold. by apply list_elem_of_In.
  - rewrite Hs, Hgc. simpl. rewrite Hg. apply Forall2_app.
    + eapply Forall2_impl; [exact Hsrc|].
      intros r resp (x & Hx & Hc & Ht).
      destruct (Hkeep r x) as (x' & Hx' & Hc' & Ht').
      { rewrite lookup_app_l; [done|]. by eapply lookup_lt_Some. }
      exists x'. split; [done|]. split; congruence.
    + constructor; [|constructor].
      destruct (Hkeep c candidate) as (x' & Hx' & Hc & Ht); [apply lookup_last|].
      exists x'. by split.
Qed.

Lemma filter_inv_body language k st r st' :
  filter_inv language st ->
  vote_body language k st = (r, st') ->
  filter_inv language st'.
Proof.
  intros Hinv Hb. unfold Voter.vote_body in Hb.
  destruct (generator (gen_calls st)) as [response|e] eqn:Hg.
  2:{ injection Hb as _ <-. destruct Hinv as [H1 H2 H3 H4].
      split; simpl; try done. by rewrite Hg, app_nil_r. }
  set (c := length (heap (disc st))) in *.
  set (candidate := new_candidate (uuid4 c) response) in *.
  destruct (RedFlag.passed (check candidate language)) eqn:Hp; simpl in Hb.
  - destruct (classify compare_semantic c (context (session st)) _)
      as [r0 d2] eqn:Hcl.
    pose proof (classify_frame _ _ _ _ _ _ Hcl) as [Hlen _].
    pose proof (classify_keeps_code _ _ _ _ _ Hcl) as Hkeep.
    simpl in Hlen, Hkeep. rewrite length_app in Hlen. simpl in Hlen.
    injection Hb as _ <-.
    eapply (filter_inv_sample language st _ response (uuid4 c) Hinv Hg);
      simpl; fold c candidate; rewrite ?Hp, ?app_nil_r; try done.
    rewrite Hlen. lia.
  - injection Hb as _ <-.
    eapply (filter_inv_sample language st _ response (uuid4 c) Hinv Hg);
      simpl; fold c candidate; rewrite ?Hp, ?app_nil_r; try done.
    + intros r0 x Hx. unfold c. rewrite alter_last.
      destruct (decide (r0 = length (heap (disc st)))) as [->|Hne].
      * rewrite lookup_last in Hx |- *. injection Hx as <-. by eexists.
      * assert (r0 < length (heap (disc st)))%nat.
        { apply lookup_lt_Some in Hx. rewrite length_app in Hx. simpl in Hx. lia. }
        rewrite lookup_app_l in Hx |- * by done. by exists x.
    + rewrite length_alter, length_app. simpl. lia.
Qed.

Lemma filter_inv_loop language k max_samples fuel : forall st r st',
  filter_inv language st ->
  vote_loop fuel language k max_samples st = Some (r, st') ->
  filter_inv language st'.
Proof.
  induction fuel as [|fuel IH]; intros st r st' Hinv Hl; simpl in Hl.
  - destruct (loop_cond max_samples st); [done|]. by injection Hl as _ <-.
  - destruct (loop_cond max_samples st); [|by injection Hl as _ <-].
    destruct (vote_body language k st) as [r0 st0] eqn:Hb.
    pose proof (filter_inv_body _ _ _ _ _ Hinv Hb) as Hinv0.
    destruct r0 as [[]|e]; [by eapply IH|by injection Hl as _ <-].
Qed.

(** Whatever the outcome of [vote], its samples are sorted by the
    filter's verdict. *)
Lemma vote_filter_inv fuel s ctx language k max_samples d0 r st :
  vote fuel s ctx language k max_samples d0 = Some (r, st) ->
  filter_inv language st.
Proof.
  intros Hv. unfold Voter.vote in Hv.
  destruct (vote_loop fuel language _ _ _) as [[r1 st1]|] eqn:Hl; [|done].
  assert (Hinv : filter_inv language st1).
  { eapply filter_inv_loop; [|exact Hl].
    split; simpl; try done;
      first [by constructor | intros r0 H; by apply elem_of_nil in H]. }
  destruct r1 as [[]|e]; [|by injection Hv as _ <-].
  injection Hv as Hv. unfold build_result in Hv.
  destruct (match winner (session st1) with
            | Some w => Some w
            | None => match sorted_desc votes (dict_values (groups (disc st1))) with
                      | top :: _ => Some top
                      | [] => None
                      end
            end); injection Hv as _ <-; destruct Hinv; by split.
Qed.

(** What the invariant says of one sample. *)
Lemma filter_inv_sample_cases language st r :
  filter_inv language st ->
  r ∈ samples (session st) ->
  exists c,
    heap (disc st) !! r = Some c
    /\ (RedFlag.passed (check c language) = true <->
        r ∈ valid_samples (session st))
    /\ (RedFlag.passed (check c language) = false <->
        r ∈ invalid_samples (session st)).
Proof.
  intros [Hheap Hvalid Hinvalid _] Hr.
  destruct (lookup_lt_is_Some_2 _ _ (Hheap r Hr)) as [c Hc].
  exists c. split; [done|].
  rewrite Hvalid, Hinvalid, !list_elem_of_In, !List.filter_In.
  unfold accepted, ref in *. rewrite Hc, <- list_elem_of_In.
  destruct (RedFlag.passed (check c language)); simpl; split; split;
    try done; by intros [_ ?].
Qed.

(** C6: in a [vote] that returns a result, [total_samples] is the number
    of generator invocations that returned normally; it counts the
    candidates the filter rejected together with the accepted ones and
    is what [max_samples] bounds; every rejected candidate is a counted
    sample whose object is marked invalid and carries the reason the
    filter gives for it, has no group id, and is a member of no group of
    the discriminator or of the result; and a generator invocation that
    raises leaves the session and the discriminator as they were.
    The samples are, in order, the responses the generator returned;
    the valid samples are exactly those [RedFlag.check] accepts and the
    invalid samples exactly those it rejects, so that a sample whose
    candidate [RedFlag.check] rejects is an invalid sample, is no valid
    sample, and is in no group; and the pass of the loop that meets a
    rejected candidate appends it to the samples and to the invalid
    samples, marks its object, and leaves the groups, the cache and the
    number of comparisons of the discriminator as they were. *)
Theorem vote_counts_returned_samples fuel s ctx language k max_samples d0 res st :
  vote fuel s ctx language k max_samples d0 = Some (Returns res, st) ->
  total_samples res = Z.of_nat (returned_calls (gen_calls st))
  /\ total_samples res =
       Z.of_nat (length (valid_samples (session st))
                 + length (invalid_samples (session st)))
  /\ total_samples res <= Z.max 0 (py_or max_samples (Types.max_samples config))
  /\ (forall r, r ∈ invalid_samples (session st) ->
        r ∈ samples (session st)
        /\ (exists c,
              heap (disc st) !! r = Some c
              /\ is_valid c = false
              /\ RedFlag.passed (check c language) = false
              /\ red_flag_reason c = RedFlag.reason (check c language)
              /\ group_id c = None)
        /\ (forall g, g ∈ dict_values (groups (disc st)) -> r ∉ members g)
        /\ (forall gid ms, (gid, ms) ∈ Types.groups res -> r ∉ ms))
  /\ (forall k' st1 e,
        generator (gen_calls st1) = Raises e ->
        vote_body language k' st1 =
          (Returns tt, {| disc := disc st1; session := session st1;
                          gen_calls := S (gen_calls st1) |}))
  /\ total_samples res = Z.of_nat (length (samples (session st)))
  /\ Forall2 (came_from (heap (disc st))) (samples (session st))
       (returned_responses (gen_calls st))
  /\ valid_samples (session st)
     = List.filter (accepted language (heap (disc st))) (samples (session st))
  /\ invalid_samples (session st)
     = List.filter (fun r => negb (accepted language (heap (disc st)) r))
         (samples (session st))
  /\ (forall r, r ∈ samples (session st) ->
        exists c,
          heap (disc st) !! r = Some c
          /\ (RedFlag.passed (check c language) = false ->
              r ∈ invalid_samples (session st)
              /\ (r ∉ valid_samples (session st))
              /\ is_valid c = false
              /\ red_flag_reason c = RedFlag.reason (check c language)
              /\ group_id c = None
              /\ (forall g, g ∈ dict_values (groups (disc st)) -> r ∉ members g)
              /\ (forall gid ms, (gid, ms) ∈ Types.groups res -> r ∉ ms)))
  /\ (forall k' st1 response,
        generator (gen_calls st1) = Returns response ->
        let c := length (heap (disc st1)) in
        let candidate := new_candidate (uuid4 c) response in
        RedFlag.passed (check candidate language) = false ->
        exists st',
          vote_body language k' st1 = (Returns tt, st')
          /\ samples (session st') = samples (session st1) ++ [c]
          /\ invalid_samples (session st') = invalid_samples (session st1) ++ [c]
          /\ valid_samples (session st') = valid_samples (session st1)
          /\ heap (disc st')
             = heap (disc st1)
               ++ [mark_invalid (RedFlag.reason (check candidate language)) candidate]
          /\ groups (disc st') = groups (disc st1)
          /\ _comparison_cache (disc st') = _comparison_cache (disc st1)
          /\ cmp_calls (disc st') = cmp_calls (disc st1)
          /\ gen_calls st' = S (gen_calls st1)).
Proof.
  intros Hv. pose proof (vote_filter_inv _ _ _ _ _ _ _ _ _ Hv) as Hfi.
  unfold Voter.vote in Hv.
  set (bound := py_or max_samples (Types.max_samples config)) in *.
  set (st0 := {| disc := reset d0; session := new_session s ctx;
                 gen_calls := 0 |}) in *.
  destruct (vote_loop fuel language _ bound st0) as [[r1 st1]|] eqn:Hl; [|done].
  destruct r1 as [[]|e]; [|done].
  assert (Hc0 : count_inv bound st0) by (split; simpl; [done|lia]).
  assert (Hi0 : vote_inv language st0).
  { split; simpl; intros; try done;
      match goal with
      | H : _ ∈ [] |- _ => by apply elem_of_nil in H
      | H : [] !! _ = Some _ |- _ => by rewrite lookup_nil in H
      end. }
  destruct (count_inv_loop _ _ _ _ _ _ _ Hc0 Hl) as [Hcount Hbound].
  pose proof (vote_inv_loop _ _ _ _ _ _ Hi0 Hl) as Hinv.
  injection Hv as Hv.
  apply build_result_returns in Hv as (Hd & Hs & Hva & Hin & Hgc & Htot & Hgr).
  assert (Hrejected : forall r, r ∈ invalid_samples (session st1) ->
            r ∈ samples (session st1)
            /\ (exists c,
                  heap (disc st1) !! r = Some c
                  /\ is_valid c = false
                  /\ RedFlag.passed (check c language) = false
                  /\ red_flag_reason c = RedFlag.reason (check c language)
                  /\ group_id c = None)
            /\ (forall g, g ∈ dict_values (groups (disc st1)) -> r ∉ members g)
            /\ (forall gid ms,
                  (gid, ms) ∈ members_dict (dict_values (groups (disc st1))) ->
                  r ∉ ms)).
  { intros r Hr.
    destruct (inv_invalid _ _ Hinv r Hr) as (Hrs & Hnv & c & Hc & Hrej).
    split; [done|]. split.
    + exists c. split; [done|].
      destruct (rejected_object_fields _ _ Hrej) as (? & ? & ? & ?). done.
    + assert (Hnot : forall g, g ∈ dict_values (groups (disc st1)) -> r ∉ members g).
      { intros g Hg Hm. apply Hnv. by apply (inv_members _ _ Hinv g). }
      split; [exact Hnot|].
      intros gid ms Hm. apply members_dict_elem in Hm as (g & Hg & [= -> ->]).
      by apply Hnot. }
  destruct Hfi as [Hfheap Hfvalid Hfinvalid Hfsrc].
  rewrite Hd, Hs, Hva, Hin, Hgc in *. rewrite Htot, Hgr.
  assert (Hfi : filter_inv language st1) by (split; by rewrite ?Hgc).
  split; [by rewrite Hcount|].
  split; [by rewrite (inv_split _ _ Hinv)|].
  split; [exact Hbound|].
  split; [exact Hrejected|].
  split.
  { intros k' st2 e He. by apply vote_body_generator_raises with (e := e). }
  split; [done|]. split; [exact Hfsrc|].
  split; [exact Hfvalid|]. split; [exact Hfinvalid|].
  split.
  - intros r Hr.
    destruct (filter_inv_sample_cases _ _ _ Hfi Hr) as (c & Hc & Hyes & Hno).
    exists c. split; [exact Hc|]. intros Hp.
    assert (Hri : r ∈ invalid_samples (session st1)) by (by apply Hno).
    destruct (Hrejected r Hri) as (_ & (c' & Hc' & Hval & _ & Hreason & Hgid) & Hg1 & Hg2).
    unfold ref in *. rewrite Hc in Hc'. injection Hc' as <-.
    split; [exact Hri|]. split.
    { intros Hrv. apply Hyes in Hrv. congruence. }
    done.
  - intros k' st2 response Hg c candidate Hp.
    destruct (vote_body_red_flagged language k' st2 response Hg Hp)
      as (st' & Hb & H1 & H2 & H3 & _ & H5 & H6 & H7).
    exists st'. split; [exact Hb|]. split; [exact H1|]. split; [exact H2|].
    split; [exact H3|]. split; [exact H5|]. split; [exact H6|].
    unfold Voter.vote_body in Hb. rewrite Hg in Hb. fold c candidate in Hb.
    rewrite Hp in Hb. simpl in Hb. injection Hb as <-. by simpl.
Qed.

(** *** Termination *)

Lemma vote_loop_terminates language k max_samples fuel : forall st,
  (forall n, returned (generator n) = true) ->
  (Z.to_nat (max_samples - Z.of_nat (length (samples (session st)))) <= fuel)%nat ->
  exists r st',
    vote_loop fuel language k max_samples st = Some (r, st')
    /\ (gen_calls st' <= gen_calls st
         + Z.to_nat (max_samples - Z.of_nat (length (samples (session st)))))%nat.
Proof.
  intros st Hret. revert st.
  induction fuel as [|fuel IH]; intros st Hfuel; simpl.
  - destruct (loop_cond max_samples st) eqn:Hcond.
    + unfold loop_cond in Hcond. apply andb_true_iff in Hcond as [Hlt _].
      apply Z.ltb_lt in Hlt. lia.
    + eexists _, _. split; [reflexivity|lia].
  - destruct (loop_cond max_samples st) eqn:Hcond.
    2:{ eexists _, _. split; [reflexivity|lia]. }
    unfold loop_cond in Hcond. apply andb_true_iff in Hcond as [Hlt _].
    apply Z.ltb_lt in Hlt.
    destruct (vote_body language k st) as [r0 st0] eqn:Hb.
    pose proof (vote_body_samples _ _ _ _ _ Hb) as [Hgc Hlen].
    rewrite Hret in Hlen.
    destruct r0 as [[]|e].
    + destruct (IH st0) as (r & st' & Hl & Hle); [lia|].
      exists r, st'. split; [done|]. lia.
    + eexists _, _. split; [reflexivity|]. lia.
Qed.

(** C10: when no invocation of the generator raises, [vote] ends (with
    a result or an exception) within [max_samples] passes of the loop,
    having invoked the generator at most [max_samples] times, every
    invocation being a counted sample.  For any generator, the samples
    counted at the end are the invocations that returned, and it is this
    count that [max_samples] bounds: an invocation that raises adds to
    the invocations and not to the samples. *)
Theorem vote_terminates_within_max_samples fuel s ctx language k max_samples d0 :
  let bound := py_or max_samples (Types.max_samples config) in
  (Z.to_nat bound <= fuel)%nat ->
  ((forall n, returned (generator n) = true) ->
   exists r st,
     vote fuel s ctx language k max_samples d0 = Some (r, st)
     /\ Z.of_nat (gen_calls st) <= Z.max 0 bound
     /\ gen_calls st = length (samples (session st)))
  /\ (forall fuel' r st,
        vote fuel' s ctx language k max_samples d0 = Some (r, st) ->
        length (samples (session st)) = returned_calls (gen_calls st)
        /\ Z.of_nat (length (samples (session st))) <= Z.max 0 bound)
  /\ (forall k' st e,
        generator (gen_calls st) = Raises e ->
        exists st',
          vote_body language k' st = (Returns tt, st')
          /\ gen_calls st' = S (gen_calls st)
          /\ samples (session st') = samples (session st)).
Proof.
  intros bound Hfuel.
  set (st0 := {| disc := reset d0; session := new_session s ctx;
                 gen_calls := 0 |}).
  assert (Hinv0 : count_inv bound st0) by (split; simpl; [done|lia]).
  assert (Hcount : forall fuel' r st,
            vote fuel' s ctx language k max_samples d0 = Some (r, st) ->
            count_inv bound st).
  { intros fuel' r st Hv. unfold Voter.vote in Hv. fold bound st0 in Hv.
    destruct (vote_loop fuel' language _ bound st0) as [[r1 st1]|] eqn:Hl; [|done].
    pose proof (count_inv_loop _ _ _ _ _ _ _ Hinv0 Hl) as Hinv1.
    destruct r1 as [[]|e].
    - unfold build_result in Hv.
      destruct (match winner (session st1) with
                | Some w => Some w
                | None => match sorted_desc votes (dict_values (groups (disc st1))) with
                          | top :: _ => Some top
                          | [] => None
                          end
                end); injection Hv as _ <-; exact Hinv1.
    - injection Hv as _ <-. exact Hinv1. }
  split; [|split].
  - intros Hret.
    destruct (vote_loop_terminates language (py_or k (Types.k config)) bound fuel st0 Hret)
      as (r1 & st1 & Hl & Hle).
    { simpl. lia. }
    assert (exists r st, vote fuel s ctx language k max_samples d0 = Some (r, st))
      as (r & st & Hv).
    { unfold Voter.vote. fold bound st0. rewrite Hl.
      destruct r1 as [[]|e]; [|by eexists _, _].
      destruct (build_result st1) as [r st]. by eexists _, _. }
    exists r, st. split; [done|].
    destruct (Hcount _ _ _ Hv) as [Hc Hb].
    assert (Hall : forall n, returned_calls n = n).
    { induction n as [|n IHn]; simpl; [done|]. rewrite Hret, IHn. lia. }
    rewrite Hall in Hc. split; [lia|done].
  - intros fuel' r st Hv. exact (Hcount _ _ _ Hv).
  - intros k' st e He. eexists. split.
    + by apply vote_body_generator_raises with (e := e).
    + done.
Qed.

(** *** The reported margin *)

Lemma insert_desc_map {A} (f : A -> Z) x l :
  insert_desc (fun v => v) (f x) (map f l) = map f (insert_desc f x l).
Proof.
  induction l as [|y l IH]; simpl; [done|].
  destruct (f x <? f y); simpl; [by rewrite IH|done].
Qed.

Lemma sorted_desc_map {A} (f : A -> Z) l :
  sorted_desc (fun v => v) (map f l) = map f (sorted_desc f l).
Proof.
  unfold sorted_desc. induction l as [|x l IH]; simpl; [done|].
  by rewrite IH, insert_desc_map.
Qed.

(** With the groups named in order, [votes_per_group] lists the votes of
    the groups in insertion order. *)
Lemma votes_dict_named gs :
  named_in_order gs ->
  votes_dict (dict_values gs) = map (fun kv => (fst kv, votes (snd kv))) gs.
Proof.
  intros Hn. unfold votes_dict.
  assert (H : forall post pre, gs = pre ++ post ->
            foldl (fun acc g => dict_set (Discriminator.id g) (votes g) acc)
              (map (fun kv => (fst kv, votes (snd kv))) pre) (dict_values post)
            = map (fun kv => (fst kv, votes (snd kv))) (pre ++ post)).
  { induction post as [|kv post IH]; intros pre Hgs; simpl.
    - by rewrite app_nil_r.
    - assert (Hkv : gs !! length pre = Some kv).
      { rewrite Hgs. by rewrite lookup_app_r, Nat.sub_diag. }
      destruct (Hn _ _ Hkv) as [Hk Hid].
      rewrite dict_set_fresh.
      + rewrite Hid, <- Hk.
        replace (pre ++ kv :: post) with ((pre ++ [kv]) ++ post)
          by (by rewrite <- app_assoc).
        rewrite <- (IH (pre ++ [kv])) by (by rewrite <- app_assoc).
        by rewrite map_app.
      + intros kv' Hin E. apply list_elem_of_fmap in Hin as (kv0 & -> & Hin0).
        simpl in E. apply list_elem_of_lookup in Hin0 as [i Hi].
        assert (Hi' : gs !! i = Some kv0).
        { rewrite Hgs. rewrite lookup_app_l; [done|]. by eapply lookup_lt_Some. }
        destruct (Hn _ _ Hi') as [Hk0 _]. rewrite Hk0, Hid in E.
        apply group_name_inj in E. apply lookup_lt_Some in Hi. lia. }
  exact (H gs [] eq_refl).
Qed.

Lemma margin_of_named gs :
  named_in_order gs ->
  margin_of (votes_dict (dict_values gs)) =
    match sorted_desc votes (dict_values gs) with
    | first :: second :: _ => votes first - votes second
    | _ => 0
    end.
Proof.
  intros Hn. unfold margin_of. rewrite (votes_dict_named _ Hn).
  unfold dict_values. rewrite map_map. simpl.
  rewrite <- (map_map snd votes), sorted_desc_map.
  by destruct (sorted_desc votes (map snd gs)) as [|a [|b l]].
Qed.

Lemma insert_desc_length {A} (f : A -> Z) x l :
  length (insert_desc f x l) = S (length l).
Proof.
  induction l as [|y l IH]; simpl; [done|].
  destruct (f x <? f y); simpl; [by rewrite IH|done].
Qed.

Lemma sorted_desc_length {A} (f : A -> Z) l :
  length (sorted_desc f l) = length l.
Proof.
  unfold sorted_desc. induction l as [|x l IH]; simpl; [done|].
  by rewrite insert_desc_length, IH.
Qed.

(** The loop sets [is_complete] exactly when [get_winner] names a
    winner among the current groups. *)
Definition complete_inv (k : Z) (st : VoteState) : Prop :=
  is_complete (session st) = true <-> is_Some (get_winner k (disc st)).

Lemma complete_inv_body language k max_samples st st' :
  complete_inv k st ->
  loop_cond max_samples st = true ->
  vote_body language k st = (Returns tt, st') ->
  complete_inv k st'.
Proof.
  intros Hinv Hcond Hb.
  unfold loop_cond in Hcond. apply andb_true_iff in Hcond as [_ Hnc].
  apply negb_true_iff in Hnc.
  destruct (generator (gen_calls st)) as [response|e] eqn:Hg.
  2:{ rewrite (vote_body_generator_raises language k st e Hg) in Hb.
      by injection Hb as <-. }
  destruct (RedFlag.passed
              (check (new_candidate (uuid4 (length (heap (disc st)))) response)
                 language)) eqn:Hp.
  - destruct (classify compare_semantic (length (heap (disc st)))
                (context (session st))
                {| heap := heap (disc st)
                           ++ [new_candidate (uuid4 (length (heap (disc st)))) response];
                   groups := groups (disc st);
                   _comparison_cache := _comparison_cache (disc st);
                   cmp_calls := cmp_calls (disc st) |}) as [r0 d2] eqn:Hcl.
    destruct (vote_body_classified language k st response r0 d2 Hg Hp Hcl)
      as (st0 & Hb0 & Hd & _ & _ & _ & _ & Hw).
    rewrite Hb in Hb0. injection Hb0 as Hr0 <-.
    destruct r0 as [g'|e]; [|done].
    destruct (Hw eq_refl) as [Hc _].
    unfold complete_inv. rewrite Hc, Hd.
    destruct (get_winner k d2); [done|]. rewrite Hnc.
    split; [done|]. by intros [x Hx].
  - destruct (vote_body_red_flagged language k st response Hg Hp)
      as (st0 & Hb0 & _ & _ & _ & Hc & _ & Hgs & _).
    rewrite Hb in Hb0. injection Hb0 as <-.
    unfold complete_inv in *. rewrite Hc.
    replace (get_winner k (disc st')) with (get_winner k (disc st)); [done|].
    unfold get_winner. by rewrite Hgs.
Qed.

Lemma complete_inv_loop language k max_samples fuel : forall st st',
  complete_inv k st ->
  vote_loop fuel language k max_samples st = Some (Returns tt, st') ->
  complete_inv k st' /\ loop_cond max_samples st' = false.
Proof.
  induction fuel as [|fuel IH]; intros st st' Hinv Hl; simpl in Hl.
  - destruct (loop_cond max_samples st) eqn:Hc; [done|]. by injection Hl as <-.
  - destruct (loop_cond max_samples st) eqn:Hc; [|by injection Hl as <-].
    destruct (vote_body language k st) as [r0 st0] eqn:Hb.
    destruct r0 as [[]|e]; [|done].
    eapply IH; [|exact Hl]. by eapply complete_inv_body.
Qed.

(** X9: in a result with at least two groups the reported margin is the
    one [get_winner] tested, so it reaches [k] exactly when the loop
    ended by the k-margin rule, and a vote that did not end by that rule
    used up [max_samples].  With a single group the reported margin is 0
    whatever the votes. *)
Lemma margin_with_rival fuel s ctx language k max_samples d0 res st :
  vote fuel s ctx language k max_samples d0 = Some (Returns res, st) ->
  let k' := py_or k (Types.k config) in
  let bound := py_or max_samples (Types.max_samples config) in
  ((2 <= length (votes_per_group res))%nat ->
   (k' <= winning_margin res <-> is_complete (session st) = true))
  /\ (is_complete (session st) = false -> bound <= total_samples res)
  /\ (length (votes_per_group res) = 1%nat -> winning_margin res = 0).
Proof.
  intros Hv k' bound. unfold Voter.vote in Hv. fold k' bound in Hv.
  set (st0 := {| disc := reset d0; session := new_session s ctx;
                 gen_calls := 0 |}) in *.
  destruct (vote_loop fuel language k' bound st0) as [[r1 st1]|] eqn:Hl; [|done].
  destruct r1 as [[]|e]; [|done].
  assert (Hi0 : vote_inv language st0).
  { split; simpl; intros; try done;
      match goal with
      | H : _ ∈ [] |- _ => by apply elem_of_nil in H
      | H : [] !! _ = Some _ |- _ => by rewrite lookup_nil in H
      end. }
  assert (Hc0 : complete_inv k' st0).
  { unfold complete_inv. simpl. split; [done|]. by intros [x Hx]. }
  pose proof (inv_named _ _ (vote_inv_loop _ _ _ _ _ _ Hi0 Hl)) as Hn.
  destruct (complete_inv_loop _ _ _ _ _ _ Hc0 Hl) as [Hc Hexit].
  injection Hv as Hv. unfold build_result in Hv.
  destruct (match winner (session st1) with
            | Some w => Some w
            | None => match sorted_desc votes (dict_values (groups (disc st1))) with
                      | top :: _ => Some top
                      | [] => None
                      end
            end); [|done].
  injection Hv as <- <-. simpl.
  rewrite (margin_of_named _ Hn), (votes_dict_named _ Hn), length_map.
  pose proof (sorted_desc_length votes (dict_values (groups (disc st1)))) as Hlen.
  unfold dict_values in Hlen at 2. rewrite length_map in Hlen.
  unfold complete_inv, get_winner in Hc.
  split; [|split].
  - intros H2.
    destruct (sorted_desc votes (dict_values (groups (disc st1))))
      as [|a [|b l]]; simpl in Hlen; [lia|lia|].
    rewrite Hc. destruct (Z.geb_spec (votes a - votes b) k') as [Hge|Hlt].
    + split; [done|lia].
    + split; [lia|]. by intros [x Hx].
  - intros Hnc. unfold loop_cond in Hexit. rewrite Hnc in Hexit.
    simpl in Hexit. rewrite andb_true_r in Hexit.
    apply Z.ltb_ge in Hexit. exact Hexit.
  - intros H1.
    destruct (sorted_desc votes (dict_values (groups (disc st1))))
      as [|a [|b l]]; simpl in Hlen; [done|done|lia].
Qed.

(** *** Unanimous candidates *)

Lemma vote_loop_step fuel language k max_samples st st' :
  loop_cond max_samples st = true ->
  vote_body language k st = (Returns tt, st') ->
  vote_loop (S fuel) language k max_samples st
  = vote_loop fuel language k max_samples st'.
Proof. intros Hc Hb. simpl. by rewrite Hc, Hb. Qed.

Lemma vote_loop_done fuel language k max_samples st :
  loop_cond max_samples st = false ->
  vote_loop fuel language k max_samples st = Some (Returns tt, st).
Proof. intros Hc. destruct fuel; simpl; by rewrite Hc. Qed.

(** The first candidate classified after a reset founds [group_0]. *)
Lemma classify_founds_group_0 c ctx d :
  groups d = [] ->
  classify compare_semantic c ctx d =
    (Returns {| Discriminator.id := "group_0"; representative := c; members := [c] |},
     {| heap := alter (set_group_id (Some "group_0")) c (heap d);
        groups := [("group_0",
                    {| Discriminator.id := "group_0"; representative := c;
                       members := [c] |})];
        _comparison_cache := _comparison_cache d;
        cmp_calls := cmp_calls d |}).
Proof.
  intros Hg. unfold Discriminator.classify, Discriminator.find_group.
  rewrite Hg. simpl. rewrite Hg. reflexivity.
Qed.

(** A candidate the comparator finds equivalent to the representative of
    the only group joins it. *)
Lemma classify_joins_only_group c ctx d key g :
  groups d = [(key, g)] ->
  _comparison_cache d = ∅ ->
  (forall n a b x, compare_semantic n a b x = Returns true) ->
  exists d',
    classify compare_semantic c ctx d = (Returns (add c g), d')
    /\ heap d' = alter (set_group_id (Some (Discriminator.id g))) c (heap d)
    /\ groups d' = [(key, add c g)].
Proof.
  intros Hg Hcache Hyes.
  unfold Discriminator.classify, Discriminator.find_group.
  rewrite Hg. simpl. unfold Discriminator.compare.
  rewrite Hcache, lookup_empty, Hyes. simpl. rewrite Hg. simpl.
  eexists. split; [reflexivity|]. done.
Qed.

Lemma get_winner_single k key g d :
  groups d = [(key, g)] ->
  get_winner k d = if votes g - 0 >=? k then Some g else None.
Proof. intros Hg. unfold get_winner. rewrite Hg. reflexivity. Qed.

(** C4 (amended): with a comparator that answers yes to every
    comparison, a generator that always returns candidates the filter
    accepts, [k = 2] and room for two samples, [vote] returns after two
    candidates, with the single group [group_0] holding both of them (two
    votes, no rival) and its representative, the first candidate, as
    winner. *)
Theorem unanimous_vote_ends_after_two fuel s ctx language max_samples d0 :
  (forall n a b x, compare_semantic n a b x = Returns true) ->
  (forall n, exists response,
      generator n = Returns response
      /\ forall cid, RedFlag.passed (check (new_candidate cid response) language) = true) ->
  2 <= py_or max_samples (Types.max_samples config) ->
  (2 <= fuel)%nat ->
  let h := length (heap d0) in
  exists res st,
    vote fuel s ctx language (Some 2) max_samples d0 = Some (Returns res, st)
    /\ total_samples res = 2
    /\ gen_calls st = 2%nat
    /\ Types.groups res = [("group_0", [h; S h])]
    /\ Types.votes_per_group res = [("group_0", 2)]
    /\ Types.winner res = h
    /\ is_complete (session st) = true.
Proof.
  intros Hyes Hgen Hbound Hfuel h.
  destruct fuel as [|[|fuel]]; [lia|lia|].
  unfold Voter.vote.
  set (bound := py_or max_samples (Types.max_samples config)) in *.
  replace (py_or (Some 2) (Types.k config)) with 2 by reflexivity.
  set (st0 := {| disc := reset d0; session := new_session s ctx;
                 gen_calls := 0 |}).
  (* first pass *)
  destruct (Hgen 0%nat) as (r0 & Hg0 & Hp0).
  pose proof (classify_founds_group_0 (length (heap (disc st0)))
                (context (session st0))
                {| heap := heap (disc st0)
                           ++ [new_candidate (uuid4 (length (heap (disc st0)))) r0];
                   groups := groups (disc st0);
                   _comparison_cache := _comparison_cache (disc st0);
                   cmp_calls := cmp_calls (disc st0) |} eq_refl) as Hcl1.
  destruct (vote_body_classified language 2 st0 r0 _ _ Hg0 (Hp0 _) Hcl1)
    as (st1 & Hb1 & Hd1 & Hs1 & Hv1 & Hi1 & Hgc1 & Hw1).
  destruct (Hw1 eq_refl) as [Hc1 _]. clear Hw1.
  change (get_winner 2 _) with (@None SemanticGroup) in Hc1.
  assert (Hcond0 : loop_cond bound st0 = true).
  { unfold loop_cond. simpl. apply andb_true_iff. split; [|done].
    apply Z.ltb_lt. lia. }
  rewrite (vote_loop_step _ _ _ _ _ _ Hcond0 Hb1).
  (* second pass *)
  assert (Hcond1 : loop_cond bound st1 = true).
  { unfold loop_cond. rewrite Hs1, Hc1. simpl. apply andb_true_iff.
    split; [|done]. apply Z.ltb_lt. lia. }
  destruct (Hgen (gen_calls st1)) as (r1 & Hg1 & Hp1).
  assert (Hlen1 : length (heap (disc st1)) = S h).
  { rewrite Hd1. simpl. rewrite length_alter, length_app. simpl. unfold h. lia. }
  destruct (classify_joins_only_group (length (heap (disc st1)))
              (context (session st1))
              {| heap := heap (disc st1)
                         ++ [new_candidate (uuid4 (length (heap (disc st1)))) r1];
                 groups := groups (disc st1);
                 _comparison_cache := _comparison_cache (disc st1);
                 cmp_calls := cmp_calls (disc st1) |}
              "group_0"
              {| Discriminator.id := "group_0"; representative := h;
                 members := [h] |})
    as (d2 & Hcl2 & _ & Hgs2); [by rewrite Hd1|by rewrite Hd1|exact Hyes|].
  destruct (vote_body_classified language 2 st1 r1 _ _ Hg1 (Hp1 _) Hcl2)
    as (st2 & Hb2 & Hd2 & Hs2 & Hv2 & Hi2 & Hgc2 & Hw2).
  destruct (Hw2 eq_refl) as [Hc2 Hwin2]. clear Hw2.
  rewrite (get_winner_single 2 _ _ _ Hgs2) in Hc2, Hwin2. simpl in Hc2, Hwin2.
  rewrite (vote_loop_step _ _ _ _ _ _ Hcond1 Hb2).
  rewrite vote_loop_done by (unfold loop_cond; rewrite Hc2; apply andb_false_r).
  unfold build_result. rewrite Hwin2, Hd2, Hgs2, Hs2, Hs1. simpl.
  eexists _, _. split; [reflexivity|]. simpl.
  rewrite Hlen1, Hc2, Hgc2, Hgc1. done.
Qed.

End WithEnv.

End VoterFacts.

(** ** Concrete runs of the voter *)

Module VoterRuns.
Import Types Discriminator Voter VoterFacts.

Definition ts_response : LLMResponse :=
  {| content := "function f() { return 1; }"; tokens_input := 10;
     tokens_output := 20; response_model := "m"; stop_reason := "end_turn" |}.

Definition empty_response : LLMResponse :=
  {| content := ""; tokens_input := 10; tokens_output := 0;
     response_model := "m"; stop_reason := "end_turn" |}.

(** A generator that always answers with the same TypeScript function. *)
Definition steady_generator : nat -> outcome LLMResponse :=
  fun _ => Returns ts_response.

(** A generator whose first invocation raises, whose second answers with
    an empty text, and which then answers as [steady_generator]. *)
Definition mixed_generator : nat -> outcome LLMResponse :=
  fun n => match n with
           | O => Raises (OtherException "timeout")
           | S O => Returns empty_response
           | _ => Returns ts_response
           end.

Definition says_yes : nat -> string -> string -> string -> outcome bool :=
  fun _ _ _ _ => Returns true.

Definition ids : nat -> string := fun n => "c" +:+ PyStr.str_of_int (Z.of_nat n).

(** The runs below are in TypeScript, which never calls [ast.parse]. *)
Definition unused_parser : string -> RedFlag.parse_result :=
  fun _ => RedFlag.Parsed.

Definition a_step : Step :=
  {| step_id := "step-1"; step_type := GENERATE; description := "f";
     signature := "function f()"; step_context := ""; action := None;
     specification := None |}.

Definition fresh_discriminator : DiscState :=
  {| heap := []; groups := []; _comparison_cache := ∅; cmp_calls := 0 |}.

Definition mixed_run : option (outcome VoteResult * VoteState) :=
  vote mixed_generator says_yes ids unused_parser default_config
    10 a_step "ctx" TYPESCRIPT (Some 2) (Some 10) fresh_discriminator.

Definition steady_run (k max_samples : Z) : option (outcome VoteResult * VoteState) :=
  vote steady_generator says_yes ids unused_parser default_config
    20 a_step "ctx" TYPESCRIPT (Some k) (Some max_samples) fresh_discriminator.

Lemma vote_counts_returned_samples_witness :
  exists res st,
    mixed_run = Some (Returns res, st)
    /\ total_samples res = 3
    /\ gen_calls st = 4%nat
    /\ invalid_samples (session st) = [0%nat]
    /\ total_samples res = Z.of_nat (returned_calls mixed_generator (gen_calls st)).
Proof.
  destruct mixed_run as [[[res|e] st]|] eqn:E;
    try (exfalso; vm_compute in E; discriminate E).
  exists res, st. split; [reflexivity|].
  assert (Hres : total_samples res = 3 /\ gen_calls st = 4%nat
                 /\ invalid_samples (session st) = [0%nat]).
  { vm_compute in E. injection E as <- <-. vm_compute. done. }
  destruct Hres as (H1 & H2 & H3). repeat (split; [assumption|]).
  exact (proj1 (vote_counts_returned_samples mixed_generator says_yes ids
                  unused_parser default_config 10 a_step "ctx" TYPESCRIPT
                  (Some 2) (Some 10) fresh_discriminator res st E)).
Defined.

Lemma vote_terminates_within_max_samples_witness :
  (Z.to_nat 5 <= 20)%nat
  /\ exists r st,
       steady_run 7 5 = Some (r, st)
       /\ Z.of_nat (gen_calls st) <= Z.max 0 5
       /\ gen_calls st = length (samples (session st)).
Proof.
  split; [vm_compute; lia|].
  refine (proj1 (vote_terminates_within_max_samples steady_generator says_yes ids
                   unused_parser default_config 20 a_step "ctx" TYPESCRIPT
                   (Some 7) (Some 5) fresh_discriminator _) _).
  - vm_compute. lia.
  - intros n. reflexivity.
Defined.

(** C4 (as stated): with every comparison answered yes and [k = 2] the
    vote ends after 3 candidates with margin 3.  It ends after 2: the
    single group wins as soon as it has [k] votes. *)
Lemma unanimous_vote_k2_stops_at_two :
  exists res st,
    steady_run 2 5 = Some (Returns res, st)
    /\ total_samples res = 2
    /\ votes_per_group res = [("group_0", 2)]
    /\ total_samples res <> 3
    /\ winning_margin res <> 3.
Proof.
  destruct (steady_run 2 5) as [[[res|e] st]|] eqn:E;
    try (exfalso; vm_compute in E; discriminate E).
  exists res, st. split; [reflexivity|].
  vm_compute in E. injection E as <- <-. vm_compute.
  repeat split; discriminate.
Qed.

Lemma unanimous_vote_ends_after_two_witness :
  (forall n a b x, says_yes n a b x = Returns true)
  /\ (2 <= py_or (Some 5) (Types.max_samples default_config))
  /\ (2 <= 20)%nat
  /\ exists res st,
       steady_run 2 5 = Some (Returns res, st)
       /\ total_samples res = 2
       /\ gen_calls st = 2%nat
       /\ Types.groups res = [("group_0", [0%nat; 1%nat])]
       /\ Types.votes_per_group res = [("group_0", 2)]
       /\ Types.winner res = 0%nat
       /\ is_complete (session st) = true.
Proof.
  assert (Hyes : forall n a b x, says_yes n a b x = Returns true)
    by reflexivity.
  assert (Hbound : 2 <= py_or (Some 5) (Types.max_samples default_config))
    by (vm_compute; discriminate).
  assert (Hfuel : (2 <= 20)%nat) by lia.
  split; [exact Hyes|]. split; [exact Hbound|]. split; [exact Hfuel|].
  apply (unanimous_vote_ends_after_two steady_generator says_yes ids
           unused_parser default_config 20 a_step "ctx" TYPESCRIPT (Some 5)
           fresh_discriminator Hyes); [|exact Hbound|exact Hfuel].
  intros n. exists ts_response. split; [reflexivity|].
  intros cid. reflexivity.
Defined.

(** C1 (the code at a failing input): [k = 3], [max_samples = 10], every
    comparison answered yes.  The vote ends by the k-margin rule after
    three samples ([get_winner] counts an absent runner-up as 0 votes),
    and the result reports a winning margin of 0: neither
    [winning_margin >= k] nor [total_samples = max_samples] holds. *)
Theorem sole_group_win_reports_zero_margin :
  exists res st,
    steady_run 3 10 = Some (Returns res, st)
    /\ is_complete (session st) = true
    /\ get_winner 3 (disc st) = winner (session st)
    /\ votes_per_group res = [("group_0", 3)]
    /\ total_samples res = 3
    /\ winning_margin res = 0
    /\ ~ (winning_margin res >= 3 \/ total_samples res = 10).
Proof.
  destruct (steady_run 3 10) as [[[res|e] st]|] eqn:E;
    try (exfalso; vm_compute in E; discriminate E).
  exists res, st. split; [reflexivity|].
  vm_compute in E. injection E as <- <-.
  split; [reflexivity|]. split; [vm_compute; reflexivity|].
  split; [reflexivity|]. split; [reflexivity|]. split; [reflexivity|].
  simpl. intros [H|H]; [|discriminate H]. by apply H.
Qed.

End VoterRuns.

(** ** Concatenation and prefixes of texts *)

Module StrFacts.

Lemma app_cons c (a b : string) : String c a +:+ b = String c (a +:+ b).
Proof. reflexivity. Qed.

Lemma app_nil (b : string) : EmptyString +:+ b = b.
Proof. reflexivity. Qed.

Lemma strip_prefix_split p : forall s rest,
  PyStr.strip_prefix p s = Some rest -> s = p +:+ rest.
Proof.
  induction p as [|a p IH]; intros s rest H; simpl in H.
  - by injection H as <-.
  - destruct s as [|b s]; [done|].
    destruct (Ascii.eqb_spec a b) as [->|_]; [|done].
    rewrite app_cons. f_equal. by apply IH.
Qed.

Lemma append_assoc (a b c : string) : (a +:+ b) +:+ c = a +:+ (b +:+ c).
Proof. induction a as [|x a IH]; [done|]. by rewrite !app_cons, IH. Qed.

Lemma append_nil (a : string) : a +:+ EmptyString = a.
Proof. induction a as [|x a IH]; [done|]. by rewrite app_cons, IH. Qed.

End StrFacts.

(** ** The code the syntax check looks at *)

Module ExtractFacts.
Import Types RedFlag StrFacts.

Definition newline : string := PyStr.chr 10.

(** A text with no backtick in it. *)
Fixpoint no_backtick (s : string) : bool :=
  match s with
  | EmptyString => true
  | String c s' => negb (Ascii.eqb c "`") && no_backtick s'
  end.

Lemma no_backtick_app a b :
  no_backtick (a +:+ b) = no_backtick a && no_backtick b.
Proof.
  induction a as [|c a IH]; [done|]. rewrite app_cons. simpl. rewrite IH.
  by rewrite andb_assoc.
Qed.

Lemma strip_prefix_fence_miss c s :
  Ascii.eqb c "`" = false -> PyStr.strip_prefix fence (String c s) = None.
Proof.
  intros H. unfold fence.
  change (PyStr.strip_prefix "```" (String c s))
    with (if Ascii.eqb "`" c then PyStr.strip_prefix "``" s else None).
  rewrite Ascii.eqb_sym. by rewrite H.
Qed.

Lemma after_first_fence pre rest :
  no_backtick pre = true ->
  PyStr.after_first fence (pre +:+ fence +:+ rest) = Some rest.
Proof.
  induction pre as [|c pre IH]; intros H.
  - rewrite app_nil. unfold fence. rewrite !app_cons, app_nil.
    destruct rest; simpl; by rewrite ?Ascii.eqb_refl.
  - simpl in H. apply andb_true_iff in H as [Hc Hp]. apply negb_true_iff in Hc.
    rewrite app_cons.
    change (PyStr.after_first fence (String c ?s))
      with (match PyStr.strip_prefix fence (String c s) with
            | Some rest => Some rest
            | None => PyStr.after_first fence s
            end).
    rewrite strip_prefix_fence_miss by done. by apply IH.
Qed.

Lemma before_first_fence body post :
  no_backtick body = true ->
  PyStr.before_first fence (body +:+ fence +:+ post) = Some body.
Proof.
  induction body as [|c body IH]; intros H.
  - rewrite app_nil. unfold fence. rewrite !app_cons, app_nil.
    destruct post; simpl; by rewrite ?Ascii.eqb_refl.
  - simpl in H. apply andb_true_iff in H as [Hc Hp]. apply negb_true_iff in Hc.
    rewrite app_cons.
    change (PyStr.before_first fence (String c ?s))
      with (match PyStr.strip_prefix fence (String c s) with
            | Some _ => Some EmptyString
            | None =>
                match PyStr.before_first fence s with
                | Some b => Some (String c b)
                | None => None
                end
            end).
    rewrite strip_prefix_fence_miss by done. by rewrite IH.
Qed.

Lemma before_first_no_fence s :
  no_backtick s = true -> PyStr.before_first fence s = None.
Proof.
  induction s as [|c s IH]; intros H; [done|].
  simpl in H. apply andb_true_iff in H as [Hc Hp]. apply negb_true_iff in Hc.
  change (PyStr.before_first fence (String c s))
    with (match PyStr.strip_prefix fence (String c s) with
          | Some _ => Some EmptyString
          | None =>
              match PyStr.before_first fence s with
              | Some b => Some (String c b)
              | None => None
              end
          end).
  rewrite strip_prefix_fence_miss by done. by rewrite IH.
Qed.

Lemma drop_tag_suffix tags : forall s,
  exists p, s = p +:+ drop_tag tags s.
Proof.
  induction tags as [|t tags IH]; intros s; simpl.
  - by exists EmptyString.
  - destruct (PyStr.strip_prefix t s) as [rest|] eqn:E; [|apply IH].
    exists t. by apply strip_prefix_split.
Qed.

Lemma drop_newline_suffix s : exists p, s = p +:+ drop_newline s.
Proof.
  destruct s as [|c s]; simpl; [by exists EmptyString|].
  destruct (Ascii.eqb c (ascii_of_nat 10)); [|by exists EmptyString].
  by exists (String c EmptyString).
Qed.

Lemma drop_tag_tagged tag body :
  In tag (EmptyString :: fence_tags) ->
  drop_newline (drop_tag fence_tags (tag +:+ newline +:+ body)) = body.
Proof.
  unfold fence_tags, newline, PyStr.chr. simpl.
  intros [<-|[<-|[<-|[<-|[<-|[<-|[]]]]]]]; rewrite ?app_cons, ?app_nil;
    reflexivity.
Qed.

(** X19: When a text holds a fenced block, [_extract_code] returns that
    block, trimmed, and drops the opening fence with its language tag,
    the closing fence, and everything written before and after the
    block; when a fence is opened and never closed, the whole text is
    returned, fence included. *)
Theorem extract_code_takes_first_block pre tag body post :
  no_backtick pre = true ->
  In tag (EmptyString :: fence_tags) ->
  (no_backtick body = true ->
   _extract_code (pre +:+ fence +:+ tag +:+ newline +:+ body +:+ fence +:+ post)
   = PyStr.strip body)
  /\ (no_backtick post = true ->
      _extract_code (pre +:+ fence +:+ post)
      = PyStr.strip (pre +:+ fence +:+ post)).
Proof.
  intros Hpre Htag. split.
  - intros Hbody. unfold _extract_code, first_fenced_block.
    rewrite after_first_fence by done.
    rewrite drop_tag_tagged by done.
    by rewrite before_first_fence.
  - intros Hpost. unfold _extract_code, first_fenced_block.
    rewrite after_first_fence by done.
    destruct (drop_tag_suffix fence_tags post) as [p1 H1].
    destruct (drop_newline_suffix (drop_tag fence_tags post)) as [p2 H2].
    assert (Hfree : no_backtick (drop_newline (drop_tag fence_tags post)) = true).
    { rewrite H1, H2, !no_backtick_app in Hpost.
      by repeat (apply andb_true_iff in Hpost as [? Hpost]). }
    by rewrite before_first_no_fence.
Qed.

End ExtractFacts.

(** ** The pattern matcher *)

Module ReFacts.
Import Re.

(** The language of a pattern. *)
Inductive matches : regex -> string -> Prop :=
| m_eps : matches Eps EmptyString
| m_chr p c : p c = true -> matches (Chr p) (String c EmptyString)
| m_cat r1 r2 s1 s2 :
    matches r1 s1 -> matches r2 s2 -> matches (Cat r1 r2) (s1 +:+ s2)
| m_alt_l r1 r2 s : matches r1 s -> matches (Alt r1 r2) s
| m_alt_r r1 r2 s : matches r2 s -> matches (Alt r1 r2) s
| m_star_nil r : matches (Star r) EmptyString
| m_star_cons r s1 s2 :
    matches r s1 -> matches (Star r) s2 -> matches (Star r) (s1 +:+ s2).

(** [+:+] is kept folded by [simpl]; these steps unfold it on a
    constructor. *)
Ltac sapp :=
  repeat match goal with
         | |- context [String ?c ?a +:+ ?b] =>
             change (String c a +:+ b) with (String c (a +:+ b))
         | |- context [EmptyString +:+ ?b] =>
             change (EmptyString +:+ b) with b
         | H : context [String ?c ?a +:+ ?b] |- _ =>
             change (String c a +:+ b) with (String c (a +:+ b)) in H
         | H : context [EmptyString +:+ ?b] |- _ =>
             change (EmptyString +:+ b) with b in H
         end.

Lemma append_nil_inv (s1 s2 : string) :
  s1 +:+ s2 = EmptyString -> s1 = EmptyString /\ s2 = EmptyString.
Proof. destruct s1; simpl; [done|discriminate]. Qed.


Lemma nullable_spec r : nullable r = true <-> matches r EmptyString.
Proof.
  induction r as [| |p|r1 IH1 r2 IH2|r1 IH1 r2 IH2|r IH]; simpl.
  - split; [done|]. inversion 1.
  - split; [constructor|done].
  - split; [done|]. inversion 1.
  - rewrite andb_true_iff, IH1, IH2. split.
    + intros [H1 H2]. change EmptyString with (EmptyString +:+ EmptyString).
      by constructor.
    + inversion 1 as [| |? ? s1 s2 H1 H2 Hr Hs| | | |]; subst.
      apply append_nil_inv in Hs as [-> ->]. done.
  - rewrite orb_true_iff, IH1, IH2. split.
    + intros [H|H]; [by apply m_alt_l|by apply m_alt_r].
    + inversion 1; subst; [by left|by right].
  - split; [constructor|done].
Qed.

Lemma no_match_fail s : ~ matches Fail s.
Proof. inversion 1. Qed.

Lemma is_fail_spec r : is_fail r = true -> r = Fail.
Proof. by destruct r. Qed.

Lemma cat_spec r1 r2 s : matches (cat r1 r2) s <-> matches (Cat r1 r2) s.
Proof.
  unfold cat. destruct (is_fail r1) eqn:E1; simpl.
  - apply is_fail_spec in E1 as ->. split; [by intros H%no_match_fail|].
    inversion 1; subst. by exfalso; eapply no_match_fail.
  - destruct (is_fail r2) eqn:E2; [|done].
    apply is_fail_spec in E2 as ->. split; [by intros H%no_match_fail|].
    inversion 1; subst. by exfalso; eapply no_match_fail.
Qed.

Lemma alt_spec r1 r2 s : matches (alt r1 r2) s <-> matches (Alt r1 r2) s.
Proof.
  unfold alt. destruct (is_fail r1) eqn:E1.
  - apply is_fail_spec in E1 as ->. split; [by apply m_alt_r|].
    inversion 1; subst; [by exfalso; eapply no_match_fail|done].
  - destruct (is_fail r2) eqn:E2; [|done].
    apply is_fail_spec in E2 as ->. split; [by apply m_alt_l|].
    inversion 1; subst; [done|by exfalso; eapply no_match_fail].
Qed.

(** A non-empty word of a starred pattern starts with a non-empty word
    of the pattern. *)
Lemma star_cons_inv r c s :
  matches (Star r) (String c s) ->
  exists s1 s2, s = s1 +:+ s2 /\ matches r (String c s1) /\ matches (Star r) s2.
Proof.
  remember (Star r) as r' eqn:Hr. remember (String c s) as w eqn:Hw.
  intros H. revert r c s Hr Hw.
  induction H as [| | | | | |r0 s1 s2 H1 _ H2 IH2]; intros r' c' s' Hr Hw;
    try discriminate.
  injection Hr as ->.
  destruct s1 as [|c1 s1]; sapp.
  - by apply IH2.
  - injection Hw as -> <-. by exists s1, s2.
Qed.

Lemma deriv_spec c r : forall s, matches (deriv c r) s <-> matches r (String c s).
Proof.
  induction r as [| |p|r1 IH1 r2 IH2|r1 IH1 r2 IH2|r IH]; intros s; simpl.
  - split; inversion 1.
  - split; inversion 1.
  - destruct (p c) eqn:Hp; split.
    + inversion 1; subst. by constructor.
    + inversion 1; subst. constructor.
    + inversion 1.
    + inversion 1; subst. congruence.
  - assert (Hcat : matches (cat (deriv c r1) r2) s <->
                   exists s1 s2, s = s1 +:+ s2 /\ matches r1 (String c s1)
                                 /\ matches r2 s2).
    { rewrite cat_spec. split.
      - inversion 1 as [| |? ? s1 s2 H1 H2| | | |]; subst.
        exists s1, s2. split; [done|]. split; [by apply IH1|done].
      - intros (s1 & s2 & -> & H1 & H2). constructor; [by apply IH1|done]. }
    assert (Hsplit : matches (Cat r1 r2) (String c s) <->
                     (exists s1 s2, s = s1 +:+ s2 /\ matches r1 (String c s1)
                                    /\ matches r2 s2)
                     \/ (matches r1 EmptyString /\ matches r2 (String c s))).
    { split.
      - inversion 1 as [| |? ? s1 s2 H1 H2 Hr Hs| | | |]; subst.
        destruct s1 as [|c1 s1]; sapp.
        + right. subst s2. done.
        + injection Hs as -> <-. left. by exists s1, s2.
      - intros [(s1 & s2 & -> & H1 & H2)|[H1 H2]].
        + change (String c (s1 +:+ s2)) with (String c s1 +:+ s2). by constructor.
        + change (String c s) with (EmptyString +:+ String c s). by constructor. }
    rewrite Hsplit. destruct (nullable r1) eqn:Hn.
    + rewrite alt_spec. split.
      * inversion 1; subst; [left; by apply Hcat|].
        right. split; [by apply nullable_spec|by apply IH2].
      * intros [H|[_ H]]; [apply m_alt_l; by apply Hcat|].
        apply m_alt_r. by apply IH2.
    + rewrite Hcat. split; [by left|]. intros [H|[H _]]; [done|].
      apply nullable_spec in H. congruence.
  - rewrite alt_spec. split.
    + inversion 1; subst; [apply m_alt_l; by apply IH1|apply m_alt_r; by apply IH2].
    + inversion 1; subst; [apply m_alt_l; by apply IH1|apply m_alt_r; by apply IH2].
  - rewrite cat_spec. split.
    + inversion 1 as [| |? ? s1 s2 H1 H2| | | |]; subst.
      change (String c (s1 +:+ s2)) with (String c s1 +:+ s2).
      constructor; [by apply IH|done].
    + intros H. apply star_cons_inv in H as (s1 & s2 & -> & H1 & H2).
      constructor; [by apply IH|done].
Qed.

(** [re_match] answers whether some prefix of the text is a word of the
    pattern, which is what [re.match] finds. *)
Theorem re_match_spec s : forall r,
  re_match r s = true <->
  exists prefix rest, s = prefix +:+ rest /\ matches r prefix.
Proof.
  induction s as [|c s IH]; intros r; simpl.
  - rewrite orb_false_r, nullable_spec. split.
    + intros H. by exists EmptyString, EmptyString.
    + intros (p & q & Hs & H). symmetry in Hs.
      apply append_nil_inv in Hs as [-> _]. done.
  - rewrite orb_true_iff, nullable_spec, IH. split.
    + intros [H|(p & q & -> & H)].
      * by exists EmptyString, (String c s).
      * exists (String c p), q. split; [done|]. by apply deriv_spec.
    + intros ([|c' p] & q & Hs & H); [by left|].
      sapp. injection Hs as <- ->. right.
      exists p, q. split; [done|]. by apply deriv_spec.
Qed.

End ReFacts.

(** ** The red-flag filter *)

Module RedFlagFacts.
Import Types RedFlag StrFacts ExtractFacts.

(** *** What the specification says, written without the filter's tables *)

(** The three quote characters: double quote, single quote, backtick. *)
Definition quote_mark (c : ascii) : bool :=
  Ascii.eqb c (ascii_of_nat 34) || Ascii.eqb c "'" || Ascii.eqb c "`".

(** The closing bracket an opening bracket calls for. *)
Definition closer_of (c : ascii) : option ascii :=
  if Ascii.eqb c "{" then Some "}"%char
  else if Ascii.eqb c "[" then Some "]"%char
  else if Ascii.eqb c "(" then Some ")"%char
  else None.

Definition closes (c : ascii) : bool :=
  Ascii.eqb c "}" || Ascii.eqb c "]" || Ascii.eqb c ")".

(** The characters of a text that stand outside its quoted strings; a
    string runs from a quote character to the next occurrence of the
    same character.  [quote] is the quote of the string the text starts
    in, if it starts in one. *)
Fixpoint outside_strings (code : string) (quote : option ascii) : list ascii :=
  match code with
  | EmptyString => []
  | String c rest =>
      match quote with
      | None => if quote_mark c then outside_strings rest (Some c)
                else c :: outside_strings rest None
      | Some q => if Ascii.eqb c q then outside_strings rest None
                  else outside_strings rest (Some q)
      end
  end.

(** Bracket balance of a sequence of characters; [expected] holds the
    closing brackets still due, innermost first. *)
Fixpoint brackets_balanced (l : list ascii) (expected : list ascii) : bool :=
  match l with
  | [] => match expected with [] => true | _ => false end
  | c :: l' =>
      match closer_of c with
      | Some closing => brackets_balanced l' (closing :: expected)
      | None =>
          if closes c then
            match expected with
            | top :: expected' => Ascii.eqb top c && brackets_balanced l' expected'
            | [] => false
            end
          else brackets_balanced l' expected
      end
  end.

(** Two characters that are the same up to the case of an ASCII
    letter. *)
Definition same_letter (a b : ascii) : bool :=
  let x := N_of_ascii a in
  let y := N_of_ascii b in
  ((x =? y)
   || (65 <=? x) && (x <=? 90) && (y =? x + 32)
   || (65 <=? y) && (y <=? 90) && (x =? y + 32))%N.

(** [text] is the word [word], in any mix of cases. *)
Fixpoint spelled (word text : string) : bool :=
  match word, text with
  | EmptyString, EmptyString => true
  | String a word', String b text' => same_letter a b && spelled word' text'
  | _, _ => false
  end.

(** White space: tab, line feed, vertical tab, form feed, carriage
    return, the four separators 28 to 31, space, next line and no-break
    space. *)
Definition blank (c : ascii) : bool :=
  existsb (N.eqb (N_of_ascii c)) [9; 10; 11; 12; 13; 28; 29; 30; 31; 32; 133; 160]%N.

Fixpoint all_blank (s : string) : bool :=
  match s with
  | EmptyString => true
  | String c s' => blank c && all_blank s'
  end.

(** One or more white-space characters. *)
Definition blanks (s : string) : Prop := s <> EmptyString /\ all_blank s = true.

Definition starts_blank (s : string) : bool :=
  match s with
  | String c _ => blank c
  | EmptyString => false
  end.

Fixpoint ends_blank (s : string) : bool :=
  match s with
  | EmptyString => false
  | String c EmptyString => blank c
  | String _ s' => ends_blank s'
  end.

(** [text] is [s] without the white space at its two ends. *)
Definition trimmed (s text : string) : Prop :=
  exists lead trail,
    s = lead +:+ text +:+ trail
    /\ all_blank lead = true /\ all_blank trail = true
    /\ starts_blank text = false /\ ends_blank text = false.

(** A text that begins with one of the four prose openers:
    "Here" / "Here's" / "Heres" and an article, "I'll" / "Ill",
    "This function" / "This code" / "This implementation", and
    "The following", in any mix of cases and with any white space
    between the words. *)
Inductive prose_opener : string -> Prop :=
| opener_here here q s gap1 article gap2 rest :
    spelled "Here" here = true ->
    q = EmptyString \/ q = "'" ->
    s = EmptyString \/ spelled "s" s = true ->
    blanks gap1 ->
    spelled "the" article = true \/ spelled "a" article = true
      \/ spelled "an" article = true ->
    blanks gap2 ->
    prose_opener (here +:+ q +:+ s +:+ gap1 +:+ article +:+ gap2 +:+ rest)
| opener_i_will i q ll gap rest :
    spelled "I" i = true ->
    q = EmptyString \/ q = "'" ->
    spelled "ll" ll = true ->
    blanks gap ->
    prose_opener (i +:+ q +:+ ll +:+ gap +:+ rest)
| opener_this this gap noun rest :
    spelled "This" this = true ->
    blanks gap ->
    spelled "function" noun = true \/ spelled "code" noun = true
      \/ spelled "implementation" noun = true ->
    prose_opener (this +:+ gap +:+ noun +:+ rest)
| opener_the the gap word rest :
    spelled "The" the = true ->
    blanks gap ->
    spelled "following" word = true ->
    prose_opener (the +:+ gap +:+ word +:+ rest).

(** The checks in the order of the specification: each has a name, its
    configuration flag and its verdict; the enabled ones run in order
    and the first failure ends the run with its reason. *)
Fixpoint run_in_order (cs : list (string * bool * (bool * option string)))
    (ran : list (string * bool)) : RedFlagResult :=
  match cs with
  | [] => {| passed := true; reason := None; checks := ran |}
  | (name, enabled, (ok, why)) :: cs' =>
      if enabled then
        if ok then run_in_order cs' (ran ++ [(name, true)])
        else {| passed := false; reason := why; checks := ran ++ [(name, false)] |}
      else run_in_order cs' ran
  end.

Definition ts_passes (r : option (bool * option string) + list ascii) : bool :=
  match r with
  | inl (Some (ok, _)) => ok
  | inl None => true
  | inr [] => true
  | inr (_ :: _) => false
  end.

(** *** The bracket check *)

Lemma is_quote_mark c : is_quote c = quote_mark c.
Proof. reflexivity. Qed.

Lemma brackets_get_closer c : brackets_get c = closer_of c.
Proof. destruct c as [[] [] [] [] [] [] [] []]; reflexivity. Qed.

Lemma is_closing_closes c : is_closing c = closes c.
Proof. destruct c as [[] [] [] [] [] [] [] []]; reflexivity. Qed.

Lemma ts_loop_refines code : forall stack,
  ts_passes (ts_loop code stack false None)
  = brackets_balanced (outside_strings code None) (rev stack)
  /\ forall q,
       ts_passes (ts_loop code stack true (Some q))
       = brackets_balanced (outside_strings code (Some q)) (rev stack).
Proof.
  induction code as [|c code IH]; intros stack.
  - simpl. split; [|intros q]; destruct stack as [|x stack] using rev_ind;
      try done; rewrite rev_unit; by destruct (stack ++ [x]) eqn:E;
      [apply app_eq_nil in E as [_ ?]|].
  - split.
    + simpl. rewrite is_quote_mark, brackets_get_closer, is_closing_closes.
      destruct (quote_mark c) eqn:Hq; simpl.
      * apply IH.
      * destruct (closer_of c) as [closing|] eqn:Hb.
        -- rewrite (proj1 (IH _)), rev_unit. done.
        -- destruct (closes c) eqn:Hc; [|apply IH].
           destruct stack as [|top stack _] using rev_ind; [done|].
           rewrite last_snoc, rev_unit, removelast_last.
           destruct (Ascii.eqb top c); simpl; [apply IH|done].
    + intros q. simpl.
      rewrite andb_false_r. simpl.
      destruct (Ascii.eqb_spec c q) as [->|Hne].
      * rewrite bool_decide_eq_true_2 by done. simpl. apply IH.
      * rewrite bool_decide_eq_false_2 by congruence. simpl. apply IH.
Qed.

(** *** The prose openers and the four patterns *)

Lemma eqb_codes a b : Ascii.eqb a b = (N_of_ascii a =? N_of_ascii b)%N.
Proof.
  destruct (Ascii.eqb_spec a b) as [->|Hne].
  - by rewrite N.eqb_refl.
  - symmetry. apply N.eqb_neq. intros H. apply Hne.
    by rewrite <- (ascii_N_embedding a), <- (ascii_N_embedding b), H.
Qed.

Lemma code_below_256 c : (N_of_ascii c < 256)%N.
Proof. destruct c as [[] [] [] [] [] [] [] []]; by vm_compute. Qed.

Lemma to_lower_code c :
  N_of_ascii (PyStr.to_lower c)
  = (if (65 <=? N_of_ascii c) && (N_of_ascii c <=? 90)
     then N_of_ascii c + 32 else N_of_ascii c)%N.
Proof.
  unfold PyStr.to_lower. cbv zeta.
  destruct ((65 <=? N_of_ascii c) && (N_of_ascii c <=? 90))%N eqn:E; [|done].
  apply andb_true_iff in E as [_ E]. apply N.leb_le in E.
  apply N_ascii_embedding. lia.
Qed.

(** Ignoring case, a pattern character matches the characters that are
    the same letter. *)
Lemma to_lower_same_letter a b :
  Ascii.eqb (PyStr.to_lower b) (PyStr.to_lower a) = same_letter a b.
Proof.
  rewrite eqb_codes, !to_lower_code. unfold same_letter. cbv zeta.
  pose proof (code_below_256 a). pose proof (code_below_256 b).
  repeat match goal with
         | |- context [(?x <=? ?y)%N] => destruct (N.leb_spec x y)
         | |- context [(?x =? ?y)%N] => destruct (N.eqb_spec x y)
         end; simpl in *; try done; exfalso; lia.
Qed.

Lemma isspace_blank c : PyStr.isspace c = blank c.
Proof. destruct c as [[] [] [] [] [] [] [] []]; by vm_compute. Qed.

Lemma apostrophe_only b : same_letter "'" b = true -> b = "'"%char.
Proof. destruct b as [[] [] [] [] [] [] [] []]; by vm_compute. Qed.

Import Re ReFacts.

Lemma cat_inv r1 r2 x :
  matches (Cat r1 r2) x ->
  exists a b, x = a +:+ b /\ matches r1 a /\ matches r2 b.
Proof. inversion 1; subst. by eexists _, _. Qed.

Lemma alt_inv r1 r2 x : matches (Alt r1 r2) x -> matches r1 x \/ matches r2 x.
Proof. inversion 1; subst; [by left|by right]. Qed.

Lemma ichr_spec c x :
  matches (ichr c) x <-> exists b, x = String b EmptyString /\ same_letter c b = true.
Proof.
  unfold ichr. split.
  - inversion 1 as [|p b Hp| | | | |]; subst. exists b. split; [done|].
    by rewrite <- to_lower_same_letter.
  - intros (b & -> & H). constructor. by rewrite to_lower_same_letter.
Qed.

Lemma ilit_spec word : forall x, matches (ilit word) x <-> spelled word x = true.
Proof.
  induction word as [|a word IH]; intros x; simpl.
  - split.
    + by inversion 1.
    + destruct x; [constructor|done].
  - split.
    + intros H. apply cat_inv in H as (u & v & -> & Hu & Hv).
      apply ichr_spec in Hu as (b & -> & Hb). rewrite app_cons, app_nil.
      rewrite Hb. by apply IH.
    + destruct x as [|b x]; [done|]. intros H.
      apply andb_true_iff in H as [Hb Hx].
      change (String b x) with (String b EmptyString +:+ x).
      constructor; [apply ichr_spec; by exists b|by apply IH].
Qed.

Lemma opt_inv r x : matches (opt r) x -> x = EmptyString \/ matches r x.
Proof. unfold opt. intros H. apply alt_inv in H as [H|H]; [by right|]. left. by inversion H. Qed.

Lemma star_ws_spec x : matches (Star ws) x <-> all_blank x = true.
Proof.
  split.
  - remember (Star ws) as r eqn:Hr. intros H.
    induction H as [| | | | | |r0 s1 s2 H1 _ H2 IH2]; try discriminate; [done|].
    injection Hr as ->. unfold ws in H1.
    inversion H1 as [|p c Hp| | | | |]; subst. rewrite app_cons, app_nil. simpl.
    rewrite <- isspace_blank, Hp. by apply IH2.
  - induction x as [|c x IH]; simpl; [constructor|].
    intros H. apply andb_true_iff in H as [Hc Hx].
    change (String c x) with (String c EmptyString +:+ x).
    constructor; [|by apply IH]. constructor. by rewrite isspace_blank.
Qed.

Lemma plus_ws_spec x : matches (plus ws) x <-> blanks x.
Proof.
  unfold plus, blanks. split.
  - intros H. apply cat_inv in H as (u & v & -> & Hu & Hv).
    unfold ws in Hu. inversion Hu as [|p c Hp| | | | |]; subst.
    rewrite app_cons, app_nil. split; [done|]. simpl.
    rewrite <- isspace_blank, Hp. by apply star_ws_spec.
  - intros [Hne H]. destruct x as [|c x]; [done|]. simpl in H.
    apply andb_true_iff in H as [Hc Hx].
    change (String c x) with (String c EmptyString +:+ x).
    constructor; [|by apply star_ws_spec]. constructor. by rewrite isspace_blank.
Qed.

Lemma opt_apostrophe x :
  matches (opt (ichr "'")) x <-> x = EmptyString \/ x = "'".
Proof.
  split.
  - intros H. apply opt_inv in H as [H|H]; [by left|]. right.
    apply ichr_spec in H as (b & -> & Hb). by rewrite (apostrophe_only b Hb).
  - intros [->| ->]; [apply m_alt_r; constructor|].
    apply m_alt_l. apply ichr_spec. by exists "'"%char.
Qed.

Lemma opt_letter c x :
  matches (opt (ichr c)) x
  <-> x = EmptyString \/ spelled (String c EmptyString) x = true.
Proof.
  split.
  - intros H. apply opt_inv in H as [H|H]; [by left|]. right.
    apply ichr_spec in H as (b & -> & Hb). simpl. by rewrite Hb.
  - intros [->|H]; [apply m_alt_r; constructor|].
    apply m_alt_l. apply ichr_spec.
    destruct x as [|b [|]]; simpl in H; try done.
    + exists b. split; [done|]. by apply andb_true_iff in H as [? _].
    + by apply andb_true_iff in H as [_ ?].
Qed.

Lemma one_of_three a b c x :
  matches (Alt (ilit a) (Alt (ilit b) (ilit c))) x
  <-> spelled a x = true \/ spelled b x = true \/ spelled c x = true.
Proof.
  rewrite <- !ilit_spec. split.
  - intros H. apply alt_inv in H as [H|H]; [by left|].
    apply alt_inv in H as [H|H]; [right; by left|right; by right].
  - intros [H|[H|H]]; [by apply m_alt_l|apply m_alt_r; by apply m_alt_l|].
    apply m_alt_r. by apply m_alt_r.
Qed.

(** A text starts with a word of one of the four patterns exactly when
    it begins with a prose opener. *)
Lemma patterns_spec text :
  existsb (fun pattern => re_match pattern text) explanation_patterns = true
  <-> prose_opener text.
Proof.
  split.
  - intros H. apply existsb_exists in H as (p & Hin & Hm).
    apply re_match_spec in Hm as (prefix & rest & -> & Hm).
    unfold explanation_patterns in Hin.
    destruct Hin as [<-|[<-|[<-|[<-|[]]]]].
    + apply cat_inv in Hm as (here & x1 & -> & Hhere & Hm).
      apply cat_inv in Hm as (q & x2 & -> & Hq & Hm).
      apply cat_inv in Hm as (s & x3 & -> & Hs & Hm).
      apply cat_inv in Hm as (gap1 & x4 & -> & Hgap1 & Hm).
      apply cat_inv in Hm as (article & gap2 & -> & Harticle & Hgap2).
      rewrite !append_assoc.
      apply opener_here; [by apply ilit_spec|by apply opt_apostrophe|
        by apply (opt_letter "s")|by apply plus_ws_spec|
        by apply one_of_three|by apply plus_ws_spec].
    + apply cat_inv in Hm as (i & x1 & -> & Hi & Hm).
      apply cat_inv in Hm as (q & x2 & -> & Hq & Hm).
      apply cat_inv in Hm as (ll & gap & -> & Hll & Hgap).
      rewrite !append_assoc.
      apply opener_i_will; [by apply ilit_spec|by apply opt_apostrophe|
        by apply ilit_spec|by apply plus_ws_spec].
    + apply cat_inv in Hm as (this & x1 & -> & Hthis & Hm).
      apply cat_inv in Hm as (gap & noun & -> & Hgap & Hnoun).
      rewrite !append_assoc.
      apply opener_this; [by apply ilit_spec|by apply plus_ws_spec|
        by apply one_of_three].
    + apply cat_inv in Hm as (the & x1 & -> & Hthe & Hm).
      apply cat_inv in Hm as (gap & word & -> & Hgap & Hword).
      rewrite !append_assoc.
      apply opener_the; [by apply ilit_spec|by apply plus_ws_spec|
        by apply ilit_spec].
  - intros H. apply existsb_exists.
    destruct H as [here q s gap1 article gap2 rest Hhere Hq Hs Hgap1 Harticle Hgap2
                  |i q ll gap rest Hi Hq Hll Hgap
                  |this gap noun rest Hthis Hgap Hnoun
                  |the gap word rest Hthe Hgap Hword].
    + eexists. split; [by left|]. apply re_match_spec.
      exists (here +:+ q +:+ s +:+ gap1 +:+ article +:+ gap2), rest.
      split; [by rewrite !append_assoc|].
      repeat apply m_cat; [by apply ilit_spec|by apply opt_apostrophe|
        by apply (opt_letter "s")|by apply plus_ws_spec|
        by apply one_of_three|by apply plus_ws_spec].
    + eexists. split; [right; by left|]. apply re_match_spec.
      exists (i +:+ q +:+ ll +:+ gap), rest.
      split; [by rewrite !append_assoc|].
      repeat apply m_cat; [by apply ilit_spec|by apply opt_apostrophe|
        by apply ilit_spec|by apply plus_ws_spec].
    + eexists. split; [right; right; by left|]. apply re_match_spec.
      exists (this +:+ gap +:+ noun), rest.
      split; [by rewrite !append_assoc|].
      repeat apply m_cat; [by apply ilit_spec|by apply plus_ws_spec|
        by apply one_of_three].
    + eexists. split; [right; right; right; by left|]. apply re_match_spec.
      exists (the +:+ gap +:+ word), rest.
      split; [by rewrite !append_assoc|].
      repeat apply m_cat; [by apply ilit_spec|by apply plus_ws_spec|
        by apply ilit_spec].
Qed.

(** *** Trimming *)

Lemma lstrip_trims s :
  exists lead, s = lead +:+ PyStr.lstrip s
               /\ all_blank lead = true
               /\ starts_blank (PyStr.lstrip s) = false.
Proof.
  induction s as [|c s (lead & Hs & Hlead & Hstart)]; simpl.
  - by exists EmptyString.
  - destruct (PyStr.isspace c) eqn:Hc.
    + exists (String c lead). rewrite app_cons, <- Hs. simpl.
      by rewrite <- isspace_blank, Hc.
    + exists EmptyString. simpl. by rewrite <- isspace_blank.
Qed.

Lemma rstrip_trims s :
  exists trail, s = PyStr.rstrip s +:+ trail
                /\ all_blank trail = true
                /\ ends_blank (PyStr.rstrip s) = false
                /\ (starts_blank s = false -> starts_blank (PyStr.rstrip s) = false).
Proof.
  induction s as [|c s (trail & Hs & Htrail & Hend & _)]; simpl.
  - by exists EmptyString.
  - destruct (PyStr.rstrip s) as [|d r] eqn:Hr.
    + rewrite app_nil in Hs. subst trail.
      destruct (PyStr.isspace c) eqn:Hc.
      * exists (String c s). rewrite app_nil. simpl.
        by rewrite <- isspace_blank, Hc.
      * exists s. rewrite app_cons, app_nil. simpl.
        by rewrite <- isspace_blank, Hc.
    + exists trail. rewrite app_cons, <- Hs. by simpl in *.
Qed.

Lemma strip_trims s : trimmed s (PyStr.strip s).
Proof.
  unfold trimmed, PyStr.strip.
  destruct (lstrip_trims s) as (lead & Hs & Hlead & Hstart).
  destruct (rstrip_trims (PyStr.lstrip s)) as (trail & Hl & Htrail & Hend & Hkeep).
  exists lead, trail. split; [by rewrite <- Hl|]. by auto.
Qed.

(** *** The text the syntax check looks at *)

Lemma after_first_no_fence s :
  no_backtick s = true -> PyStr.after_first fence s = None.
Proof.
  induction s as [|c s IH]; intros H; [done|].
  simpl in H. apply andb_true_iff in H as [Hc Hp]. apply negb_true_iff in Hc.
  change (PyStr.after_first fence (String c s))
    with (match PyStr.strip_prefix fence (String c s) with
          | Some rest => Some rest
          | None => PyStr.after_first fence s
          end).
  rewrite strip_prefix_fence_miss by done. by apply IH.
Qed.

Lemma extract_code_fenced pre tag body post :
  no_backtick pre = true ->
  In tag [""; "python"; "typescript"; "javascript"; "js"; "ts"] ->
  no_backtick body = true ->
  _extract_code (pre +:+ "```" +:+ tag +:+ String (ascii_of_nat 10) EmptyString
                 +:+ body +:+ "```" +:+ post)
  = PyStr.strip body.
Proof.
  intros Hpre Htag Hbody. unfold _extract_code, first_fenced_block.
  change "```" with fence.
  rewrite after_first_fence by done.
  change (String (ascii_of_nat 10) EmptyString) with newline.
  rewrite drop_tag_tagged by done.
  by rewrite before_first_fence.
Qed.

Lemma extract_code_plain text :
  no_backtick text = true -> _extract_code text = PyStr.strip text.
Proof.
  intros H. unfold _extract_code, first_fenced_block.
  by rewrite after_first_no_fence.
Qed.

(** A fence that is opened and never closed: nothing is taken out. *)
Lemma extract_code_unclosed pre post :
  no_backtick pre = true ->
  no_backtick post = true ->
  _extract_code (pre +:+ "```" +:+ post) = PyStr.strip (pre +:+ "```" +:+ post).
Proof.
  intros Hpre Hpost. unfold _extract_code, first_fenced_block.
  change "```" with fence.
  rewrite after_first_fence by done.
  destruct (drop_tag_suffix fence_tags post) as [p1 H1].
  destruct (drop_newline_suffix (drop_tag fence_tags post)) as [p2 H2].
  assert (Hfree : no_backtick (drop_newline (drop_tag fence_tags post)) = true).
  { rewrite H1, H2, !no_backtick_app in Hpost.
    by repeat (apply andb_true_iff in Hpost as [? Hpost]). }
  by rewrite before_first_no_fence.
Qed.

(** The loop returns early only at a closing bracket, and then with a
    failure that names it. *)
Lemma ts_loop_early code : forall stack in_string string_char ok why,
  ts_loop code stack in_string string_char = inl (Some (ok, why)) ->
  ok = false
  /\ exists c, closes c = true
               /\ why = Some ("Unbalanced brackets at '"
                              +:+ String c EmptyString +:+ "'").
Proof.
  induction code as [|c code IH]; intros stack b q ok why H; simpl in H; [done|].
  destruct (is_closing c) eqn:Hc; rewrite is_closing_closes in Hc;
    repeat match type of H with
           | (if ?x then _ else _) = _ => destruct x
           | match ?x with _ => _ end = _ => destruct x
           end; try (by eapply IH); injection H as <- <-;
    (split; [done|by exists c]).
Qed.

Section Filter.
Variable ast_parse : string -> parse_result.
Variable config : MDAPConfig.

Local Abbreviation check := (check ast_parse config).
Local Abbreviation _check_syntax := (_check_syntax ast_parse).

Lemma check_typescript_balanced code :
  fst (_check_typescript_syntax code)
  = brackets_balanced (outside_strings code None) [].
Proof.
  pose proof (proj1 (ts_loop_refines code [])) as H. simpl in H.
  rewrite <- H. unfold _check_typescript_syntax.
  destruct (ts_loop code [] false None) as [[[ok why]|]|[|x st]]; done.
Qed.

Lemma check_format_cases candidate :
  let text := PyStr.strip (code candidate) in
  _check_format candidate =
    if bool_decide (text = "") then (false, Some "Empty code")
    else if PyStr.len text <? 10 then (false, Some "Code too short")
    else if existsb (fun p => Re.re_match p text) explanation_patterns
    then (false, Some "Contains explanation instead of code")
    else (true, None).
Proof. reflexivity. Qed.

Lemma check_in_order candidate language :
  check candidate language =
    run_in_order
      [ ("length", enable_length_check config,
           (_check_length config candidate, Some (too_long_reason config candidate)));
        ("format", enable_format_check config, _check_format candidate);
        ("syntax", enable_syntax_check config, _check_syntax candidate language) ]
      [].
Proof.
  unfold RedFlag.check, check_format_step, check_syntax_step. simpl.
  destruct (enable_length_check config), (enable_format_check config),
    (enable_syntax_check config),
    (_check_length config candidate),
    (_check_format candidate) as [[|] fwhy],
    (_check_syntax candidate language) as [[|] swhy]; reflexivity.
Qed.

Lemma syntax_of_extracted candidate text :
  _extract_code (code candidate) = text ->
  (fst (_check_syntax candidate PYTHON) = true <-> ast_parse text = Parsed)
  /\ fst (_check_syntax candidate TYPESCRIPT)
     = brackets_balanced (outside_strings text None) [].
Proof.
  intros <-. split.
  - unfold RedFlag._check_syntax, _check_python_syntax.
    destruct (ast_parse _); simpl; split; done.
  - unfold RedFlag._check_syntax. apply check_typescript_balanced.
Qed.

(** C7: [check] runs the enabled checks in the order length, format,
    syntax and stops at the first that fails, with that check's reason; a
    disabled check is skipped, and a candidate that fails no enabled
    check passes.  The length check fails when the token count exceeds
    [max_tokens_response]; the format check when the trimmed text is
    empty, shorter than 10 characters, or starts with a word of one of
    the four prose-opener patterns; the syntax check, on the text taken
    out of its code fence, when [ast.parse] does not parse it (Python)
    or when the brackets outside quoted strings do not balance
    (TypeScript).  The verdict is a function of the candidate, the
    language, the configuration and the parser alone.
    In the words of the specification, with none of the filter's own
    tables: the trimmed text is the code without the white space at its
    two ends; the format check fails exactly when that text is empty,
    has fewer than 10 characters or begins with a prose opener ("Here",
    "Here's" or "Heres" and an article; "I'll" or "Ill"; "This" and
    "function", "code" or "implementation"; "The following"; in any
    case, with any white space between the words), each with its own
    reason; when the code holds a block between two fences of three
    backticks, with one of the five language tags or none and a line
    break after the opening fence, the syntax check looks at that block,
    trimmed, and when the code holds no backtick, at the trimmed code;
    the brackets that must balance are the three pairs of curly, square
    and round brackets, outside strings quoted by a double quote, a
    single quote or a backtick, and a failure names the closing bracket
    that does not match or lists the brackets left open; when a fence
    is opened and never closed nothing is taken out of the code; and
    the candidate passes exactly when every enabled check does. *)
Theorem check_runs_enabled_checks_in_order candidate language :
  check candidate language =
    run_in_order
      [ ("length", enable_length_check config,
           (_check_length config candidate, Some (too_long_reason config candidate)));
        ("format", enable_format_check config, _check_format candidate);
        ("syntax", enable_syntax_check config, _check_syntax candidate language) ]
      []
  /\ (_check_length config candidate = false <->
      tokens_used candidate > max_tokens_response config)
  /\ (let text := PyStr.strip (code candidate) in
      fst (_check_format candidate) = false <->
      text = ""
      \/ PyStr.len text < 10
      \/ exists p prefix rest,
           p ∈ explanation_patterns
           /\ text = prefix +:+ rest /\ ReFacts.matches p prefix)
  /\ (fst (_check_format candidate) = false ->
      exists why, snd (_check_format candidate) = Some why)
  /\ (fst (_check_syntax candidate PYTHON) = true <->
      ast_parse (_extract_code (code candidate)) = Parsed)
  /\ fst (_check_syntax candidate TYPESCRIPT)
     = brackets_balanced (outside_strings (_extract_code (code candidate)) None) []
  /\ (fst (_check_syntax candidate language) = false ->
      exists why, snd (_check_syntax candidate language) = Some why)
  /\ (passed (check candidate language) = true <->
      (enable_length_check config = true ->
       tokens_used candidate <= max_tokens_response config)
      /\ (enable_format_check config = true ->
          fst (_check_format candidate) = true)
      /\ (enable_syntax_check config = true ->
          fst (_check_syntax candidate language) = true))
  /\ (enable_length_check config = true ->
      tokens_used candidate > max_tokens_response config ->
      check candidate language
      = {| passed := false;
           reason := Some ("Response too long ("
                           +:+ PyStr.str_of_int (tokens_used candidate)
                           +:+ " tokens > "
                           +:+ PyStr.str_of_int (max_tokens_response config)
                           +:+ ")");
           checks := [("length", false)] |})
  /\ trimmed (code candidate) (PyStr.strip (code candidate))
  /\ (let text := PyStr.strip (code candidate) in
      (fst (_check_format candidate) = false <->
       text = "" \/ PyStr.len text < 10 \/ prose_opener text)
      /\ (text = "" -> _check_format candidate = (false, Some "Empty code"))
      /\ (text <> "" -> PyStr.len text < 10 ->
          _check_format candidate = (false, Some "Code too short"))
      /\ (10 <= PyStr.len text -> prose_opener text ->
          _check_format candidate
          = (false, Some "Contains explanation instead of code"))
      /\ (10 <= PyStr.len text -> ~ prose_opener text ->
          _check_format candidate = (true, None)))
  /\ (forall pre tag body post,
        code candidate
        = pre +:+ "```" +:+ tag +:+ String (ascii_of_nat 10) EmptyString
          +:+ body +:+ "```" +:+ post ->
        no_backtick pre = true ->
        In tag [""; "python"; "typescript"; "javascript"; "js"; "ts"] ->
        no_backtick body = true ->
        (fst (_check_syntax candidate PYTHON) = true <->
         ast_parse (PyStr.strip body) = Parsed)
        /\ fst (_check_syntax candidate TYPESCRIPT)
           = brackets_balanced (outside_strings (PyStr.strip body) None) [])
  /\ (no_backtick (code candidate) = true ->
      (fst (_check_syntax candidate PYTHON) = true <->
       ast_parse (PyStr.strip (code candidate)) = Parsed)
      /\ fst (_check_syntax candidate TYPESCRIPT)
         = brackets_balanced
             (outside_strings (PyStr.strip (code candidate)) None) [])
  /\ (forall msg lineno,
        ast_parse (_extract_code (code candidate)) = SyntaxError msg lineno ->
        _check_syntax candidate PYTHON
        = (false, Some ("Python syntax error: " +:+ msg +:+ " at line "
                        +:+ PyStr.str_of_opt_int lineno)))
  /\ (forall str_e,
        ast_parse (_extract_code (code candidate)) = ParseException str_e ->
        _check_syntax candidate PYTHON
        = (false, Some ("Python parse error: " +:+ str_e)))
  /\ (forall pre post,
        code candidate = pre +:+ "```" +:+ post ->
        no_backtick pre = true ->
        no_backtick post = true ->
        (fst (_check_syntax candidate PYTHON) = true <->
         ast_parse (PyStr.strip (code candidate)) = Parsed)
        /\ fst (_check_syntax candidate TYPESCRIPT)
           = brackets_balanced
               (outside_strings (PyStr.strip (code candidate)) None) [])
  /\ (fst (_check_syntax candidate TYPESCRIPT) = false ->
      (exists c,
         closes c = true
         /\ snd (_check_syntax candidate TYPESCRIPT)
            = Some ("Unbalanced brackets at '" +:+ String c EmptyString +:+ "'"))
      \/ (exists listing,
            snd (_check_syntax candidate TYPESCRIPT)
            = Some ("Unclosed brackets: [" +:+ listing +:+ "]"))).
Proof.
  assert (Hlength : _check_length config candidate = false <->
                    tokens_used candidate > max_tokens_response config).
  { unfold _check_length. rewrite Z.leb_gt. lia. }
  split; [apply check_in_order|].
  split; [exact Hlength|].
  split.
  { intros text. rewrite check_format_cases. fold text.
    destruct (bool_decide_reflect (text = "")) as [He|He].
    { simpl. split; [by left|done]. }
    destruct (Z.ltb_spec (PyStr.len text) 10) as [Hl|Hl].
    { simpl. split; [right; by left|done]. }
    destruct (existsb _ explanation_patterns) eqn:Hex; simpl.
    + split; [|done]. intros _. right. right.
      apply existsb_exists in Hex as (p & Hp & Hm).
      apply ReFacts.re_match_spec in Hm as (prefix & rest & Hs & Hm).
      exists p, prefix, rest. split; [by apply list_elem_of_In|done].
    + split; [done|]. intros [H|[H|(p & prefix & rest & Hp & Hs & Hm)]];
        [done|lia|].
      assert (Hex' : existsb (fun p => Re.re_match p text) explanation_patterns
                     = true).
      { apply existsb_exists. exists p. split; [by apply list_elem_of_In|].
        apply ReFacts.re_match_spec. by exists prefix, rest. }
      congruence. }
  split.
  { rewrite check_format_cases.
    destruct (bool_decide _); [by eexists|].
    destruct (_ <? _); [by eexists|].
    destruct (existsb _ _); [by eexists|done]. }
  split; [exact (proj1 (syntax_of_extracted candidate _ eq_refl))|].
  split; [exact (proj2 (syntax_of_extracted candidate _ eq_refl))|].
  split.
  { unfold RedFlag._check_syntax.
    destruct language.
    + unfold _check_python_syntax. destruct (ast_parse _); simpl; try done;
        intros _; by eexists.
    + unfold _check_typescript_syntax.
      destruct (ts_loop _ [] false None) as [[[ok why]|]|[|x st]] eqn:E;
        simpl; try done; [|intros _; by eexists].
      intros ->.
      assert (Hwhy : forall code0 stack b q ok' why',
                ts_loop code0 stack b q = inl (Some (ok', why')) ->
                ok' = false /\ exists w, why' = Some w).
      { clear. induction code0 as [|c code0 IH]; intros stack b q ok' why' H;
          simpl in H; [done|].
        repeat match type of H with
               | (if ?x then _ else _) = _ => destruct x
               | match ?x with _ => _ end = _ => destruct x
               end; try (by eapply IH); injection H as <- <-;
          (split; [done|by eexists]). }
      apply Hwhy in E as [_ Hw]. exact Hw. }
  split.
  { rewrite check_in_order. simpl.
    assert (Hle : _check_length config candidate = true <->
                  tokens_used candidate <= max_tokens_response config).
    { unfold _check_length. by rewrite Z.leb_le. }
    rewrite <- Hle.
    destruct (enable_length_check config), (enable_format_check config),
      (enable_syntax_check config),
      (_check_length config candidate),
      (_check_format candidate) as [[|] fwhy],
      (_check_syntax candidate language) as [[|] swhy]; simpl;
      split; try done; try (intros (H1 & H2 & H3); by auto). }
  split.
  { intros Hen Hlong. apply Hlength in Hlong.
    unfold RedFlag.check. by rewrite Hen, Hlong. }
  split; [apply strip_trims|].
  split.
  { intros text. rewrite check_format_cases. fold text.
    destruct (bool_decide_reflect (text = "")) as [He|He].
    { simpl. split; [split; [by left|done]|].
      split; [done|]. split; [done|].
      rewrite He. split; intros Hlen; by vm_compute in Hlen. }
    destruct (Z.ltb_spec (PyStr.len text) 10) as [Hl|Hl].
    { simpl. split; [split; [right; by left|done]|].
      split; [done|]. split; [done|]. split; intros; lia. }
    destruct (existsb _ explanation_patterns) eqn:Hex; simpl.
    + apply patterns_spec in Hex.
      split; [split; [by auto|done]|]. split; [done|].
      split; [intros; lia|]. split; [done|]. by intros _ Hno.
    + assert (Hno : ~ prose_opener text).
      { intros H. apply patterns_spec in H. congruence. }
      split; [split; [done|]; intros [H|[H|H]]; [done|lia|done]|].
      split; [done|]. split; [intros; lia|]. split; [|done]. by intros _ H. }
  split.
  { intros pre tag body post Hcode Hpre Htag Hbody.
    apply syntax_of_extracted. rewrite Hcode.
    by apply extract_code_fenced. }
  split.
  { intros Hplain. apply syntax_of_extracted. by apply extract_code_plain. }
  split.
  { intros msg lineno H. unfold RedFlag._check_syntax, _check_python_syntax.
    by rewrite H. }
  split.
  { intros str_e H. unfold RedFlag._check_syntax, _check_python_syntax.
    by rewrite H. }
  split.
  { intros pre post Hcode Hpre Hpost.
    apply syntax_of_extracted. rewrite Hcode.
    by apply extract_code_unclosed. }
  unfold RedFlag._check_syntax, _check_typescript_syntax.
  destruct (ts_loop _ [] false None) as [[[ok why]|]|[|x st]] eqn:E;
    simpl; try done.
  - intros ->. left. apply ts_loop_early in E as [_ (c & Hc & ->)].
    by exists c.
  - intros _. right. by eexists.
Qed.

End Filter.

(** The verdicts on the texts of the repository's own tests that do not
    need the Python parser. *)
Definition candidate_of (text : string) (tokens : Z) : Candidate :=
  {| id := "t"; code := text; tokens_used := tokens; is_valid := true;
     red_flag_reason := None; group_id := None |}.

Definition verdict (ast_parse : string -> parse_result) (text : string)
    (tokens : Z) (language : Language) : bool * option string :=
  let r := check ast_parse default_config (candidate_of text tokens) language in
  (passed r, reason r).

Example prose_openers_rejected : forall ast_parse,
  Forall (fun text => verdict ast_parse text 20 PYTHON
                      = (false, Some "Contains explanation instead of code"))
    [ "Here's the function you requested:"; "I'll create a function that...";
      "This function will handle..."; "The following code implements..." ].
Proof. intros ast_parse. repeat constructor. Qed.

Example too_long_rejected : forall ast_parse,
  verdict ast_parse "x = 1" 1000 PYTHON
  = (false, Some "Response too long (1000 tokens > 500)").
Proof. reflexivity. Qed.

Example empty_and_short_rejected : forall ast_parse,
  verdict ast_parse "" 0 PYTHON = (false, Some "Empty code")
  /\ verdict ast_parse "x" 1 PYTHON = (false, Some "Code too short").
Proof. intros ast_parse. split; reflexivity. Qed.

Example typescript_verdicts : forall ast_parse,
  verdict ast_parse "function hello(): string { return 'world'; }" 20 TYPESCRIPT
  = (true, None)
  /\ verdict ast_parse "function hello() { return 'world';" 20 TYPESCRIPT
     = (false, Some "Unclosed brackets: ['}']")
  /\ verdict ast_parse "function hello() { return '}'; ]" 20 TYPESCRIPT
     = (false, Some "Unbalanced brackets at ']'").
Proof. intros ast_parse. repeat split; reflexivity. Qed.

(** A parser that accepts every text, and two answers that wrap their
    code in a fence. *)
Definition always_parses : string -> parse_result := fun _ => Parsed.

Definition fenced (body : string) : string :=
  "Here is the code: " +:+ "```" +:+ "ts" +:+ String (ascii_of_nat 10) EmptyString
  +:+ body +:+ "```" +:+ " Done.".

Lemma check_runs_enabled_checks_in_order_witness :
  _check_format (candidate_of "  HERE'S   the function you requested:  " 20)
  = (false, Some "Contains explanation instead of code")
  /\ fst (_check_syntax always_parses
            (candidate_of (fenced "function f() { return [1, 2]; }") 20) TYPESCRIPT)
     = true
  /\ fst (_check_syntax always_parses
            (candidate_of (fenced "function f() { return [1, 2; }") 20) TYPESCRIPT)
     = false
  /\ fst (_check_syntax always_parses
            (candidate_of (fenced "function f() { return '['; }") 20) TYPESCRIPT)
     = true
  /\ passed (check always_parses default_config
               (candidate_of (fenced "function f() { return [1, 2; }") 20)
               TYPESCRIPT)
     = false.
Proof.
  assert (Hfence : forall body,
            no_backtick body = true ->
            fst (_check_syntax always_parses (candidate_of (fenced body) 20)
                   TYPESCRIPT)
            = brackets_balanced (outside_strings (PyStr.strip body) None) []).
  { intros body Hbody.
    destruct (check_runs_enabled_checks_in_order always_parses default_config
                (candidate_of (fenced body) 20) TYPESCRIPT)
      as (_ & _ & _ & _ & _ & _ & _ & _ & _ & _ & _ & Hblock & _).
    refine (proj2 (Hblock "Here is the code: " "ts" body " Done."
                     eq_refl eq_refl _ Hbody)).
    right. right. right. right. right. by left. }
  split.
  { destruct (check_runs_enabled_checks_in_order always_parses default_config
                (candidate_of "  HERE'S   the function you requested:  " 20) PYTHON)
      as (_ & _ & _ & _ & _ & _ & _ & _ & _ & _ & Hformat & _).
    destruct Hformat as (_ & _ & _ & Hopener & _).
    apply Hopener; [by vm_compute|].
    exact (opener_here "HERE" "'" "S" "   " "the" " " "function you requested:"
             eq_refl (or_intror eq_refl) (or_intror eq_refl)
             (conj (fun H => eq_ind "   " (fun s => if s is EmptyString then False else True) I _ H) eq_refl)
             (or_introl eq_refl)
             (conj (fun H => eq_ind " " (fun s => if s is EmptyString then False else True) I _ H) eq_refl)). }
  split; [by rewrite Hfence|].
  assert (Hbad : fst (_check_syntax always_parses
                        (candidate_of (fenced "function f() { return [1, 2; }") 20)
                        TYPESCRIPT) = false)
    by (by rewrite Hfence).
  split; [exact Hbad|].
  split; [by rewrite Hfence|].
  destruct (check_runs_enabled_checks_in_order always_parses default_config
              (candidate_of (fenced "function f() { return [1, 2; }") 20) TYPESCRIPT)
    as (_ & _ & _ & _ & _ & _ & _ & Hpassed & _).
  destruct (passed _); [|reflexivity].
  destruct (proj1 Hpassed eq_refl) as (_ & _ & Hsyntax).
  rewrite Hbad in Hsyntax. symmetry. by apply Hsyntax.
Defined.

End RedFlagFacts.

(** ** The intent detector *)

Module IntentFacts.
Import Intent.

Section WithPython.
Variable json_loads : string -> outcome json.
Variable float_of_int : Z -> outcome float.
Variable float_of_str : string -> outcome float.

Local Abbreviation py_float := (py_float float_of_int float_of_str).
Local Abbreviation _parse_response := (_parse_response json_loads float_of_int float_of_str).
Local Abbreviation detect := (detect json_loads float_of_int float_of_str).

(** What [_parse_response] builds from a reply whose JSON object gives a
    label and a confidence. *)
Definition parsed_result (data : list (string * json)) (label : string)
    (c : float) (message : string) : IntentResult :=
  let task := data_get "task" (JStr "") data in
  make_result (intent_of (PyStr.upper label)) c
    (if truthy task then task else JStr message)
    (data_get "reasoning" (JStr "") data).

Lemma parse_response_labelled reply message matched data label c :
  search_braces (sub_close_fence (sub_open_fence (PyStr.strip reply))) = Some matched ->
  json_loads matched = Returns (JDict data) ->
  data_get "intent" (JStr "CHAT_GENERAL") data = JStr label ->
  py_float (data_get "confidence" (JFloat 0x1.6666666666666p-1%float) data)
    = Returns c ->
  _parse_response reply message = Returns (parsed_result data label c message).
Proof.
  intros Hs Hj Hl Hc. unfold Intent._parse_response, parse_attempt.
  rewrite Hs, Hj. simpl. rewrite Hl. simpl. rewrite Hc. reflexivity.
Qed.

(** C9 (amended): the intent returned for a reply that parses to a label
    and a confidence is the intent the label maps to (general chat only
    for an unknown label), with the parsed confidence, whatever that
    confidence is: no threshold is applied.  The one exception is a
    confidence equal to 0.5 with a label that maps to general chat, where
    the result of the local keyword detection, when there is one,
    replaces the parsed result. *)
Theorem detect_keeps_parsed_intent reply message matched data label c :
  search_braces (sub_close_fence (sub_open_fence (PyStr.strip reply))) = Some matched ->
  json_loads matched = Returns (JDict data) ->
  data_get "intent" (JStr "CHAT_GENERAL") data = JStr label ->
  py_float (data_get "confidence" (JFloat 0x1.6666666666666p-1%float) data)
    = Returns c ->
  detect (Returns reply) message =
    (if PrimFloat.eqb c 0x1p-1%float
        && bool_decide (intent_of (PyStr.upper label) = CHAT_GENERAL)
     then default (parsed_result data label c message) (_detect_local message)
     else parsed_result data label c message)
  /\ intent (parsed_result data label c message) = intent_of (PyStr.upper label)
  /\ confidence (parsed_result data label c message) = c.
Proof.
  intros Hs Hj Hl Hc. split; [|done].
  unfold Intent.detect. simpl.
  rewrite (parse_response_labelled _ _ _ _ _ _ Hs Hj Hl Hc). simpl.
  destruct (PrimFloat.eqb c _ && _); [|done].
  by destruct (_detect_local message).
Qed.

End WithPython.

Definition quote : string := PyStr.chr 34.

(** The reply [{"intent": "TASK_SIMPLE", "confidence": 0.3}]. *)
Definition low_confidence_reply : string :=
  "{" +:+ quote +:+ "intent" +:+ quote +:+ ": " +:+ quote +:+ "TASK_SIMPLE"
  +:+ quote +:+ ", " +:+ quote +:+ "confidence" +:+ quote +:+ ": 0.3}".

Definition low_confidence_data : list (string * json) :=
  [ ("intent", JStr "TASK_SIMPLE");
    ("confidence", JFloat 0x1.3333333333333p-2%float) ].

(** [json.loads] on the reply above; on other texts this stand-in
    reports a decoding error. *)
Definition loads_low_confidence_reply (text : string) : outcome json :=
  if String.eqb text low_confidence_reply then Returns (JDict low_confidence_data)
  else Raises (JSONDecodeError "Expecting value").

(** [float] is not called on an [int] or a [str] for this reply. *)
Definition float_not_called_int (n : Z) : outcome float :=
  Raises (OtherException "float(int)").
Definition float_not_called_str (s : string) : outcome float :=
  Raises (OtherException "float(str)").

Definition low_confidence_detection : IntentResult :=
  detect loads_low_confidence_reply float_not_called_int float_not_called_str
    (Returns low_confidence_reply) "escreve isso para mim".

(** C9 (as stated): a reply parsed to a confidence below 0.6 gives
    general chat.  A reply labelled TASK_SIMPLE with confidence 0.3 is
    returned as TASK_SIMPLE. *)
Lemma low_confidence_reply_keeps_its_label :
  PrimFloat.ltb (confidence low_confidence_detection) 0x1.3333333333333p-1%float = true
  /\ intent low_confidence_detection = TASK_SIMPLE
  /\ intent low_confidence_detection <> CHAT_GENERAL.
Proof. vm_compute. repeat split; discriminate. Qed.

Lemma detect_keeps_parsed_intent_witness :
  search_braces (sub_close_fence (sub_open_fence (PyStr.strip low_confidence_reply)))
    = Some low_confidence_reply
  /\ loads_low_confidence_reply low_confidence_reply = Returns (JDict low_confidence_data)
  /\ low_confidence_detection =
       parsed_result low_confidence_data "TASK_SIMPLE" 0x1.3333333333333p-2%float
         "escreve isso para mim".
Proof.
  assert (H1 : search_braces (sub_close_fence (sub_open_fence
                 (PyStr.strip low_confidence_reply))) = Some low_confidence_reply)
    by (vm_compute; reflexivity).
  assert (H2 : loads_low_confidence_reply low_confidence_reply
               = Returns (JDict low_confidence_data)) by (vm_compute; reflexivity).
  split; [exact H1|]. split; [exact H2|].
  exact (proj1 (detect_keeps_parsed_intent loads_low_confidence_reply
                  float_not_called_int float_not_called_str
                  low_confidence_reply "escreve isso para mim"
                  low_confidence_reply low_confidence_data "TASK_SIMPLE"
                  0x1.3333333333333p-2%float H1 H2 eq_refl eq_refl)).
Defined.

End IntentFacts.

(** ** The order of the groups and the winner *)

Module WinnerFacts.
Import Types Discriminator.

Section Sorting.
Context {A : Type} (f : A -> Z).

Lemma insert_desc_perm x l : insert_desc f x l ≡ₚ x :: l.
Proof.
  induction l as [|y l IH]; simpl; [done|].
  destruct (f x <? f y); [|done].
  rewrite IH. apply Permutation_swap.
Qed.

Lemma sorted_desc_perm l : sorted_desc f l ≡ₚ l.
Proof.
  unfold sorted_desc. induction l as [|x l IH]; simpl; [done|].
  by rewrite insert_desc_perm, IH.
Qed.

(** Every element is followed only by elements of no greater key. *)
Fixpoint descending (l : list A) : Prop :=
  match l with
  | [] => True
  | x :: l' => Forall (fun b => f b <= f x) l' /\ descending l'
  end.

Lemma insert_desc_descending x l : descending l -> descending (insert_desc f x l).
Proof.
  induction l as [|y l IH]; simpl; intros Hd.
  - split; [constructor|done].
  - destruct Hd as [Hall Hd].
    destruct (Z.ltb_spec (f x) (f y)) as [Hlt|Hge]; simpl.
    + split; [|by apply IH].
      rewrite insert_desc_perm. constructor; [lia|done].
    + split; [|done].
      constructor; [lia|].
      eapply Forall_impl; [exact Hall|]. simpl. intros. lia.
Qed.

Lemma sorted_desc_descending l : descending (sorted_desc f l).
Proof.
  unfold sorted_desc. induction l as [|x l IH]; simpl; [done|].
  by apply insert_desc_descending.
Qed.

(** The sort is stable at its head: the first element of the result is
    the first element of the list whose key is the greatest. *)
Lemma sorted_desc_head l w rest :
  sorted_desc f l = w :: rest ->
  exists i,
    l !! i = Some w
    /\ (forall j g, l !! j = Some g -> f g <= f w)
    /\ (forall j g, (j < i)%nat -> l !! j = Some g -> f g < f w).
Proof.
  revert w rest. unfold sorted_desc.
  induction l as [|x l IH]; intros w rest Hs; simpl in Hs; [done|].
  destruct (foldr (insert_desc f) [] l) as [|y s] eqn:E; simpl in Hs.
  - injection Hs as <- <-.
    assert (l = []) as ->.
    { apply Permutation_nil_r. rewrite <- (sorted_desc_perm l).
      unfold sorted_desc. by rewrite E. }
    exists 0%nat. split; [done|]. split.
    + intros [|j] g Hj; simpl in Hj; [injection Hj as <-; lia|done].
    + intros j g Hj. lia.
  - destruct (IH y s eq_refl) as (i & Hi & Hmax & Hfirst).
    destruct (Z.ltb_spec (f x) (f y)) as [Hlt|Hge]; injection Hs as <- <-.
    + exists (S i). split; [done|]. split.
      * intros [|j] g Hj; simpl in Hj; [injection Hj as <-; lia|by eapply Hmax].
      * intros [|j] g Hlt' Hj; simpl in Hj; [injection Hj as <-; lia|].
        eapply Hfirst; [|exact Hj]. lia.
    + exists 0%nat. split; [done|]. split.
      * intros [|j] g Hj; simpl in Hj; [injection Hj as <-; lia|].
        pose proof (Hmax j g Hj). lia.
      * intros j g Hj. lia.
Qed.

End Sorting.

(** X1: [get_winner] returns a group only when it leads: the group returned
    is one of the dictionary, every other group has at least [k] votes
    fewer, and a group that stands alone has at least [k] votes.  When it
    returns none and there are groups, the group with the most votes is
    either alone with fewer than [k] votes or has a rival within [k]. *)
Theorem get_winner_leads_by_k k d :
  match get_winner k d with
  | Some w =>
      exists rest,
        dict_values (groups d) ≡ₚ w :: rest
        /\ Forall (fun g => k <= votes w - votes g) rest
        /\ (rest = [] -> k <= votes w)
  | None =>
      groups d = []
      \/ exists top rest,
           dict_values (groups d) ≡ₚ top :: rest
           /\ Forall (fun g => votes g <= votes top) rest
           /\ (rest = [] /\ votes top < k
               \/ Exists (fun g => votes top - votes g < k) rest)
  end.
Proof.
  unfold get_winner.
  pose proof (sorted_desc_perm votes (dict_values (groups d))) as Hperm.
  pose proof (sorted_desc_descending votes (dict_values (groups d))) as Hdesc.
  destruct (sorted_desc votes (dict_values (groups d))) as [|leader rest] eqn:E.
  - left. symmetry in Hperm. apply Permutation_nil_r in Hperm.
    unfold dict_values in Hperm. by destruct (groups d).
  - destruct Hdesc as [Hall Hrest].
    destruct rest as [|second rest'].
    + rewrite Z.sub_0_r.
      destruct (Z.geb_spec (votes leader) k) as [Hge|Hlt].
      * exists []. split; [by symmetry|]. split; [constructor|]. intros _. lia.
      * right. exists leader, []. split; [by symmetry|].
        split; [constructor|]. left. split; [done|lia].
    + inversion Hall as [|? ? Hsecond _]; subst.
      destruct Hrest as [Hall2 _].
      destruct (Z.geb_spec (votes leader - votes second) k) as [Hge|Hlt].
      * exists (second :: rest'). split; [by symmetry|]. split; [|done].
        constructor; [lia|].
        eapply Forall_impl; [exact Hall2|]. simpl. intros. lia.
      * right. exists leader, (second :: rest'). split; [by symmetry|].
        split; [done|]. right. constructor. lia.
Qed.

End WinnerFacts.

(** ** The partition kept by the discriminator *)

Module GroupFacts.
Import Types Discriminator DiscriminatorFacts.

(** The candidates classified so far, group after group. *)
Definition all_members (d : DiscState) : list ref :=
  concat (map members (dict_values (groups d))).

(** What [classify] keeps true of the groups: they are named in order,
    the representative of a group is its first member, every member's
    object carries the id of its group, and no candidate is in two
    groups or twice in one. *)
Record well_grouped (d : DiscState) : Prop := {
  wg_named : named_in_order (groups d);
  wg_rep : forall g, g ∈ dict_values (groups d) ->
             head (members g) = Some (representative g);
  wg_ids : forall g r, g ∈ dict_values (groups d) -> r ∈ members g ->
             exists c, heap d !! r = Some c /\ group_id c = Some (id g);
  wg_nodup : NoDup (all_members d);
}.

Lemma elem_of_all_members d r :
  r ∈ all_members d <-> exists g, g ∈ dict_values (groups d) /\ r ∈ members g.
Proof.
  unfold all_members. induction (dict_values (groups d)) as [|g gs IH]; simpl.
  - split; [by intros H%elem_of_nil|]. intros (g & Hg & _). by apply elem_of_nil in Hg.
  - rewrite elem_of_app, IH. split.
    + intros [H|(g0 & Hg0 & Hr)]; [exists g; split; [by left|done]|].
      exists g0. split; [by right|done].
    + intros (g0 & Hg0 & Hr). apply elem_of_cons in Hg0 as [->|Hg0]; [by left|].
      right. by exists g0.
Qed.

Lemma values_alter_cases gs i c g :
  g ∈ dict_values (alter (on_value (add c)) i gs) ->
  (exists g0, dict_values gs !! i = Some g0 /\ g = add c g0)
  \/ g ∈ dict_values gs.
Proof.
  unfold dict_values. change (map snd ?l) with (snd <$> l).
  intros H. apply list_elem_of_lookup in H as [j Hj].
  rewrite list_lookup_fmap in Hj.
  destruct (decide (i = j)) as [->|Hne].
  - rewrite list_lookup_alter_eq in Hj.
    destruct (gs !! j) as [[k0 g0]|] eqn:E; simplify_eq/=.
    left. exists g0. by rewrite list_lookup_fmap, E.
  - rewrite list_lookup_alter_ne in Hj by done.
    right. apply list_elem_of_lookup. exists j. by rewrite list_lookup_fmap.
Qed.

Lemma members_alter_perm gs c : forall i g0,
  dict_values gs !! i = Some g0 ->
  concat (map members (dict_values (alter (on_value (add c)) i gs)))
  ≡ₚ c :: concat (map members (dict_values gs)).
Proof.
  induction gs as [|[k g] gs IH]; intros [|i] g0 Hi; simpl in *; try done.
  - injection Hi as ->. rewrite <- app_assoc. simpl.
    symmetry. apply Permutation_middle.
  - rewrite (IH i g0 Hi). by rewrite Permutation_middle.
Qed.

Lemma py_sum_votes gs :
  py_sum (map votes gs) = Z.of_nat (length (concat (map members gs))).
Proof.
  unfold py_sum.
  assert (H : forall acc, foldl Z.add acc (map votes gs)
                          = acc + Z.of_nat (length (concat (map members gs)))).
  { induction gs as [|g gs IH]; intros acc; simpl; [lia|].
    rewrite IH, length_app. unfold votes. lia. }
  rewrite H. lia.
Qed.

Section WithClient.
Variable compare_semantic : nat -> string -> string -> string -> outcome bool.

Local Abbreviation classify := (classify compare_semantic).
Local Abbreviation classify_batch := (classify_batch compare_semantic).

Lemma classify_sets_group_id candidate ctx d g' d' :
  (candidate < length (heap d))%nat ->
  classify candidate ctx d = (Returns g', d') ->
  exists c, heap d' !! candidate = Some c /\ group_id c = Some (id g').
Proof.
  intros Hc Hcl.
  destruct (lookup_lt_is_Some_2 (heap d) candidate Hc) as [c0 Hc0].
  unfold Discriminator.classify in Hcl.
  destruct (find_group compare_semantic candidate ctx d) as [r dm] eqn:Hf.
  apply find_group_frame in Hf as (_ & Hh & _).
  destruct r as [[[i g]|]|e]; [| |done]; injection Hcl as <- <-; simpl;
    rewrite list_lookup_alter_eq, Hh, Hc0; by eexists.
Qed.

(** Classifying a candidate that is in no group yet puts it in exactly
    one group, the one returned, and keeps the groups well formed. *)
Lemma classify_well_grouped candidate ctx d g' d' :
  well_grouped d ->
  (candidate < length (heap d))%nat ->
  candidate ∉ all_members d ->
  classify candidate ctx d = (Returns g', d') ->
  well_grouped d'
  /\ all_members d' ≡ₚ candidate :: all_members d
  /\ g' ∈ dict_values (groups d')
  /\ candidate ∈ members g'.
Proof.
  intros Hwg Hc Hfresh Hcl.
  pose proof (classify_returns_cases _ _ _ _ _ _ (wg_named _ Hwg) Hcl)
    as (dm & Hcases).
  pose proof (classify_frame _ _ _ _ _ _ Hcl) as [Hlen Hother].
  pose proof (classify_keeps_names _ _ _ _ _ _ (wg_named _ Hwg) Hcl) as Hnamed.
  pose proof (classify_sets_group_id _ _ _ _ _ Hc Hcl) as (c1 & Hc1 & Hgid).
  assert (Hperm : all_members d' ≡ₚ candidate :: all_members d).
  { unfold all_members.
    destruct Hcases as [(i & g & _ & Hi & _ & ->)|(_ & Hg' & ->)].
    - by apply members_alter_perm with (g0 := g).
    - unfold dict_values. rewrite !map_app, concat_app. simpl.
      rewrite Hg'. simpl. rewrite ?app_nil_r.
      symmetry. apply Permutation_cons_append. }
  assert (Hin : g' ∈ dict_values (groups d') /\ candidate ∈ members g').
  { destruct Hcases as [(i & g & _ & Hi & -> & Hgs)|(_ & Hg' & Hgs)].
    - split; [|apply elem_of_app; right; by apply list_elem_of_singleton].
      rewrite Hgs. unfold dict_values in *.
      change (map snd ?l) with (snd <$> l) in *.
      apply list_elem_of_lookup. exists i.
      rewrite list_lookup_fmap in Hi |- *. rewrite list_lookup_alter_eq.
      destruct (groups d !! i) as [[k0 g0]|]; simplify_eq/=. done.
    - split.
      + rewrite Hgs. unfold dict_values. rewrite map_app.
        apply elem_of_app. right. by apply list_elem_of_singleton.
      + rewrite Hg'. by apply list_elem_of_singleton. }
  split; [|done].
  split.
  - exact Hnamed.
  - intros g Hg.
    destruct Hcases as [(i & g0 & _ & Hi & _ & Hgs)|(_ & Hg' & Hgs)];
      rewrite Hgs in Hg.
    + apply values_alter_cases in Hg as [(g1 & Hi1 & ->)|Hg];
        [|by apply (wg_rep _ Hwg)].
      assert (Hg1 : g1 ∈ dict_values (groups d))
        by (apply list_elem_of_lookup; by exists i).
      pose proof (wg_rep _ Hwg g1 Hg1) as Hh. simpl.
      destruct (members g1); [done|]. done.
    + unfold dict_values in Hg. rewrite map_app in Hg.
      apply elem_of_app in Hg as [Hg|Hg]; [by apply (wg_rep _ Hwg)|].
      apply list_elem_of_singleton in Hg. subst g. by rewrite Hg'.
  - intros g r Hg Hr.
    assert (Hcase : r = candidate /\ id g = id g'
                    \/ r <> candidate
                       /\ exists g0, g0 ∈ dict_values (groups d)
                                     /\ r ∈ members g0 /\ id g0 = id g).
    { destruct Hcases as [(i & g0 & _ & Hi & Hg'eq & Hgs)|(_ & Hg' & Hgs)];
        rewrite Hgs in Hg.
      - assert (Hg0 : g0 ∈ dict_values (groups d))
          by (apply list_elem_of_lookup; by exists i).
        apply values_alter_cases in Hg as [(g1 & Hi1 & ->)|Hg].
        + rewrite Hi in Hi1. injection Hi1 as <-.
          simpl in Hr. apply elem_of_app in Hr as [Hr|Hr].
          * right. split.
            -- intros ->. apply Hfresh. apply elem_of_all_members. by exists g0.
            -- by exists g0.
          * apply list_elem_of_singleton in Hr. left. by subst.
        + right. split.
          * intros ->. apply Hfresh. apply elem_of_all_members. by exists g.
          * by exists g.
      - unfold dict_values in Hg. rewrite map_app in Hg.
        apply elem_of_app in Hg as [Hg|Hg].
        + right. split.
          * intros ->. apply Hfresh. apply elem_of_all_members. by exists g.
          * by exists g.
        + apply list_elem_of_singleton in Hg. subst g.
          rewrite Hg' in Hr. simpl in Hr.
          apply list_elem_of_singleton in Hr. by left. }
    destruct Hcase as [[-> Hid]|(Hne & g0 & Hg0 & Hr0 & Hid)].
    + exists c1. by rewrite Hid.
    + rewrite (Hother r Hne), <- Hid. by apply (wg_ids _ Hwg).
  - rewrite Hperm. apply NoDup_cons. split; [done|]. by apply (wg_nodup _ Hwg).
Qed.

(** X2: [classify_batch] on candidates that are distinct and in no group:
    every one of them ends in exactly one group whose id its object
    carries, the total of the votes grows by their number, and no group
    is empty, so there are at most as many groups as votes. *)
Theorem classify_batch_partitions candidates ctx : forall d gs' d',
  well_grouped d ->
  NoDup candidates ->
  (forall c, c ∈ candidates ->
     (c < length (heap d))%nat /\ c ∉ all_members d) ->
  classify_batch candidates ctx d = (Returns gs', d') ->
  well_grouped d'
  /\ gs' = groups d'
  /\ all_members d' ≡ₚ all_members d ++ candidates
  /\ total_candidates (stats d')
     = total_candidates (stats d) + Z.of_nat (length candidates)
  /\ stats_groups (stats d') <= total_candidates (stats d')
  /\ (forall c, c ∈ candidates ->
        exists g obj, g ∈ dict_values (groups d') /\ c ∈ members g
                      /\ heap d' !! c = Some obj /\ group_id obj = Some (id g)).
Proof.
  assert (Hgroups : forall d, well_grouped d ->
            stats_groups (stats d) <= total_candidates (stats d)).
  { intros d Hwg. simpl. rewrite py_sum_votes.
    pose proof (wg_rep _ Hwg) as Hrep. unfold dict_values in *.
    induction (groups d) as [|[k g] gs IH]; simpl; [lia|].
    rewrite length_app.
    assert (Hg : head (members g) = Some (representative g))
      by (apply Hrep; simpl; by left).
    assert (1 <= length (members g))%nat by (destruct (members g); simpl; [done|lia]).
    assert (Z.of_nat (length gs)
            <= Z.of_nat (length (concat (map members (map snd gs))))).
    { apply IH. intros g1 Hg1. apply Hrep. simpl. by right. }
    lia. }
  assert (Hmember : forall d c, well_grouped d -> c ∈ all_members d ->
            exists g obj, g ∈ dict_values (groups d) /\ c ∈ members g
                          /\ heap d !! c = Some obj /\ group_id obj = Some (id g)).
  { intros d c Hwg Hc. apply elem_of_all_members in Hc as (g & Hg & Hr).
    destruct (wg_ids _ Hwg g c Hg Hr) as (obj & Ho & Hid). by exists g, obj. }
  induction candidates as [|c cs IH]; intros d gs' d' Hwg Hnd Hfresh Hb;
    simpl in Hb.
  - injection Hb as <- <-. rewrite app_nil_r. simpl.
    split; [done|]. split; [done|]. split; [done|]. split; [lia|].
    split; [by apply Hgroups|].
    intros c Hc. by apply elem_of_nil in Hc.
  - destruct (classify c ctx d) as [r d1] eqn:Hcl.
    destruct r as [g1|e]; [|done].
    destruct (Hfresh c ltac:(by left)) as [Hlt Hnot].
    destruct (classify_well_grouped _ _ _ _ _ Hwg Hlt Hnot Hcl)
      as (Hwg1 & Hperm1 & _ & _).
    pose proof (classify_frame _ _ _ _ _ _ Hcl) as [Hlen1 _].
    apply NoDup_cons in Hnd as [Hc_cs Hnd].
    destruct (IH d1 gs' d' Hwg1 Hnd) as (Hwg' & Hgs & Hperm & Hsum & Hle & Hall);
      [|exact Hb|].
    { intros c0 Hc0. destruct (Hfresh c0 ltac:(by right)) as [Hlt0 Hnot0].
      split; [by rewrite Hlen1|].
      rewrite Hperm1. intros Hin. apply elem_of_cons in Hin as [->|Hin]; done. }
    assert (Hperm' : all_members d' ≡ₚ all_members d ++ c :: cs).
    { rewrite Hperm, Hperm1. simpl. by rewrite Permutation_middle. }
    split; [done|]. split; [done|]. split; [done|].
    split; [|split; [done|]].
    + simpl in *. rewrite !py_sum_votes in *.
      fold (all_members d') (all_members d) (all_members d1) in *.
      rewrite Hperm', length_app. simpl. lia.
    + intros c0 Hc0. apply Hmember; [done|].
      rewrite Hperm'. apply elem_of_app. by right.
Qed.

End WithClient.

End GroupFacts.

(** ** The comparison cache *)

Module CacheFacts.
Import Types Discriminator DiscriminatorFacts.

(** The cache answers a pair and the swapped pair alike. *)
Definition cache_symmetric (d : DiscState) : Prop :=
  forall a b, _comparison_cache d !! (a, b) = _comparison_cache d !! (b, a).

Lemma reset_cache_symmetric d : cache_symmetric (reset d).
Proof. intros a b. simpl. by rewrite !lookup_empty. Qed.

Section WithClient.
Variable compare_semantic : nat -> string -> string -> string -> outcome bool.

Local Abbreviation compare := (compare compare_semantic).
Local Abbreviation find_group_from := (find_group_from compare_semantic).
Local Abbreviation classify := (classify compare_semantic).

Lemma compare_cache_symmetric code_a code_b ctx d r d' :
  cache_symmetric d ->
  compare code_a code_b ctx d = (r, d') ->
  cache_symmetric d'.
Proof.
  intros Hsym Hc. unfold Discriminator.compare in Hc.
  destruct (_comparison_cache d !! _cache_key code_a code_b) as [cached|];
    [by injection Hc as _ <-|].
  destruct (compare_semantic (cmp_calls d) code_a code_b ctx) as [result|e];
    injection Hc as _ <-; [|exact Hsym].
  intros a b. simpl. unfold _cache_key.
  rewrite !lookup_insert.
  repeat case_decide; simplify_eq; try done; apply Hsym.
Qed.

Lemma find_group_from_cache_symmetric gs : forall i candidate ctx d r d',
  cache_symmetric d ->
  find_group_from i gs candidate ctx d = (r, d') ->
  cache_symmetric d'.
Proof.
  induction gs as [|g gs IH]; intros i candidate ctx d r d' Hsym Hf;
    simpl in Hf.
  - by injection Hf as _ <-.
  - destruct (compare (code_of (heap d) candidate)
                (code_of (heap d) (representative g)) ctx d) as [r0 d0] eqn:Hc.
    apply compare_cache_symmetric in Hc; [|done].
    destruct r0 as [[|]|e]; try by injection Hf as _ <-.
    by eapply IH.
Qed.

Lemma classify_cache_symmetric candidate ctx d r d' :
  cache_symmetric d ->
  classify candidate ctx d = (r, d') ->
  cache_symmetric d'.
Proof.
  intros Hsym Hcl. unfold Discriminator.classify, find_group in Hcl.
  destruct (find_group_from 0 (dict_values (groups d)) candidate ctx d)
    as [r0 d0] eqn:Hf.
  apply find_group_from_cache_symmetric in Hf; [|done].
  destruct r0 as [[[i g]|]|e]; injection Hcl as _ <-; exact Hf.
Qed.

(** X3: An answer is asked of the client once: after [compare] has returned
    an answer for two codes, [compare] on the same two codes, in either
    order, with any surrounding white space and in any context, returns
    that answer from the cache, and neither the client nor the
    discriminator is touched.  A comparison that raised is not
    remembered. *)
Theorem compare_answers_from_cache code_a code_b ctx d r d1 :
  cache_symmetric d ->
  compare code_a code_b ctx d = (r, d1) ->
  cache_symmetric d1
  /\ match r with
     | Returns answer =>
         forall code_a' code_b' ctx',
           PyStr.strip code_a' = PyStr.strip code_a ->
           PyStr.strip code_b' = PyStr.strip code_b ->
           compare code_a' code_b' ctx' d1 = (Returns answer, d1)
           /\ compare code_b' code_a' ctx' d1 = (Returns answer, d1)
     | Raises _ =>
         _comparison_cache d1 = _comparison_cache d
         /\ cmp_calls d1 = S (cmp_calls d)
     end.
Proof.
  intros Hsym Hc. split; [by eapply compare_cache_symmetric|].
  assert (Hhit : forall answer,
            _comparison_cache d1 !! (PyStr.strip code_a, PyStr.strip code_b)
              = Some answer ->
            cache_symmetric d1 ->
            forall code_a' code_b' ctx',
              PyStr.strip code_a' = PyStr.strip code_a ->
              PyStr.strip code_b' = PyStr.strip code_b ->
              compare code_a' code_b' ctx' d1 = (Returns answer, d1)
              /\ compare code_b' code_a' ctx' d1 = (Returns answer, d1)).
  { intros answer Hl Hs1 a' b' ctx' Ha Hb.
    unfold Discriminator.compare, _cache_key. rewrite Ha, Hb.
    rewrite <- (Hs1 (PyStr.strip code_a) (PyStr.strip code_b)). by rewrite Hl. }
  pose proof (compare_cache_symmetric _ _ _ _ _ _ Hsym Hc) as Hsym1.
  unfold Discriminator.compare in Hc.
  destruct (_comparison_cache d !! _cache_key code_a code_b) as [cached|] eqn:Hl.
  - injection Hc as <- <-. by apply Hhit.
  - destruct (compare_semantic (cmp_calls d) code_a code_b ctx) as [result|e];
      injection Hc as <- <-; [|done].
    apply Hhit; [|done]. simpl. unfold _cache_key.
    rewrite lookup_insert. case_decide; [done|].
    by rewrite lookup_insert_eq.
Qed.

End WithClient.

End CacheFacts.

(** ** The result of a vote *)

Module VoteResultFacts.
Import Types Discriminator Voter DiscriminatorFacts VoterFacts GroupFacts WinnerFacts.

(** A dictionary comprehension over groups named in order lists the
    groups in insertion order. *)
Lemma comprehension_named {V} (F : SemanticGroup -> V) gs :
  named_in_order gs ->
  foldl (fun acc g => dict_set (Discriminator.id g) (F g) acc) [] (dict_values gs)
  = map (fun kv => (fst kv, F (snd kv))) gs.
Proof.
  intros Hn.
  assert (H : forall post pre, gs = pre ++ post ->
            foldl (fun acc g => dict_set (Discriminator.id g) (F g) acc)
              (map (fun kv => (fst kv, F (snd kv))) pre) (dict_values post)
            = map (fun kv => (fst kv, F (snd kv))) (pre ++ post)).
  { induction post as [|kv post IH]; intros pre Hgs; simpl.
    - by rewrite app_nil_r.
    - assert (Hkv : gs !! length pre = Some kv).
      { rewrite Hgs. by rewrite lookup_app_r, Nat.sub_diag. }
      destruct (Hn _ _ Hkv) as [Hk Hid].
      rewrite dict_set_fresh.
      + rewrite Hid, <- Hk.
        replace (pre ++ kv :: post) with ((pre ++ [kv]) ++ post)
          by (by rewrite <- app_assoc).
        rewrite <- (IH (pre ++ [kv])) by (by rewrite <- app_assoc).
        by rewrite map_app.
      + intros kv' Hin E. apply list_elem_of_fmap in Hin as (kv0 & -> & Hin0).
        simpl in E. apply list_elem_of_lookup in Hin0 as [i Hi].
        assert (Hi' : gs !! i = Some kv0).
        { rewrite Hgs. rewrite lookup_app_l; [done|]. by eapply lookup_lt_Some. }
        destruct (Hn _ _ Hi') as [Hk0 _]. rewrite Hk0, Hid in E.
        apply group_name_inj in E. apply lookup_lt_Some in Hi. lia. }
  exact (H gs [] eq_refl).
Qed.

Lemma dict_get_named {V} (F : SemanticGroup -> V) gs i kv :
  named_in_order gs ->
  gs !! i = Some kv ->
  dict_get (fst kv) (map (fun kv => (fst kv, F (snd kv))) gs) = Some (F (snd kv)).
Proof.
  intros Hn Hi.
  assert (H : forall post pre, gs = pre ++ post ->
            (length pre <= i)%nat ->
            dict_get (fst kv) (map (fun kv => (fst kv, F (snd kv))) post)
            = Some (F (snd kv))).
  { induction post as [|kv0 post IH]; intros pre Hgs Hle.
    - exfalso. rewrite app_nil_r in Hgs. subst pre.
      apply lookup_lt_Some in Hi. lia.
    - simpl.
      assert (Hkv0 : gs !! length pre = Some kv0).
      { rewrite Hgs. by rewrite lookup_app_r, Nat.sub_diag. }
      destruct (decide (length pre = i)) as [<-|Hne].
      + rewrite Hi in Hkv0. injection Hkv0 as <-. by rewrite String.eqb_refl.
      + destruct (String.eqb_spec (fst kv0) (fst kv)) as [E|_].
        * exfalso. rewrite (proj1 (Hn _ _ Hkv0)), (proj1 (Hn _ _ Hi)) in E.
          by apply group_name_inj in E.
        * apply (IH (pre ++ [kv0])); [by rewrite <- app_assoc|].
          rewrite length_app. simpl. lia. }
  apply (H gs []); [done|simpl; lia].
Qed.

Lemma group_name_not_empty n : group_name n <> "".
Proof. unfold group_name. done. Qed.

Lemma well_grouped_heap d d' :
  well_grouped d ->
  groups d' = groups d ->
  (forall r c, heap d !! r = Some c -> heap d' !! r = Some c) ->
  well_grouped d'.
Proof.
  intros [Hn Hrep Hids Hnd] Hg Hh.
  split; unfold all_members in *; rewrite Hg; try done.
  intros g r Hgin Hr. destruct (Hids g r Hgin Hr) as (c & Hc & Hid).
  exists c. split; [by apply Hh|done].
Qed.

Lemma members_in_heap d r :
  well_grouped d -> r ∈ all_members d -> (r < length (heap d))%nat.
Proof.
  intros Hwg Hr. apply elem_of_all_members in Hr as (g & Hg & Hr).
  destruct (wg_ids _ Hwg g r Hg Hr) as (c & Hc & _). by eapply lookup_lt_Some.
Qed.

Section WithEnv.
Variable generator : nat -> outcome LLMResponse.
Variable compare_semantic : nat -> string -> string -> string -> outcome bool.
Variable uuid4 : nat -> string.
Variable ast_parse : string -> RedFlag.parse_result.
Variable config : MDAPConfig.

Local Abbreviation vote_body := (vote_body generator compare_semantic uuid4 ast_parse config).
Local Abbreviation vote_loop := (vote_loop generator compare_semantic uuid4 ast_parse config).
Local Abbreviation vote := (vote generator compare_semantic uuid4 ast_parse config).
Local Abbreviation check := (RedFlag.check ast_parse config).
Local Abbreviation classify := (classify compare_semantic).
Local Abbreviation vote_inv := (vote_inv ast_parse config).
Local Abbreviation accepted := (accepted ast_parse config).

Lemma classify_heap candidate ctx d r d' :
  classify candidate ctx d = (r, d') ->
  heap d' = match r with
            | Returns g' => alter (set_group_id (Some (Discriminator.id g'))) candidate (heap d)
            | Raises _ => heap d
            end.
Proof.
  intros Hcl. unfold Discriminator.classify in Hcl.
  destruct (find_group compare_semantic candidate ctx d) as [r0 dm] eqn:Hf.
  apply find_group_frame in Hf as (_ & Hh & _).
  destruct r0 as [[[i g]|]|e]; injection Hcl as <- <-; simpl; by rewrite Hh.
Qed.

(** *** Induction along the loop *)

Lemma vote_loop_returns_ind (P : VoteState -> Prop) language k max_samples :
  (forall st st', P st -> loop_cond max_samples st = true ->
     vote_body language k st = (Returns tt, st') -> P st') ->
  forall fuel st st', P st ->
    vote_loop fuel language k max_samples st = Some (Returns tt, st') ->
    P st' /\ loop_cond max_samples st' = false.
Proof.
  intros Hstep.
  induction fuel as [|fuel IH]; intros st st' HP Hl; simpl in Hl.
  - destruct (loop_cond max_samples st) eqn:Hc; [done|]. by injection Hl as <-.
  - destruct (loop_cond max_samples st) eqn:Hc; [|by injection Hl as <-].
    destruct (vote_body language k st) as [r0 st0] eqn:Hb.
    destruct r0 as [[]|e]; [|done].
    eapply IH; [|exact Hl]. by eapply Hstep.
Qed.

Lemma vote_loop_any_ind (P : VoteState -> Prop) language k max_samples :
  (forall st r st', P st -> loop_cond max_samples st = true ->
     vote_body language k st = (r, st') -> P st') ->
  forall fuel st r st', P st ->
    vote_loop fuel language k max_samples st = Some (r, st') ->
    P st'.
Proof.
  intros Hstep.
  induction fuel as [|fuel IH]; intros st r st' HP Hl; simpl in Hl.
  - destruct (loop_cond max_samples st) eqn:Hc; [done|]. by injection Hl as _ <-.
  - destruct (loop_cond max_samples st) eqn:Hc; [|by injection Hl as _ <-].
    destruct (vote_body language k st) as [r0 st0] eqn:Hb.
    pose proof (Hstep _ _ _ HP Hc Hb) as HP0.
    destruct r0 as [[]|e].
    + by eapply IH.
    + by injection Hl as _ <-.
Qed.

(** *** What the loop keeps true of the groups *)

Record result_inv (k : Z) (st : VoteState) : Prop := {
  ri_groups : well_grouped (disc st);
  ri_members : all_members (disc st) ≡ₚ valid_samples (session st);
  ri_valid : forall r, r ∈ valid_samples (session st) ->
               exists c, heap (disc st) !! r = Some c
                         /\ is_valid c = true /\ red_flag_reason c = None;
  ri_winner : if is_complete (session st)
              then exists w, winner (session st) = Some w
                             /\ get_winner k (disc st) = Some w
              else winner (session st) = None;
}.

Lemma result_inv_body language k max_samples st st' :
  result_inv k st ->
  loop_cond max_samples st = true ->
  vote_body language k st = (Returns tt, st') ->
  result_inv k st'.
Proof.
  intros [Hwg Hmem Hval Hwin] Hcond Hb.
  unfold loop_cond in Hcond. apply andb_true_iff in Hcond as [_ Hnc].
  apply negb_true_iff in Hnc. rewrite Hnc in Hwin.
  unfold Voter.vote_body in Hb.
  destruct (generator (gen_calls st)) as [response|e] eqn:Hg.
  2:{ injection Hb as <-. split; simpl; try done. by rewrite Hnc. }
  set (c := length (heap (disc st))) in *.
  set (candidate := new_candidate (uuid4 c) response) in *.
  assert (Hkeep : forall r x, heap (disc st) !! r = Some x ->
                    (heap (disc st) ++ [candidate]) !! r = Some x).
  { intros r x Hr. rewrite lookup_app_l; [done|]. by eapply lookup_lt_Some. }
  destruct (RedFlag.passed (check candidate language)) eqn:Hp; simpl in Hb.
  - set (d1 := {| heap := heap (disc st) ++ [candidate];
                  groups := groups (disc st);
                  _comparison_cache := _comparison_cache (disc st);
                  cmp_calls := cmp_calls (disc st) |}) in *.
    destruct (classify c (context (session st)) d1) as [r0 d2] eqn:Hcl.
    injection Hb as Hr0 <-. destruct r0 as [g'|e]; [|done].
    assert (Hwg1 : well_grouped d1) by (by apply (well_grouped_heap (disc st))).
    assert (Hlt : (c < length (heap d1))%nat)
      by (simpl; rewrite length_app; simpl; unfold c; lia).
    assert (Hfresh : c ∉ all_members d1).
    { intros Hin. apply (members_in_heap (disc st)) in Hin; [|done].
      unfold c in Hin. lia. }
    destruct (classify_well_grouped _ _ _ _ _ _ Hwg1 Hlt Hfresh Hcl)
      as (Hwg2 & Hperm & _ & _).
    pose proof (classify_heap _ _ _ _ _ Hcl) as Hh2. simpl in Hh2.
    split; simpl.
    + exact Hwg2.
    + rewrite Hperm. change (all_members d1) with (all_members (disc st)).
      rewrite Hmem. apply Permutation_cons_append.
    + intros r Hr. rewrite Hh2. apply elem_of_app in Hr as [Hr|Hr].
      * destruct (Hval r Hr) as (x & Hx & Hv).
        exists x. split; [|done].
        rewrite list_lookup_alter_ne; [by apply Hkeep|].
        apply lookup_lt_Some in Hx. unfold c. lia.
      * apply list_elem_of_singleton in Hr. subst r.
        rewrite list_lookup_alter_eq. unfold c. rewrite lookup_last. simpl.
        by eexists.
    + destruct (get_winner k d2) as [w|]; [by exists w|]. by rewrite Hnc.
  - injection Hb as <-. split; simpl.
    + apply (well_grouped_heap (disc st)); [done..|].
      intros r x Hr. simpl. rewrite list_lookup_alter_ne; [by apply Hkeep|].
      apply lookup_lt_Some in Hr. unfold c. lia.
    + exact Hmem.
    + intros r Hr. destruct (Hval r Hr) as (x & Hx & Hv).
      exists x. split; [|done].
      rewrite list_lookup_alter_ne; [by apply Hkeep|].
      apply lookup_lt_Some in Hx. unfold c. lia.
    + by rewrite Hnc.
Qed.

Lemma result_inv_start k s ctx d0 :
  result_inv k {| disc := reset d0; session := new_session s ctx; gen_calls := 0 |}.
Proof.
  assert (Hwg : well_grouped (reset d0)).
  { split; simpl.
    - intros i kv H. by rewrite lookup_nil in H.
    - intros g H. by apply elem_of_nil in H.
    - intros g r H. by apply elem_of_nil in H.
    - apply NoDup_nil_2. }
  split; simpl; [exact Hwg|done| |done].
  intros r H. by apply elem_of_nil in H.
Qed.

(** The state of a [vote] that returns a result: the loop ended in a
    state [st1] where the invariants hold, the result lists the groups
    of the discriminator in insertion order, and the winner is the
    representative of the group that sorts first. *)
Lemma vote_returns_state fuel s ctx language k max_samples d0 res st :
  vote fuel s ctx language k max_samples d0 = Some (Returns res, st) ->
  let k' := py_or k (Types.k config) in
  let gs := groups (disc st) in
  exists w rest,
    well_grouped (disc st)
    /\ all_members (disc st) ≡ₚ valid_samples (session st)
    /\ (forall r, r ∈ valid_samples (session st) ->
          exists c, heap (disc st) !! r = Some c
                    /\ is_valid c = true /\ red_flag_reason c = None)
    /\ vote_inv language st
    /\ sorted_desc votes (dict_values gs) = w :: rest
    /\ Types.winner res = representative w
    /\ Types.groups res = map (fun kv => (fst kv, members (snd kv))) gs
    /\ votes_per_group res = map (fun kv => (fst kv, votes (snd kv))) gs
    /\ total_samples res = Z.of_nat (length (samples (session st))).
Proof.
  intros Hv k' gs. unfold Voter.vote in Hv. fold k' in Hv.
  set (bound := py_or max_samples (Types.max_samples config)) in *.
  set (st0 := {| disc := reset d0; session := new_session s ctx;
                 gen_calls := 0 |}) in *.
  destruct (vote_loop fuel language k' bound st0) as [[r1 st1]|] eqn:Hl; [|done].
  destruct r1 as [[]|e]; [|done].
  assert (Hi0 : vote_inv language st0).
  { split; simpl; intros; try done;
      match goal with
      | H : _ ∈ [] |- _ => by apply elem_of_nil in H
      | H : [] !! _ = Some _ |- _ => by rewrite lookup_nil in H
      end. }
  pose proof (vote_inv_loop _ _ _ _ _ _ _ _ _ _ _ Hi0 Hl) as Hvi.
  destruct (vote_loop_returns_ind (result_inv k') language k' bound
              (fun st st' H => result_inv_body language k' bound st st' H)
              fuel st0 st1 (result_inv_start k' s ctx d0) Hl) as [Hri _].
  injection Hv as Hv. unfold build_result in Hv.
  pose proof (ri_winner _ _ Hri) as Hwin.
  pose proof (wg_named _ (ri_groups _ _ Hri)) as Hn.
  assert (Hsorted : forall w,
            match winner (session st1) with
            | Some w => Some w
            | None => match sorted_desc votes (dict_values (groups (disc st1))) with
                      | top :: _ => Some top
                      | [] => None
                      end
            end = Some w ->
            exists rest, sorted_desc votes (dict_values (groups (disc st1))) = w :: rest).
  { intros w Hw. destruct (is_complete (session st1)).
    - destruct Hwin as (w0 & Hw0 & Hg). rewrite Hw0 in Hw. injection Hw as <-.
      unfold get_winner in Hg.
      destruct (sorted_desc votes (dict_values (groups (disc st1))))
        as [|leader rest]; [done|].
      destruct (_ >=? _); [|done]. injection Hg as <-. by exists rest.
    - rewrite Hwin in Hw.
      destruct (sorted_desc votes (dict_values (groups (disc st1))))
        as [|leader rest]; [done|].
      injection Hw as <-. by exists rest. }
  destruct (match winner (session st1) with
            | Some w => Some w
            | None => match sorted_desc votes (dict_values (groups (disc st1))) with
                      | top :: _ => Some top
                      | [] => None
                      end
            end) as [w|] eqn:Hch; [|done].
  destruct (Hsorted w eq_refl) as [rest Hs].
  injection Hv as <- <-. subst gs. simpl.
  exists w, rest.
  destruct Hri as [H1 H2 H3 H4].
  split; [done|]. split; [done|]. split; [done|].
  split.
  { destruct Hvi as [I1 I2 I3 I4 I5 I6]. by split. }
  split; [done|]. split; [done|].
  unfold members_dict, votes_dict.
  by rewrite !(comprehension_named _ _ Hn).
Qed.

(** X4: In the result of a [vote] the groups partition the samples that
    passed the filter: every such sample is in exactly one group, no
    group is empty, the objects of the members of a group carry the
    group's id and are still marked valid, [votes_per_group] has the
    same keys in the same order and gives each group the number of its
    members, and the votes add up to the samples the filter accepted,
    [total_samples] less the rejected ones.  The samples that passed
    are the samples whose object [RedFlag.check] accepts, the rejected
    ones those whose object it rejects: a sample is a member of some
    group of the result exactly when [RedFlag.check] accepts its
    object, and the votes add up to the number of those samples. *)
Theorem vote_groups_partition_valid_samples fuel s ctx language k max_samples d0 res st :
  vote fuel s ctx language k max_samples d0 = Some (Returns res, st) ->
  let valid := valid_samples (session st) in
  NoDup valid
  /\ concat (map snd (Types.groups res)) ≡ₚ valid
  /\ dict_keys (votes_per_group res) = dict_keys (Types.groups res)
  /\ (forall gid ms, (gid, ms) ∈ Types.groups res ->
        ms <> []
        /\ dict_get gid (votes_per_group res) = Some (Z.of_nat (length ms))
        /\ forall r, r ∈ ms ->
             exists c, heap (disc st) !! r = Some c
                       /\ group_id c = Some gid
                       /\ is_valid c = true /\ red_flag_reason c = None)
  /\ py_sum (dict_values (votes_per_group res)) = Z.of_nat (length valid)
  /\ py_sum (dict_values (votes_per_group res))
     = total_samples res - Z.of_nat (length (invalid_samples (session st)))
  /\ total_samples res = Z.of_nat (length (samples (session st)))
  /\ valid = List.filter (accepted language (heap (disc st))) (samples (session st))
  /\ invalid_samples (session st)
     = List.filter (fun r => negb (accepted language (heap (disc st)) r))
         (samples (session st))
  /\ (forall r, r ∈ samples (session st) ->
        exists c,
          heap (disc st) !! r = Some c
          /\ (RedFlag.passed (check c language) = true <->
              exists gid ms, (gid, ms) ∈ Types.groups res /\ r ∈ ms)
          /\ (RedFlag.passed (check c language) = false <->
              r ∈ invalid_samples (session st)))
  /\ (forall gid ms r, (gid, ms) ∈ Types.groups res -> r ∈ ms ->
        r ∈ samples (session st)
        /\ exists c, heap (disc st) !! r = Some c
                     /\ RedFlag.passed (check c language) = true)
  /\ py_sum (dict_values (votes_per_group res))
     = Z.of_nat (length (List.filter (accepted language (heap (disc st)))
                           (samples (session st)))).
Proof.
  intros Hv valid.
  pose proof (vote_filter_inv _ _ _ _ _ _ _ _ _ _ _ _ _ _ Hv) as Hfi.
  destruct (vote_returns_state _ _ _ _ _ _ _ _ _ Hv)
    as (w & rest & Hwg & Hmem & Hval & Hvi & _ & _ & Hgs & Hvs & Htot).
  pose proof (wg_named _ Hwg) as Hn.
  assert (Hall : concat (map snd (Types.groups res)) = all_members (disc st)).
  { rewrite Hgs. unfold all_members, dict_values. by rewrite !map_map. }
  assert (Hsum : py_sum (dict_values (votes_per_group res))
                 = Z.of_nat (length valid)).
  { rewrite Hvs. unfold dict_values. rewrite map_map. simpl.
    rewrite <- (map_map snd votes), py_sum_votes.
    fold (dict_values (groups (disc st))). fold (all_members (disc st)).
    by rewrite Hmem. }
  assert (Hgroup : forall r,
            (exists gid ms, (gid, ms) ∈ Types.groups res /\ r ∈ ms)
            <-> r ∈ valid_samples (session st)).
  { intros r. rewrite <- Hmem, elem_of_all_members, Hgs. split.
    - intros (gid & ms & Hin & Hr).
      apply list_elem_of_fmap in Hin as ([key g] & [= -> ->] & Hin).
      exists g. split; [|done]. apply list_elem_of_fmap. by exists (key, g).
    - intros (g & Hg & Hr).
      apply list_elem_of_fmap in Hg as ([key g'] & Heq & Hin). simpl in Heq.
      subst g'. exists key, (members g). split; [|done].
      apply list_elem_of_fmap. by exists (key, g). }
  split; [|split; [|split; [|split; [|split; [|split; [|split; [|split;
    [|split; [|split; [|split]]]]]]]]]].
  - unfold valid. rewrite <- Hmem. apply (wg_nodup _ Hwg).
  - by rewrite Hall.
  - rewrite Hgs, Hvs. unfold dict_keys. by rewrite !map_map.
  - intros gid ms Hin. rewrite Hgs in Hin.
    apply list_elem_of_lookup in Hin as [i Hi].
    change (map ?f ?l) with (f <$> l) in Hi. rewrite list_lookup_fmap in Hi.
    destruct (groups (disc st) !! i) as [kv|] eqn:Hkv; [|done].
    injection Hi as <- <-.
    assert (Hg : snd kv ∈ dict_values (groups (disc st))).
    { apply list_elem_of_lookup. exists i. unfold dict_values.
      change (map ?f ?l) with (f <$> l). by rewrite list_lookup_fmap, Hkv. }
    destruct (Hn i kv Hkv) as [Hk Hid].
    split; [|split].
    + pose proof (wg_rep _ Hwg _ Hg) as Hh. by destruct (members (snd kv)).
    + rewrite Hvs. by rewrite (dict_get_named votes _ i kv Hn Hkv).
    + intros r Hr. destruct (wg_ids _ Hwg _ r Hg Hr) as (c & Hc & Hgid).
      exists c. split; [done|]. split; [by rewrite Hgid, Hid, Hk|].
      assert (Hrv : r ∈ valid_samples (session st)).
      { rewrite <- Hmem. apply elem_of_all_members. by exists (snd kv). }
      destruct (Hval r Hrv) as (c' & Hc' & Hv').
      rewrite Hc in Hc'. by injection Hc' as <-.
  - exact Hsum.
  - rewrite Hsum, Htot. pose proof (inv_split _ _ _ _ Hvi) as Hsp.
    unfold valid. lia.
  - rewrite Htot. pose proof (inv_split _ _ _ _ Hvi) as Hsp. lia.
  - exact (fi_valid _ _ _ _ _ Hfi).
  - exact (fi_invalid _ _ _ _ _ Hfi).
  - intros r Hr.
    destruct (filter_inv_sample_cases _ _ _ _ _ _ Hfi Hr) as (c & Hc & Hyes & Hno).
    exists c. split; [exact Hc|]. split; [|exact Hno].
    by rewrite Hgroup.
  - intros gid ms r Hin Hr.
    assert (Hrv : r ∈ valid_samples (session st)).
    { apply Hgroup. by exists gid, ms. }
    assert (Hrs : r ∈ samples (session st)).
    { rewrite (fi_valid _ _ _ _ _ Hfi) in Hrv.
      apply list_elem_of_In, List.filter_In in Hrv as [Hrv _].
      by apply list_elem_of_In. }
    split; [exact Hrs|].
    destruct (filter_inv_sample_cases _ _ _ _ _ _ Hfi Hrs) as (c & Hc & Hyes & _).
    exists c. split; [exact Hc|]. by apply Hyes.
  - rewrite Hsum. unfold valid. by rewrite (fi_valid _ _ _ _ _ Hfi).
Qed.

(** X5: The winner of a [vote] is the first member of the first group, in
    the order of creation, that has the most members: no group has more
    members and every earlier group has fewer.  [winner_votes] of the
    result is the number of members of that group, so it is at least 1
    and no entry of [votes_per_group] exceeds it. *)
Theorem vote_winner_leads fuel s ctx language k max_samples d0 res st :
  vote fuel s ctx language k max_samples d0 = Some (Returns res, st) ->
  exists i gid ms,
    Types.groups res !! i = Some (gid, ms)
    /\ head ms = Some (Types.winner res)
    /\ (forall j gid' ms', Types.groups res !! j = Some (gid', ms') ->
          (length ms' <= length ms)%nat)
    /\ (forall j gid' ms', (j < i)%nat ->
          Types.groups res !! j = Some (gid', ms') ->
          (length ms' < length ms)%nat)
    /\ winner_votes (heap (disc st)) res = Z.of_nat (length ms)
    /\ 1 <= winner_votes (heap (disc st)) res
    /\ (forall gid' v, (gid', v) ∈ votes_per_group res ->
          v <= winner_votes (heap (disc st)) res).
Proof.
  intros Hv.
  destruct (vote_returns_state _ _ _ _ _ _ _ _ _ Hv)
    as (w & rest & Hwg & _ & _ & _ & Hs & Hw & Hgs & Hvs & _).
  pose proof (wg_named _ Hwg) as Hn.
  destruct (sorted_desc_head votes _ _ _ Hs) as (i & Hi & Hmax & Hfirst).
  unfold dict_values in Hi, Hmax, Hfirst.
  change (map ?f ?l) with (f <$> l) in Hi, Hmax, Hfirst.
  rewrite list_lookup_fmap in Hi.
  destruct (groups (disc st) !! i) as [kv|] eqn:Hkv; [|done].
  injection Hi as Hkvw.
  assert (Hg : w ∈ dict_values (groups (disc st))).
  { apply list_elem_of_lookup. exists i. unfold dict_values.
    change (map ?f ?l) with (f <$> l). by rewrite list_lookup_fmap, Hkv, <- Hkvw. }
  destruct (Hn i kv Hkv) as [Hk Hid]. rewrite Hkvw in Hid.
  pose proof (wg_rep _ Hwg _ Hg) as Hhead.
  assert (Hrep : representative w ∈ members w).
  { destruct (members w) as [|x l]; [done|]. injection Hhead as ->. by left. }
  destruct (wg_ids _ Hwg _ _ Hg Hrep) as (c & Hc & Hgid).
  assert (Hlookup : forall j gid' ms',
            Types.groups res !! j = Some (gid', ms') ->
            exists g, (snd <$> groups (disc st)) !! j = Some g /\ ms' = members g).
  { intros j gid' ms' Hj. rewrite Hgs in Hj.
    change (map ?f ?l) with (f <$> l) in Hj. rewrite list_lookup_fmap in Hj.
    rewrite list_lookup_fmap.
    destruct (groups (disc st) !! j) as [kv'|]; [|done].
    injection Hj as <- <-. by exists (snd kv'). }
  assert (Hwv : winner_votes (heap (disc st)) res = Z.of_nat (length (members w))).
  { unfold winner_votes. rewrite Hw, Hc, Hgid, Hid.
    destruct (String.eqb_spec (group_name i) "") as [E|_];
      [by apply group_name_not_empty in E|]. simpl.
    rewrite Hvs, <- Hk, (dict_get_named votes _ i kv Hn Hkv).
    by rewrite Hkvw. }
  exists i, (fst kv), (members w).
  split; [|split; [|split; [|split; [|split; [|split]]]]].
  - rewrite Hgs. change (map ?f ?l) with (f <$> l).
    by rewrite list_lookup_fmap, Hkv, <- Hkvw.
  - by rewrite Hw.
  - intros j gid' ms' Hj. destruct (Hlookup _ _ _ Hj) as (g & Hgj & ->).
    pose proof (Hmax j g Hgj) as Hle. unfold votes in Hle. lia.
  - intros j gid' ms' Hlt Hj. destruct (Hlookup _ _ _ Hj) as (g & Hgj & ->).
    pose proof (Hfirst j g Hlt Hgj) as Hle. unfold votes in Hle. lia.
  - exact Hwv.
  - rewrite Hwv. destruct (members w); [done|]. simpl. lia.
  - intros gid' v Hin. rewrite Hwv. rewrite Hvs in Hin.
    apply list_elem_of_lookup in Hin as [j Hj].
    change (map ?f ?l) with (f <$> l) in Hj. rewrite list_lookup_fmap in Hj.
    destruct (groups (disc st) !! j) as [kv'|] eqn:Hkv'; [|done].
    injection Hj as <- <-.
    assert (Hgj : (snd <$> groups (disc st)) !! j = Some (snd kv'))
      by (by rewrite list_lookup_fmap, Hkv').
    pose proof (Hmax j _ Hgj) as Hle. unfold votes in Hle |- *. lia.
Qed.

(** *** No valid candidate *)

Lemma vote_body_keeps_step language k st r st' :
  vote_body language k st = (r, st') ->
  step (session st') = step (session st)
  /\ (returned r = false -> valid_samples (session st') <> []).
Proof.
  unfold Voter.vote_body. intros Hb.
  destruct (generator (gen_calls st)) as [response|e];
    [|by injection Hb as <- <-].
  destruct (negb _); [by injection Hb as <- <-|].
  destruct (Discriminator.classify _ _ _ _) as [r0 d2].
  injection Hb as <- <-. simpl. split; [done|].
  intros _ E. by apply app_eq_nil in E as [_ ?].
Qed.

Lemma vote_loop_keeps_step language k max_samples fuel : forall st r st',
  vote_loop fuel language k max_samples st = Some (r, st') ->
  step (session st') = step (session st)
  /\ (returned r = false -> valid_samples (session st') <> []).
Proof.
  induction fuel as [|fuel IH]; intros st r st' Hl; simpl in Hl.
  - destruct (loop_cond max_samples st); [done|]. by injection Hl as <- <-.
  - destruct (loop_cond max_samples st); [|by injection Hl as <- <-].
    destruct (vote_body language k st) as [r0 st0] eqn:Hb.
    apply vote_body_keeps_step in Hb as [Hs Hr].
    destruct r0 as [[]|e].
    + apply IH in Hl as [Hs' Hr']. split; [congruence|done].
    + injection Hl as <- <-. split; [done|]. intros _. by apply Hr.
Qed.

Lemma vote_without_valid_sample fuel s ctx language k max_samples d0 r st :
  vote fuel s ctx language k max_samples d0 = Some (r, st) ->
  valid_samples (session st) = [] ->
  r = Raises (ValueError ("No valid candidates for step " +:+ step_id s))
  /\ groups (disc st) = [].
Proof.
  intros Hv Hnil. unfold Voter.vote in Hv.
  set (k' := py_or k (Types.k config)) in *.
  set (bound := py_or max_samples (Types.max_samples config)) in *.
  set (st0 := {| disc := reset d0; session := new_session s ctx;
                 gen_calls := 0 |}) in *.
  destruct (vote_loop fuel language k' bound st0) as [[r1 st1]|] eqn:Hl; [|done].
  pose proof (vote_loop_keeps_step _ _ _ _ _ _ _ Hl) as [Hstep Hraise].
  destruct r1 as [[]|e].
  2:{ injection Hv as <- <-. by destruct (Hraise eq_refl). }
  destruct (vote_loop_returns_ind (result_inv k') language k' bound
              (fun st st' H => result_inv_body language k' bound st st' H)
              fuel st0 st1 (result_inv_start k' s ctx d0) Hl) as [Hri _].
  injection Hv as Hv. unfold build_result in Hv.
  assert (Hvalid1 : valid_samples (session st1) = []).
  { destruct (match winner (session st1) with
              | Some w => Some w
              | None => match sorted_desc votes (dict_values (groups (disc st1))) with
                        | top :: _ => Some top
                        | [] => None
                        end
              end); injection Hv as <- <-; exact Hnil. }
  pose proof (ri_members _ _ Hri) as Hmem. rewrite Hvalid1 in Hmem.
  apply Permutation_nil_r in Hmem.
  assert (Hgs : groups (disc st1) = []).
  { destruct (groups (disc st1)) as [|[key g] gs] eqn:E; [done|]. exfalso.
    pose proof (wg_rep _ (ri_groups _ _ Hri) g) as Hh. rewrite E in Hh.
    specialize (Hh ltac:(simpl; by left)).
    unfold all_members in Hmem. rewrite E in Hmem. simpl in Hmem.
    apply app_eq_nil in Hmem as [Hm _]. by rewrite Hm in Hh. }
  pose proof (ri_winner _ _ Hri) as Hwin.
  assert (Hw : winner (session st1) = None).
  { destruct (is_complete (session st1)); [|done].
    destruct Hwin as (w & _ & Hg). unfold get_winner in Hg.
    by rewrite Hgs in Hg. }
  rewrite Hw, Hgs in Hv. simpl in Hv. injection Hv as <- <-.
  rewrite Hstep. by split.
Qed.

(** X6: A [vote] that ends without a valid sample raises [ValueError], for
    whatever reason there is none: the bound is not positive, every
    generator invocation raised, or the filter rejected every
    candidate.  No group exists then, and a [vote] that returns a
    result has a valid sample. *)
Theorem vote_without_valid_sample_raises fuel s ctx language k max_samples d0 r st :
  vote fuel s ctx language k max_samples d0 = Some (r, st) ->
  (valid_samples (session st) = [] ->
     r = Raises (ValueError ("No valid candidates for step " +:+ step_id s))
     /\ groups (disc st) = [])
  /\ (forall res, r = Returns res -> valid_samples (session st) <> []).
Proof.
  intros Hv. split; [by eapply vote_without_valid_sample|].
  intros res -> Hnil.
  by destruct (vote_without_valid_sample _ _ _ _ _ _ _ _ _ Hv Hnil).
Qed.

(** *** A filter that rejects everything *)

Lemma vote_loop_all_rejected language k max_samples :
  (forall n, exists response,
      generator n = Returns response
      /\ forall cid, RedFlag.passed (check (new_candidate cid response) language)
                     = false) ->
  forall n fuel st,
    (n <= fuel)%nat ->
    n = Z.to_nat (max_samples - Z.of_nat (length (samples (session st)))) ->
    is_complete (session st) = false ->
    exists st',
      vote_loop fuel language k max_samples st = Some (Returns tt, st')
      /\ valid_samples (session st') = valid_samples (session st)
      /\ length (samples (session st')) = (length (samples (session st)) + n)%nat
      /\ length (invalid_samples (session st'))
         = (length (invalid_samples (session st)) + n)%nat
      /\ gen_calls st' = (gen_calls st + n)%nat.
Proof.
  intros Hrej.
  induction n as [|n IH]; intros fuel st Hfuel Hn Hnc.
  - exists st. rewrite !Nat.add_0_r.
    assert (Hcond : loop_cond max_samples st = false).
    { unfold loop_cond. apply andb_false_iff. left. apply Z.ltb_ge. lia. }
    destruct fuel; simpl; by rewrite Hcond.
  - destruct fuel as [|fuel]; [lia|].
    assert (Hcond : loop_cond max_samples st = true).
    { unfold loop_cond. rewrite Hnc, andb_true_r. apply Z.ltb_lt. lia. }
    simpl. rewrite Hcond.
    destruct (Hrej (gen_calls st)) as (response & Hg & Hp).
    unfold Voter.vote_body at 1. rewrite Hg, Hp. simpl.
    match goal with
    | |- exists st', Voter.vote_loop _ _ _ _ _ _ _ _ _ ?st1 = _ /\ _ =>
        destruct (IH fuel st1) as (st' & Hl & Hv & Hs & Hi & Hgc)
    end.
    + lia.
    + simpl. rewrite length_app. simpl. lia.
    + simpl. exact Hnc.
    + exists st'. split; [exact Hl|]. simpl in *.
      rewrite length_app in Hs, Hi. simpl in Hs, Hi.
      split; [done|]. split; [lia|]. split; [lia|]. lia.
Qed.

(** X7: When the filter rejects every candidate the generator returns,
    [vote] invokes the generator exactly [max_samples] times (not at all
    when the bound is not positive), rejects every sample, and raises
    [ValueError]. *)
Theorem vote_all_rejected_raises fuel s ctx language k max_samples d0 :
  (forall n, exists response,
      generator n = Returns response
      /\ forall cid, RedFlag.passed (check (new_candidate cid response) language)
                     = false) ->
  let bound := py_or max_samples (Types.max_samples config) in
  (Z.to_nat bound <= fuel)%nat ->
  exists st,
    vote fuel s ctx language k max_samples d0
      = Some (Raises (ValueError ("No valid candidates for step " +:+ step_id s)), st)
    /\ gen_calls st = Z.to_nat bound
    /\ length (samples (session st)) = Z.to_nat bound
    /\ length (invalid_samples (session st)) = Z.to_nat bound
    /\ valid_samples (session st) = []
    /\ groups (disc st) = [].
Proof.
  intros Hrej bound Hfuel.
  set (k' := py_or k (Types.k config)).
  set (st0 := {| disc := reset d0; session := new_session s ctx;
                 gen_calls := 0 |}).
  destruct (vote_loop_all_rejected language k' bound Hrej (Z.to_nat bound) fuel st0)
    as (st1 & Hl & Hv & Hs & Hi & Hgc); [done|simpl; f_equal; lia|done|].
  simpl in Hv, Hs, Hi, Hgc.
  destruct (vote fuel s ctx language k max_samples d0) as [[r st]|] eqn:Hvote.
  2:{ unfold Voter.vote in Hvote. fold k' bound st0 in Hvote.
      by rewrite Hl in Hvote. }
  assert (Hst : valid_samples (session st) = []
                /\ gen_calls st = gen_calls st1
                /\ samples (session st) = samples (session st1)
                /\ invalid_samples (session st) = invalid_samples (session st1)).
  { unfold Voter.vote in Hvote. fold k' bound st0 in Hvote.
    rewrite Hl in Hvote. injection Hvote as Hb. unfold build_result in Hb.
    destruct (match winner (session st1) with
              | Some w => Some w
              | None => match sorted_desc votes (dict_values (groups (disc st1))) with
                        | top :: _ => Some top
                        | [] => None
                        end
              end); injection Hb as <- <-; by simpl. }
  destruct Hst as (Hnil & Hgc' & Hs' & Hi').
  destruct (vote_without_valid_sample fuel s ctx language k max_samples d0 r st
              Hvote Hnil) as [-> Hgs].
  exists st. split; [done|].
  rewrite Hgc', Hs', Hi', Hgc, Hs, Hi. by repeat split.
Qed.

(** *** The candidates of earlier votes *)

(** X8: A [vote] creates one candidate object for each sample and touches no
    other: whatever its outcome, the objects that existed before the
    call are as they were, and the samples are the objects created
    since, in order. *)
Theorem vote_touches_only_its_samples fuel s ctx language k max_samples d0 r st :
  vote fuel s ctx language k max_samples d0 = Some (r, st) ->
  let h0 := length (heap d0) in
  (forall r0 c, heap d0 !! r0 = Some c -> heap (disc st) !! r0 = Some c)
  /\ samples (session st) = seq h0 (length (samples (session st)))
  /\ length (heap (disc st)) = (h0 + length (samples (session st)))%nat.
Proof.
  intros Hv h0.
  set (P := fun st : VoteState =>
    (forall r0 c, heap d0 !! r0 = Some c -> heap (disc st) !! r0 = Some c)
    /\ samples (session st) = seq h0 (length (samples (session st)))
    /\ length (heap (disc st)) = (h0 + length (samples (session st)))%nat).
  assert (Hstep : forall language k max_samples st r st',
            P st -> loop_cond max_samples st = true ->
            vote_body language k st = (r, st') -> P st').
  { clear. unfold P. intros language k max_samples st r st' (Hold & Hseq & Hlen) _ Hb.
    unfold Voter.vote_body in Hb.
    destruct (generator (gen_calls st)) as [response|e];
      [|by injection Hb as <- <-].
    set (c := length (heap (disc st))) in *.
    assert (Hc : forall r0 x, heap d0 !! r0 = Some x -> r0 <> c).
    { intros r0 x Hr0 ->. apply lookup_lt_Some in Hr0. unfold c, h0 in *. lia. }
    assert (Hkeep : forall r0 x cand, heap d0 !! r0 = Some x ->
                      (heap (disc st) ++ [cand]) !! r0 = Some x).
    { intros r0 x cand Hr0. apply Hold in Hr0.
      rewrite lookup_app_l; [done|]. by eapply lookup_lt_Some. }
    assert (Hseq' : samples (session st) ++ [c]
                    = seq h0 (length (samples (session st) ++ [c]))).
    { rewrite length_app, seq_app, <- Hseq. simpl.
      do 2 f_equal. subst c. lia. }
    destruct (negb _).
    - injection Hb as <- <-. simpl. split; [|split].
      + intros r0 x Hr0. rewrite list_lookup_alter_ne; [by eapply Hkeep|].
        intros E. by eapply Hc.
      + exact Hseq'.
      + rewrite length_alter, !length_app. simpl. lia.
    - destruct (Discriminator.classify _ _ _ _) as [r0 d2] eqn:Hcl.
      pose proof (classify_frame _ _ _ _ _ _ Hcl) as [Hlen2 Hother].
      injection Hb as <- <-. simpl in *. split; [|split].
      + intros r1 x Hr1. rewrite Hother by (by eapply Hc). by eapply Hkeep.
      + exact Hseq'.
      + rewrite Hlen2, !length_app. simpl. lia. }
  assert (HP0 : P {| disc := reset d0; session := new_session s ctx;
                     gen_calls := 0 |}).
  { split; [done|]. split; [done|]. simpl. unfold h0. lia. }
  unfold Voter.vote in Hv.
  destruct (Voter.vote_loop _ _ _ _ _ _ _ _ _ _) as [[r1 st1]|] eqn:Hl; [|done].
  pose proof (vote_loop_any_ind P language _ _ (Hstep language _ _) _ _ _ _ HP0 Hl)
    as HP1.
  destruct r1 as [[]|e]; [|by injection Hv as <- <-].
  injection Hv as Hv. unfold build_result in Hv.
  destruct (match winner (session st1) with
            | Some w => Some w
            | None => match sorted_desc votes (dict_values (groups (disc st1))) with
                      | top :: _ => Some top
                      | [] => None
                      end
            end); injection Hv as <- <-; exact HP1.
Qed.

End WithEnv.

End VoteResultFacts.

(** ** Voting in batches *)

Module ParallelFacts.
Import Types Discriminator Voter DiscriminatorFacts VoterFacts.

Section WithEnv.
Variable generator : nat -> outcome LLMResponse.
Variable compare_semantic : nat -> string -> string -> string -> outcome bool.
Variable uuid4 : nat -> string.
Variable ast_parse : string -> RedFlag.parse_result.
Variable config : MDAPConfig.

Local Abbreviation vote_body := (vote_body generator compare_semantic uuid4 ast_parse config).
Local Abbreviation vote_loop := (vote_loop generator compare_semantic uuid4 ast_parse config).
Local Abbreviation vote := (vote generator compare_semantic uuid4 ast_parse config).
Local Abbreviation parallel_response := (parallel_response compare_semantic uuid4 ast_parse config).
Local Abbreviation parallel_responses := (parallel_responses compare_semantic uuid4 ast_parse config).
Local Abbreviation parallel_body := (parallel_body generator compare_semantic uuid4 ast_parse config).
Local Abbreviation parallel_loop := (parallel_loop generator compare_semantic uuid4 ast_parse config).
Local Abbreviation vote_parallel := (vote_parallel generator compare_semantic uuid4 ast_parse config).
Local Abbreviation returned_calls := (returned_calls generator).

(** *** Batches of one *)

(** With [batch_size = 1] a pass of [vote_parallel] is a pass of [vote]:
    the winner looked for after a response that was skipped or rejected
    is the one that was not there before it. *)
Lemma parallel_body_one language k max_samples st :
  complete_inv k st ->
  loop_cond max_samples st = true ->
  parallel_body language k 1 max_samples st = vote_body language k st.
Proof.
  intros Hinv Hcond. unfold loop_cond in Hcond.
  apply andb_true_iff in Hcond as [Hlt Hnc].
  apply Z.ltb_lt in Hlt. apply negb_true_iff in Hnc.
  assert (Hnone : get_winner k (disc st) = None).
  { unfold VoterFacts.complete_inv in Hinv. rewrite Hnc in Hinv.
    destruct (get_winner k (disc st)) as [w|] eqn:E; [|done].
    exfalso. assert (false = true) by (apply Hinv; by eexists). done. }
  unfold Voter.parallel_body, Voter.vote_body.
  replace (Z.to_nat (Z.min 1 (max_samples
             - Z.of_nat (length (samples (session st)))))) with 1%nat by lia.
  simpl. rewrite Nat.add_1_r.
  destruct (generator (gen_calls st)) as [response|e]; simpl.
  2:{ by rewrite Hnone. }
  destruct (negb _); simpl.
  - unfold get_winner in Hnone |- *. simpl. by rewrite Hnone.
  - destruct (Discriminator.classify _ _ _ _) as [r d2]. simpl.
    destruct r as [g|e]; [|done]. simpl.
    by destruct (get_winner k d2).
Qed.

Lemma parallel_loop_one language k max_samples fuel : forall st,
  complete_inv k st ->
  parallel_loop fuel language k 1 max_samples st
  = vote_loop fuel language k max_samples st.
Proof.
  induction fuel as [|fuel IH]; intros st Hinv; simpl; [done|].
  destruct (loop_cond max_samples st) eqn:Hcond; [|done].
  rewrite (parallel_body_one _ _ _ _ Hinv Hcond).
  destruct (vote_body language k st) as [r st'] eqn:Hb.
  destruct r as [[]|e]; [|done].
  apply IH. by eapply complete_inv_body.
Qed.

(** X10: [vote_parallel] with [batch_size = 1] is [vote] with the configured
    bound: both run out of fuel together, and otherwise have the same
    outcome, the same result, and leave the same discriminator, samples
    and invocation count. *)
Theorem vote_parallel_batch_of_one fuel s ctx language k d0 :
  match vote_parallel fuel s ctx language k 1 d0,
        vote fuel s ctx language k None d0 with
  | Some (r, st), Some (r', st') =>
      r = r' /\ disc st = disc st' /\ gen_calls st = gen_calls st'
      /\ samples (session st) = samples (session st')
      /\ valid_samples (session st) = valid_samples (session st')
      /\ invalid_samples (session st) = invalid_samples (session st')
      /\ is_complete (session st) = is_complete (session st')
  | None, None => True
  | _, _ => False
  end.
Proof.
  unfold Voter.vote_parallel, Voter.vote. simpl py_or.
  set (k' := py_or k (Types.k config)).
  set (st0 := {| disc := reset d0; session := new_session s ctx;
                 gen_calls := 0 |}).
  assert (Hc0 : complete_inv k' st0).
  { unfold VoterFacts.complete_inv. simpl. split; [done|]. by intros [x Hx]. }
  rewrite (parallel_loop_one language k' _ fuel st0 Hc0).
  destruct (vote_loop fuel language k' (Types.max_samples config) st0)
    as [[r st]|]; [|done].
  destruct r as [[]|e]; [|done].
  unfold _build_result, build_result.
  by destruct (match winner (session st) with
               | Some w => Some w
               | None => match sorted_desc votes (dict_values (groups (disc st))) with
                         | top :: _ => Some top
                         | [] => None
                         end
               end).
Qed.

(** *** A batch size that is not positive *)

(** X11: With a batch size of zero or less and a positive bound, every pass
    of [vote_parallel] gathers an empty batch and finds no winner among
    no groups, so the loop never ends: no amount of fuel gives an
    outcome. *)
Theorem vote_parallel_empty_batches_never_end fuel s ctx language k batch_size d0 :
  batch_size <= 0 ->
  0 < Types.max_samples config ->
  vote_parallel fuel s ctx language k batch_size d0 = None.
Proof.
  intros Hb Hmax. unfold Voter.vote_parallel.
  set (k' := py_or k (Types.k config)).
  assert (Hloop : forall fuel st,
            samples (session st) = [] -> groups (disc st) = [] ->
            is_complete (session st) = false ->
            parallel_loop fuel language k' batch_size (Types.max_samples config) st
            = None).
  { assert (Hltb : (0 <? Types.max_samples config) = true)
      by (apply Z.ltb_lt; lia).
    clear fuel. induction fuel as [|fuel IH]; intros st Hs Hg Hc.
    - simpl. unfold loop_cond. rewrite Hs, Hc. simpl.
      change (Z.of_nat 0) with 0. by rewrite Hltb.
    - simpl. unfold loop_cond at 1. rewrite Hs, Hc. simpl.
      change (Z.of_nat 0) with 0. rewrite Hltb. simpl.
      unfold Voter.parallel_body. rewrite Hs. simpl.
      assert (Hn : forall z, Z.to_nat (Z.min batch_size z) = 0%nat)
        by (intros; lia).
      rewrite !Hn. simpl. unfold get_winner. rewrite Hg. simpl.
      by apply IH. }
  by rewrite Hloop.
Qed.

(** *** The samples of a batched vote *)

Fixpoint count_returned (responses : list (outcome LLMResponse)) : nat :=
  match responses with
  | [] => 0
  | response :: rest =>
      ((if returned response then 1 else 0) + count_returned rest)%nat
  end.

Lemma count_returned_le responses :
  (count_returned responses <= length responses)%nat.
Proof.
  induction responses as [|r rs IH]; simpl; [lia|]. destruct (returned r); lia.
Qed.

Lemma returned_calls_add g n :
  returned_calls (g + n)
  = (returned_calls g + count_returned (map generator (seq g n)))%nat.
Proof.
  assert (Happ : forall l1 l2, count_returned (l1 ++ l2)
                   = (count_returned l1 + count_returned l2)%nat).
  { clear. induction l1 as [|x l1 IH]; intros l2; simpl; [done|].
    rewrite IH. lia. }
  induction n as [|n IH].
  - simpl. by rewrite !Nat.add_0_r.
  - rewrite seq_S, map_app, Happ, Nat.add_succ_r. simpl. rewrite IH. lia.
Qed.

Lemma parallel_response_samples language response st r st' :
  parallel_response language response st = (r, st') ->
  gen_calls st' = gen_calls st
  /\ length (samples (session st'))
     = (length (samples (session st)) + (if returned response then 1 else 0))%nat.
Proof.
  unfold Voter.parallel_response. intros H.
  destruct response as [response|e]; simpl.
  2:{ injection H as <- <-. split; [done|lia]. }
  destruct (negb _).
  - injection H as <- <-. simpl. by rewrite length_app.
  - destruct (Discriminator.classify _ _ _ _) as [r0 d2].
    injection H as <- <-. simpl. by rewrite length_app.
Qed.

Lemma parallel_responses_samples language responses : forall st st',
  parallel_responses language responses st = (Returns tt, st') ->
  gen_calls st' = gen_calls st
  /\ length (samples (session st'))
     = (length (samples (session st)) + count_returned responses)%nat.
Proof.
  induction responses as [|response rest IH]; intros st st' H; simpl in H.
  - injection H as <-. simpl. split; [done|lia].
  - destruct (parallel_response language response st) as [r0 st0] eqn:Hr.
    apply parallel_response_samples in Hr as [Hg Hs].
    destruct r0 as [[]|e]; [|done].
    apply IH in H as [Hg' Hs']. split; [congruence|]. simpl. lia.
Qed.

Lemma parallel_body_samples language k batch_size max_samples st st' :
  parallel_body language k batch_size max_samples st = (Returns tt, st') ->
  count_inv generator max_samples st ->
  loop_cond max_samples st = true ->
  count_inv generator max_samples st'
  /\ (Z.of_nat (length (samples (session st')))
      <= Z.of_nat (length (samples (session st))) + Z.max 0 batch_size).
Proof.
  unfold Voter.parallel_body. intros Hb [Hc Hbound] Hcond.
  unfold loop_cond in Hcond. apply andb_true_iff in Hcond as [Hlt _].
  apply Z.ltb_lt in Hlt.
  set (n := Z.to_nat (Z.min batch_size
                        (max_samples - Z.of_nat (length (samples (session st)))))) in *.
  destruct (Voter.parallel_responses _ _ _ _ _ _ _) as [r st2] eqn:Hrs.
  destruct r as [[]|e]; [|done].
  apply parallel_responses_samples in Hrs as [Hg Hs]. simpl in Hg, Hs.
  pose proof (count_returned_le (map generator (seq (gen_calls st) n))) as Hle.
  rewrite length_map, length_seq in Hle.
  assert (Hst' : gen_calls st' = gen_calls st2
                 /\ samples (session st') = samples (session st2)).
  { destruct (get_winner k (disc st2)); by injection Hb as <-. }
  destruct Hst' as [Hg' Hs']. unfold count_inv.
  rewrite Hg', Hs', Hg, Hs, returned_calls_add, <- Hc.
  split; [split; [done|]|]; lia.
Qed.

(** X12: [vote_parallel] never gathers more than the bound allows:
    [total_samples] of its result is the number of generator
    invocations that returned, it does not exceed [max_samples] of the
    configuration, and no batch is begun once a winner is found or the
    bound is reached. *)
Theorem vote_parallel_respects_bound fuel s ctx language k batch_size d0 res st :
  vote_parallel fuel s ctx language k batch_size d0 = Some (Returns res, st) ->
  total_samples res = Z.of_nat (returned_calls (gen_calls st))
  /\ total_samples res <= Z.max 0 (Types.max_samples config)
  /\ loop_cond (Types.max_samples config) st = false.
Proof.
  unfold Voter.vote_parallel.
  set (k' := py_or k (Types.k config)).
  set (st0 := {| disc := reset d0; session := new_session s ctx;
                 gen_calls := 0 |}).
  assert (Hloop : forall fuel st st',
            count_inv generator (Types.max_samples config) st ->
            parallel_loop fuel language k' batch_size (Types.max_samples config) st
            = Some (Returns tt, st') ->
            count_inv generator (Types.max_samples config) st'
            /\ loop_cond (Types.max_samples config) st' = false).
  { clear. induction fuel as [|fuel IH]; intros st st' Hinv Hl; simpl in Hl.
    - destruct (loop_cond _ st) eqn:Hc; [done|]. by injection Hl as <-.
    - destruct (loop_cond _ st) eqn:Hc; [|by injection Hl as <-].
      destruct (parallel_body language k' batch_size _ st) as [r0 st0] eqn:Hb.
      destruct r0 as [[]|e]; [|done].
      eapply IH; [|exact Hl].
      by destruct (parallel_body_samples _ _ _ _ _ _ Hb Hinv Hc). }
  destruct (parallel_loop fuel language k' batch_size _ st0)
    as [[r1 st1]|] eqn:Hl; [|done].
  destruct r1 as [[]|e]; [|done].
  intros H. injection H as Hres <-.
  destruct (Hloop fuel st0 st1) as [[Hc Hb] Hexit]; [|done|].
  { split; simpl; [done|lia]. }
  unfold _build_result in Hres.
  destruct (match winner (session st1) with
            | Some w => Some w
            | None => match sorted_desc votes (dict_values (groups (disc st1))) with
                      | top :: _ => Some top
                      | [] => None
                      end
            end); [|done].
  injection Hres as <-. simpl. rewrite <- Hc. by repeat split.
Qed.

(** *** Termination *)

Lemma parallel_responses_calls language responses : forall st r st',
  parallel_responses language responses st = (r, st') ->
  gen_calls st' = gen_calls st.
Proof.
  induction responses as [|response rest IH]; intros st r st' H; simpl in H.
  - by injection H as _ <-.
  - destruct (parallel_response language response st) as [r0 st0] eqn:Hr.
    apply parallel_response_samples in Hr as [Hg _].
    destruct r0 as [[]|e].
    + apply IH in H. congruence.
    + injection H as _ <-. exact Hg.
Qed.

Lemma count_returned_all g n :
  (forall i, returned (generator i) = true) ->
  count_returned (map generator (seq g n)) = n.
Proof.
  intros Hall. revert g. induction n as [|n IH]; intros g; simpl; [done|].
  by rewrite Hall, IH.
Qed.

(** X13: With a batch size of at least 1 and a generator that always
    returns, [vote_parallel] ends: [max_samples] passes are enough,
    whatever the comparisons answer, and the generator is never invoked
    more than [max_samples] times. *)
Theorem vote_parallel_terminates fuel s ctx language k batch_size d0 :
  1 <= batch_size ->
  (forall i, returned (generator i) = true) ->
  (Z.to_nat (Types.max_samples config) <= fuel)%nat ->
  exists r st,
    vote_parallel fuel s ctx language k batch_size d0 = Some (r, st)
    /\ Z.of_nat (gen_calls st) <= Z.max 0 (Types.max_samples config).
Proof.
  intros Hbatch Hall Hfuel. unfold Voter.vote_parallel.
  set (k' := py_or k (Types.k config)).
  set (bound := Types.max_samples config) in *.
  assert (Hloop : forall m fuel st,
            (Z.to_nat (bound - Z.of_nat (length (samples (session st)))) <= m)%nat ->
            (m <= fuel)%nat ->
            length (samples (session st)) = gen_calls st ->
            Z.of_nat (gen_calls st) <= Z.max 0 bound ->
            exists r st',
              parallel_loop fuel language k' batch_size bound st = Some (r, st')
              /\ Z.of_nat (gen_calls st') <= Z.max 0 bound).
  { clear fuel Hfuel.
    induction m as [|m IH]; intros fuel st Hm Hfuel Hlen Hle.
    - assert (Hcond : loop_cond bound st = false).
      { unfold loop_cond. apply andb_false_iff. left. apply Z.ltb_ge. lia. }
      exists (Returns tt), st. split; [|done].
      destruct fuel; simpl; by rewrite Hcond.
    - destruct (loop_cond bound st) eqn:Hcond.
      2:{ exists (Returns tt), st. split; [|done].
          destruct fuel; simpl; by rewrite Hcond. }
      destruct fuel as [|fuel]; [lia|]. simpl. rewrite Hcond.
      unfold loop_cond in Hcond. apply andb_true_iff in Hcond as [Hlt _].
      apply Z.ltb_lt in Hlt.
      unfold Voter.parallel_body.
      set (n := Z.to_nat (Z.min batch_size
                            (bound - Z.of_nat (length (samples (session st)))))).
      assert (Hn : (1 <= n)%nat) by (unfold n; lia).
      destruct (Voter.parallel_responses _ _ _ _ _ _ _) as [r st2] eqn:Hrs.
      pose proof (parallel_responses_calls _ _ _ _ _ Hrs) as Hg. simpl in Hg.
      destruct r as [[]|e].
      2:{ exists (Raises e), st2. split; [done|]. rewrite Hg. unfold n. lia. }
      apply parallel_responses_samples in Hrs as [_ Hs]. simpl in Hs.
      rewrite count_returned_all in Hs by done.
      assert (Hnext : forall st3,
                gen_calls st3 = gen_calls st2 ->
                samples (session st3) = samples (session st2) ->
                exists r st',
                  parallel_loop fuel language k' batch_size bound st3 = Some (r, st')
                  /\ Z.of_nat (gen_calls st') <= Z.max 0 bound).
      { intros st3 Hg3 Hs3. apply (IH fuel st3).
        - rewrite Hs3, Hs. unfold n. lia.
        - lia.
        - rewrite Hs3, Hg3, Hs, Hg. lia.
        - rewrite Hg3, Hg. unfold n. lia. }
      destruct (get_winner k' (disc st2)); by apply Hnext. }
  destruct (Hloop (Z.to_nat bound) fuel
              {| disc := reset d0; session := new_session s ctx; gen_calls := 0 |})
    as (r & st & Hl & Hle); [simpl; lia|done|done|simpl; lia|].
  rewrite Hl. destruct r as [[]|e]; by eexists _, _.
Qed.

End WithEnv.

End ParallelFacts.

(** ** The states the machine can be in *)

Module MachineFacts.
Import State Orchestrator StateFacts.

(** The assignments [self.state.current_phase_detail = ...] and
    [self.state.error_message = ...] of the orchestrator. *)
Definition set_notes (detail : string) (err : option string)
    (self : OrchestratorState) : OrchestratorState :=
  {| current := current self; previous := previous self; State.task := State.task self;
     current_phase_detail := detail;
     transition_history := transition_history self;
     error_message := err;
     started_at := started_at self; completed_at := completed_at self |}.

(** The states of a machine that starts as [OrchestratorState()] and is
    changed only the way the sources change it: by [transition], by
    [reset], and by assignments to the task, the phase detail and the
    error message. *)
Inductive reachable : OrchestratorState -> Prop :=
| reach_initial : reachable initial
| reach_transition ts now to why s b s' :
    reachable s -> transition ts now to why s = Returns (b, s') -> reachable s'
| reach_reset s : reachable s -> reachable (reset s)
| reach_set_task t s : reachable s -> reachable (set_task t s)
| reach_set_notes detail err s : reachable s -> reachable (set_notes detail err s).

Record machine_inv (s : OrchestratorState) : Prop := {
  paused_has_previous :
    current s = PAUSED ->
    exists p, previous s = Some p
              /\ (In p EXECUTION_PHASES \/ p = AWAITING_DECISION);
  started_when_not_idle : current s <> IDLE -> started_at s <> None;
  completed_has_time : current s = COMPLETED -> completed_at s <> None;
}.

Lemma pausable_states p :
  in_table p PAUSED <-> In p EXECUTION_PHASES \/ p = AWAITING_DECISION.
Proof. destruct p; table_in. Qed.

Lemma machine_inv_transition ts now to why s b s' :
  machine_inv s ->
  transition ts now to why s = Returns (b, s') ->
  machine_inv s'.
Proof.
  intros Hinv Ht. unfold transition in Ht.
  destruct (can_transition s to) eqn:Hcan; simpl in Ht;
    [|by injection Ht as <- <-].
  apply can_transition_in_table in Hcan.
  injection Ht as <- <-. split; simpl.
  - intros ->. rewrite bool_decide_eq_true_2 by done.
    exists (current s). split; [done|]. by apply pausable_states.
  - intros Hto.
    destruct (started_at s) as [t0|] eqn:Hs.
    + rewrite (bool_decide_eq_false_2 (Some t0 = None)) by done.
      rewrite andb_false_r. done.
    + assert (Hidle : current s = IDLE).
      { destruct (decide (current s = IDLE)) as [E|E]; [done|].
        by apply (started_when_not_idle _ Hinv) in E. }
      rewrite Hidle in Hcan.
      assert (to = EXPANDING) as -> by (destruct to; table_out Hcan).
      done.
  - intros ->. simpl. done.
Qed.

Lemma transition_keeps_task ts now to why s b s' :
  transition ts now to why s = Returns (b, s') -> State.task s' = State.task s.
Proof.
  unfold transition. destruct (can_transition s to); simpl; intros H;
    by simplify_eq.
Qed.

Lemma reachable_machine_inv s : reachable s -> machine_inv s.
Proof.
  intros Hr.
  induction Hr as [|ts now to why s b s' _ IH Ht|s _ IH|t s _ IH|detail err s _ IH].
  - split; simpl; done.
  - by eapply machine_inv_transition.
  - split; simpl; done.
  - destruct IH. by split.
  - destruct IH. by split.
Qed.

(** X15: Whatever sequence of transitions, resets and assignments a machine
    has gone through: when it is [PAUSED] it remembers the state it was
    paused from, an execution phase or [AWAITING_DECISION]; when it is
    not [IDLE] its start time is set; when it is [COMPLETED] its
    completion time is set. *)
Theorem reachable_machine_invariants s :
  reachable s ->
  (current s = PAUSED ->
     exists p, get_resume_state s = Some p
               /\ (In p EXECUTION_PHASES \/ p = AWAITING_DECISION))
  /\ (current s <> IDLE -> started_at s <> None)
  /\ (current s = COMPLETED -> completed_at s <> None).
Proof.
  intros Hr.
  destruct (reachable_machine_inv s Hr) as [H1 H2 H3]. split; [|by split].
  intros Hp. destruct (H1 Hp) as (p & Hprev & Hcase).
  exists p. split; [|done].
  unfold get_resume_state. by rewrite Hp, Hprev.
Qed.

(** X16: [resume] answers whether the machine was paused: on a machine that
    is not [PAUSED] it returns [False] and changes nothing; on a paused
    one it returns [True], and the machine goes back to the execution
    phase it was paused from.  Paused from [AWAITING_DECISION] it
    returns [True] as well and announces the return, but the table has
    no pair from [PAUSED] to [AWAITING_DECISION]: the machine stays
    [PAUSED], its history unchanged. *)
Theorem resume_answers_whether_paused ts now o :
  reachable (state o) ->
  (current (state o) <> PAUSED -> resume ts now o = Returns (false, o))
  /\ (current (state o) = PAUSED ->
      exists p o',
        previous (state o) = Some p
        /\ resume ts now o = Returns (true, o')
        /\ emitted o' =
             emitted o ++
               [ {| type := ORCHESTRATOR_STATE_CHANGE;
                    data := [ ("state", value (current (state o')));
                              ("reason", "Retomando para " +:+ value p);
                              ("task", State.task (state o)) ] |} ]
        /\ (In p EXECUTION_PHASES ->
            current (state o') = p
            /\ length (transition_history (state o'))
               = S (length (transition_history (state o))))
        /\ (p = AWAITING_DECISION -> state o' = state o)).
Proof.
  intros Hr. split.
  - intros Hne. unfold resume, get_resume_state.
    by rewrite bool_decide_eq_false_2.
  - intros Hp.
    destruct (paused_has_previous _ (reachable_machine_inv _ Hr) Hp)
      as (p & Hprev & Hcase).
    exists p. unfold resume, get_resume_state. rewrite Hp, Hprev. simpl.
    destruct Hcase as [Hexec| ->].
    + destruct (transition_taken ts now p
                  ("Retomando execu" +:+ PyStr.chr 231 +:+ PyStr.chr 227 +:+ "o")
                  (state o))
        as (s' & Ht & Hc & _ & Hh).
      { unfold in_table. rewrite Hp. simpl in Hexec.
        destruct Hexec as [E|[E|[E|[E|[]]]]]; rewrite <- E; table_in. }
      rewrite Ht. simpl. eexists. split; [done|]. split; [reflexivity|].
      simpl. split.
      { rewrite Hc, (transition_keeps_task _ _ _ _ _ _ _ Ht). done. }
      split.
      * intros _. split; [done|]. rewrite Hh, length_app. simpl. lia.
      * intros ->. simpl in Hexec. exfalso.
        destruct Hexec as [E|[E|[E|[E|[]]]]]; discriminate E.
    + rewrite transition_rejected.
      2:{ rewrite Hp. intros H. table_out H. }
      simpl. eexists. split; [done|]. split; [reflexivity|]. simpl.
      split; [done|]. split; [|done].
      intros Hexec. simpl in Hexec. exfalso.
      destruct Hexec as [E|[E|[E|[E|[]]]]]; discriminate E.
Qed.

End MachineFacts.

(** ** What the intent parser reads *)

Module ParseFacts.
Import Intent StrFacts.

(** A text with no brace in it. *)
Fixpoint brace_free (s : string) : bool :=
  match s with
  | EmptyString => true
  | String c s' =>
      negb (Ascii.eqb c "{") && negb (Ascii.eqb c "}") && brace_free s'
  end.

Lemma isspace_not_brace c :
  PyStr.isspace c = true -> Ascii.eqb c "{" = false /\ Ascii.eqb c "}" = false.
Proof.
  intros H. split.
  - destruct (Ascii.eqb_spec c "{") as [->|_]; [by vm_compute in H|done].
  - destruct (Ascii.eqb_spec c "}") as [->|_]; [by vm_compute in H|done].
Qed.

Lemma from_first_app_l p t :
  brace_free p = true ->
  PyStr.from_first "{" (p +:+ t) = PyStr.from_first "{" t.
Proof.
  induction p as [|c p IH]; [done|]. rewrite app_cons. simpl.
  intros H. apply andb_true_iff in H as [H Hp]. apply andb_true_iff in H as [H1 _].
  apply negb_true_iff in H1. rewrite H1. by apply IH.
Qed.

Lemma from_first_free q :
  brace_free q = true -> PyStr.from_first "{" q = None.
Proof.
  induction q as [|c q IH]; [done|]. simpl.
  intros H. apply andb_true_iff in H as [H Hq]. apply andb_true_iff in H as [H1 _].
  apply negb_true_iff in H1. rewrite H1. by apply IH.
Qed.

Lemma upto_last_free q :
  brace_free q = true -> PyStr.upto_last "}" q = None.
Proof.
  induction q as [|c q IH]; [done|]. simpl.
  intros H. apply andb_true_iff in H as [H Hq]. apply andb_true_iff in H as [_ H2].
  apply negb_true_iff in H2. by rewrite IH, H2.
Qed.

Lemma from_first_app_r t q :
  brace_free q = true ->
  PyStr.from_first "{" (t +:+ q)
  = (fun r => r +:+ q) <$> PyStr.from_first "{" t.
Proof.
  intros Hq. induction t as [|c t IH].
  - rewrite app_nil. by rewrite from_first_free.
  - rewrite app_cons. simpl. destruct (Ascii.eqb c "{"); [done|]. exact IH.
Qed.

Lemma upto_last_app_r t q :
  brace_free q = true ->
  PyStr.upto_last "}" (t +:+ q) = PyStr.upto_last "}" t.
Proof.
  intros Hq. induction t as [|c t IH].
  - rewrite app_nil. by rewrite upto_last_free.
  - rewrite app_cons. simpl. by rewrite IH.
Qed.

Lemma search_braces_app_l p t :
  brace_free p = true -> search_braces (p +:+ t) = search_braces t.
Proof. intros H. unfold search_braces. by rewrite from_first_app_l. Qed.

Lemma search_braces_app_r t q :
  brace_free q = true -> search_braces (t +:+ q) = search_braces t.
Proof.
  intros H. unfold search_braces. rewrite from_first_app_r by done.
  destruct (PyStr.from_first "{" t) as [r|]; simpl; [|done].
  by apply upto_last_app_r.
Qed.

Lemma lstrip_split s :
  exists p, s = p +:+ PyStr.lstrip s /\ brace_free p = true.
Proof.
  induction s as [|c s (p & Hs & Hp)]; [by exists EmptyString|]. simpl.
  destruct (PyStr.isspace c) eqn:Hc; [|by exists EmptyString].
  destruct (isspace_not_brace c Hc) as [H1 H2].
  exists (String c p). rewrite app_cons, <- Hs. split; [done|].
  simpl. by rewrite H1, H2, Hp.
Qed.

Lemma rstrip_split s :
  exists q, s = PyStr.rstrip s +:+ q /\ brace_free q = true.
Proof.
  induction s as [|c s (q & Hs & Hq)]; [by exists EmptyString|]. simpl.
  destruct (PyStr.rstrip s) as [|c' r] eqn:Hr.
  - rewrite app_nil in Hs. subst q.
    destruct (PyStr.isspace c) eqn:Hc.
    + destruct (isspace_not_brace c Hc) as [H1 H2].
      exists (String c s). split; [done|]. simpl. by rewrite H1, H2, Hq.
    + by exists s.
  - exists q. rewrite app_cons, <- Hs. done.
Qed.

Lemma drop_suffix_split suf : forall s before,
  PyStr.drop_suffix suf s = Some before -> s = before +:+ suf.
Proof.
  assert (Hunfold : forall s,
            PyStr.drop_suffix suf s
            = if String.eqb s suf then Some EmptyString
              else match s with
                   | EmptyString => None
                   | String c s' => String c <$> PyStr.drop_suffix suf s'
                   end) by (by intros [|c s]).
  induction s as [|c s IH]; intros before H; rewrite Hunfold in H.
  - destruct (String.eqb_spec EmptyString suf) as [<-|_]; [|done].
    by injection H as <-.
  - destruct (String.eqb_spec (String c s) suf) as [<-|_].
    + by injection H as <-.
    + destruct (PyStr.drop_suffix suf s) as [b|] eqn:E; [|done].
      injection H as <-. rewrite app_cons. f_equal. by apply IH.
Qed.

Lemma search_braces_strip s : search_braces (PyStr.strip s) = search_braces s.
Proof.
  unfold PyStr.strip.
  destruct (lstrip_split s) as (p & Hs & Hp).
  destruct (rstrip_split (PyStr.lstrip s)) as (q & Hl & Hq).
  rewrite Hs at 2. rewrite search_braces_app_l by done.
  rewrite Hl at 2. by rewrite search_braces_app_r.
Qed.

Lemma search_braces_lstrip s : search_braces (PyStr.lstrip s) = search_braces s.
Proof.
  destruct (lstrip_split s) as (p & Hs & Hp).
  rewrite Hs at 2. by rewrite search_braces_app_l.
Qed.

Lemma search_braces_rstrip s : search_braces (PyStr.rstrip s) = search_braces s.
Proof.
  destruct (rstrip_split s) as (q & Hs & Hq).
  rewrite Hs at 2. by rewrite search_braces_app_r.
Qed.

Lemma search_braces_open_fence s :
  search_braces (sub_open_fence s) = search_braces s.
Proof.
  unfold sub_open_fence.
  destruct (PyStr.strip_prefix "```" s) as [rest|] eqn:E; [|done].
  apply strip_prefix_split in E. rewrite search_braces_lstrip.
  rewrite E, search_braces_app_l by done.
  destruct (PyStr.strip_prefix "json" rest) as [rest'|] eqn:E'; [|done].
  apply strip_prefix_split in E'. rewrite E'. by rewrite search_braces_app_l.
Qed.

Lemma search_braces_close_fence s :
  search_braces (sub_close_fence s) = search_braces s.
Proof.
  unfold sub_close_fence.
  destruct (PyStr.drop_suffix "```" s) as [before|] eqn:E.
  - apply drop_suffix_split in E. rewrite search_braces_rstrip.
    rewrite E. by rewrite search_braces_app_r.
  - destruct (PyStr.drop_suffix ("```" +:+ PyStr.chr 10) s) as [before|] eqn:E';
      [|done].
    apply drop_suffix_split in E'.
    rewrite search_braces_app_r by done. rewrite search_braces_rstrip.
    rewrite E'. by rewrite search_braces_app_r.
Qed.

(** The cleaning steps of [_parse_response] remove no brace. *)
Lemma search_braces_clean response :
  search_braces (sub_close_fence (sub_open_fence (PyStr.strip response)))
  = search_braces response.
Proof.
  by rewrite search_braces_close_fence, search_braces_open_fence,
    search_braces_strip.
Qed.

Lemma upto_last_fixed c : forall t m,
  PyStr.upto_last c t = Some m -> PyStr.upto_last c m = Some m.
Proof.
  induction t as [|x t IH]; intros m H; simpl in H; [done|].
  destruct (PyStr.upto_last c t) as [r|] eqn:E.
  - injection H as <-. simpl. by rewrite (IH r eq_refl).
  - destruct (Ascii.eqb x c) eqn:Hx; [|done]. injection H as <-.
    simpl. by rewrite Hx.
Qed.

Lemma search_braces_fixed s m :
  search_braces s = Some m -> search_braces m = Some m.
Proof.
  unfold search_braces. intros H.
  destruct (PyStr.from_first "{" s) as [t|] eqn:E; [|done].
  assert (Ht : exists t', t = String "{" t').
  { clear H. induction s as [|x s IH]; simpl in E; [done|].
    destruct (Ascii.eqb_spec x "{") as [->|_]; [|by apply IH].
    injection E as <-. by eexists. }
  destruct Ht as [t' ->].
  assert (Hm : exists m', m = String "{" m').
  { simpl in H. destruct (PyStr.upto_last "}" t'); [|done].
    injection H as <-. by eexists. }
  destruct Hm as [m' ->].
  change (PyStr.from_first "{" (String "{" m')) with (Some (String "{" m')).
  by eapply upto_last_fixed.
Qed.

Section WithPython.
Variable json_loads : string -> outcome json.
Variable float_of_int : Z -> outcome float.
Variable float_of_str : string -> outcome float.

Local Abbreviation parse_attempt := (parse_attempt json_loads float_of_int float_of_str).
Local Abbreviation _parse_response := (_parse_response json_loads float_of_int float_of_str).
Local Abbreviation detect := (detect json_loads float_of_int float_of_str).

Lemma parse_attempt_braces response matched message :
  search_braces response = Some matched ->
  parse_attempt response message = parse_attempt matched message.
Proof.
  intros H. unfold Intent.parse_attempt.
  rewrite !search_braces_clean, H. by rewrite (search_braces_fixed _ _ H).
Qed.

(** X17: [_parse_response] reads the reply from its first opening brace to
    its last closing brace and nothing else: the stripping of white
    space and of Markdown fences never changes that text, so a reply
    parses as its braced part alone does, whatever surrounds it, and a
    reply without such a part gives the fallback result. *)
Theorem parse_response_reads_outer_braces response message :
  search_braces (sub_close_fence (sub_open_fence (PyStr.strip response)))
  = search_braces response
  /\ _parse_response response message
     = match search_braces response with
       | Some matched => _parse_response matched message
       | None => Returns fallback_result
       end.
Proof.
  split; [apply search_braces_clean|].
  unfold Intent._parse_response.
  destruct (search_braces response) as [matched|] eqn:E.
  - by rewrite (parse_attempt_braces _ _ _ E).
  - unfold Intent.parse_attempt. by rewrite search_braces_clean, E.
Qed.

(** X18: When the LLM gives nothing to parse, [detect] falls back on the
    key words of the message: if the client raises, if the reply has no
    braced part, if [json.loads] raises on it, or if what it loads is
    not an object, the result is the local detection when the message
    matches one of its patterns, and otherwise [CHAT_GENERAL] with
    confidence 0.5. *)
Theorem detect_falls_back_on_local reply message :
  (forall response matched data,
     reply = Returns response ->
     search_braces response = Some matched ->
     json_loads matched <> Returns (JDict data)) ->
  exists last_resort,
    intent last_resort = CHAT_GENERAL
    /\ confidence last_resort = 0x1p-1%float
    /\ task last_resort = JStr ""
    /\ detect reply message = default last_resort (_detect_local message).
Proof.
  intros H. unfold Intent.detect.
  assert (Herr : forall e,
            exists last_resort,
              intent last_resort = CHAT_GENERAL
              /\ confidence last_resort = 0x1p-1%float
              /\ task last_resort = JStr ""
              /\ match _detect_local message with
                 | Some local_result => local_result
                 | None => make_result CHAT_GENERAL 0x1p-1%float (JStr "")
                             (JStr ("Erro: " +:+ str_of_exn e))
                 end = default last_resort (_detect_local message)).
  { intros e. eexists. split; [|split; [|split]]; [| | |reflexivity]; done. }
  assert (Hfb : exists last_resort,
              intent last_resort = CHAT_GENERAL
              /\ confidence last_resort = 0x1p-1%float
              /\ task last_resort = JStr ""
              /\ (if PrimFloat.eqb (confidence fallback_result) 0x1p-1%float
                     && bool_decide (intent fallback_result = CHAT_GENERAL)
                  then match _detect_local message with
                       | Some local_result => local_result
                       | None => fallback_result
                       end
                  else fallback_result)
                 = default last_resort (_detect_local message)).
  { exists fallback_result. split; [done|]. split; [done|]. split; [done|].
    change (PrimFloat.eqb (confidence fallback_result) 0x1p-1%float) with true.
    simpl. done. }
  destruct reply as [response|e]; simpl; [|apply Herr].
  unfold Intent._parse_response, Intent.parse_attempt.
  rewrite search_braces_clean.
  destruct (search_braces response) as [matched|] eqn:Hs; [|apply Hfb].
  destruct (json_loads matched) as [v|e] eqn:Hj; simpl.
  - destruct v as [| | | | | |data]; try apply Herr.
    by destruct (H response matched data eq_refl Hs).
  - destruct (caught_by_parse e); [apply Hfb|apply Herr].
Qed.

End WithPython.

End ParseFacts.

(** ** The comparisons asked of the client *)

Module CostFacts.
Import Types Discriminator Voter DiscriminatorFacts VoterFacts GroupFacts
  VoteResultFacts.

Section WithEnv.
Variable generator : nat -> outcome LLMResponse.
Variable compare_semantic : nat -> string -> string -> string -> outcome bool.
Variable uuid4 : nat -> string.
Variable ast_parse : string -> RedFlag.parse_result.
Variable config : MDAPConfig.

Local Abbreviation compare := (compare compare_semantic).
Local Abbreviation find_group_from := (find_group_from compare_semantic).
Local Abbreviation classify := (classify compare_semantic).
Local Abbreviation vote_body := (vote_body generator compare_semantic uuid4 ast_parse config).
Local Abbreviation vote_loop := (vote_loop generator compare_semantic uuid4 ast_parse config).
Local Abbreviation vote := (vote generator compare_semantic uuid4 ast_parse config).
Local Abbreviation check := (RedFlag.check ast_parse config).
Local Abbreviation accepted := (accepted ast_parse config).

Lemma compare_calls code_a code_b ctx d r d' :
  compare code_a code_b ctx d = (r, d') ->
  (cmp_calls d <= cmp_calls d' <= S (cmp_calls d))%nat.
Proof.
  unfold Discriminator.compare. intros H.
  destruct (_comparison_cache d !! _cache_key code_a code_b) as [cached|].
  - injection H as _ <-. lia.
  - destruct (compare_semantic (cmp_calls d) code_a code_b ctx);
      injection H as _ <-; simpl; lia.
Qed.

Lemma find_group_from_calls gs : forall i candidate ctx d r d',
  find_group_from i gs candidate ctx d = (r, d') ->
  (cmp_calls d <= cmp_calls d' <= cmp_calls d + length gs)%nat.
Proof.
  induction gs as [|g gs IH]; intros i candidate ctx d r d' H; simpl in H.
  - injection H as _ <-. simpl. lia.
  - destruct (compare (code_of (heap d) candidate)
                (code_of (heap d) (representative g)) ctx d) as [r0 d0] eqn:Hc.
    apply compare_calls in Hc.
    destruct r0 as [[|]|e]; try (injection H as _ <-; simpl; lia).
    apply IH in H. simpl. lia.
Qed.

Lemma classify_calls candidate ctx d r d' :
  classify candidate ctx d = (r, d') ->
  (cmp_calls d <= cmp_calls d' <= cmp_calls d + length (groups d))%nat.
Proof.
  unfold Discriminator.classify, find_group. intros H.
  destruct (find_group_from 0 (dict_values (groups d)) candidate ctx d)
    as [r0 d0] eqn:Hf.
  apply find_group_from_calls in Hf.
  unfold dict_values in Hf. rewrite length_map in Hf.
  destruct r0 as [[[i g]|]|e]; injection H as _ <-; simpl; lia.
Qed.

(** X20: classifying a candidate asks the client at most one comparison
    for each group that exists, whatever the outcome; when there is no
    group yet it asks none. *)
Theorem classify_asks_once_per_group candidate ctx d r d' :
  classify candidate ctx d = (r, d') ->
  (cmp_calls d <= cmp_calls d' <= cmp_calls d + length (groups d))%nat
  /\ (groups d = [] -> cmp_calls d' = cmp_calls d).
Proof.
  intros H. pose proof (classify_calls _ _ _ _ _ H) as Hc.
  split; [exact Hc|]. intros Hg. rewrite Hg in Hc. simpl in Hc. lia.
Qed.

Lemma groups_at_most_members d :
  well_grouped d -> (length (groups d) <= length (all_members d))%nat.
Proof.
  intros Hwg. pose proof (wg_rep _ Hwg) as Hrep.
  unfold all_members, dict_values in *.
  induction (groups d) as [|[key g] gs IH]; simpl; [lia|].
  rewrite length_app.
  assert (Hg : head (members g) = Some (representative g))
    by (apply Hrep; simpl; by left).
  assert (1 <= length (members g))%nat
    by (destruct (members g); simpl; [done|lia]).
  assert (length gs <= length (concat (map members (map snd gs))))%nat.
  { apply IH. intros g1 Hg1. apply Hrep. simpl. by right. }
  lia.
Qed.

(** The comparisons asked since the vote began, twice over, against the
    ordered pairs of valid samples. *)
Definition cost_inv (calls0 : nat) (st : VoteState) : Prop :=
  (calls0 <= cmp_calls (disc st))%nat
  /\ (2 * (cmp_calls (disc st) - calls0)
      <= length (valid_samples (session st))
         * (length (valid_samples (session st)) - 1))%nat.

Lemma cost_inv_body language k calls0 st r st' :
  result_inv k st ->
  cost_inv calls0 st ->
  vote_body language k st = (r, st') ->
  cost_inv calls0 st'.
Proof.
  intros Hri [Hge Hcost] Hb.
  unfold Voter.vote_body in Hb.
  destruct (generator (gen_calls st)) as [response|e];
    [|by injection Hb as _ <-].
  destruct (negb _); [by injection Hb as _ <-|].
  destruct (Discriminator.classify _ _ _ _) as [r0 d2] eqn:Hcl.
  apply classify_calls in Hcl. simpl in Hcl.
  injection Hb as _ <-. unfold cost_inv. simpl.
  pose proof (groups_at_most_members _ (ri_groups _ _ Hri)) as Hg.
  rewrite (ri_members _ _ Hri) in Hg.
  rewrite length_app. simpl.
  split; [lia|]. nia.
Qed.

Lemma cost_inv_loop language k max_samples calls0 fuel : forall st r st',
  result_inv k st ->
  cost_inv calls0 st ->
  vote_loop fuel language k max_samples st = Some (r, st') ->
  cost_inv calls0 st'.
Proof.
  induction fuel as [|fuel IH]; intros st r st' Hri Hc Hl; simpl in Hl.
  - destruct (loop_cond max_samples st); [done|]. by injection Hl as _ <-.
  - destruct (loop_cond max_samples st) eqn:Hcond; [|by injection Hl as _ <-].
    destruct (vote_body language k st) as [r0 st0] eqn:Hb.
    pose proof (cost_inv_body _ _ _ _ _ _ Hri Hc Hb) as Hc0.
    destruct r0 as [[]|e]; [|by injection Hl as _ <-].
    eapply IH; [|exact Hc0|exact Hl].
    by eapply (result_inv_body generator compare_semantic uuid4 ast_parse config).
Qed.

(** X21: a [vote] asks the client at most one comparison for each pair of
    samples that passed the filter, [v (v - 1) / 2] for [v] valid
    samples, whatever its outcome; rejected samples cost none.  The
    valid samples are the samples whose object [RedFlag.check] accepts,
    so the bound counts those only; and the pass of the loop that meets
    a candidate [RedFlag.check] rejects asks the client nothing. *)
Theorem vote_comparisons_bounded fuel s ctx language k max_samples d0 r st :
  vote fuel s ctx language k max_samples d0 = Some (r, st) ->
  let v := length (valid_samples (session st)) in
  (cmp_calls d0 <= cmp_calls (disc st))%nat
  /\ (2 * (cmp_calls (disc st) - cmp_calls d0) <= v * (v - 1))%nat
  /\ valid_samples (session st)
     = List.filter (accepted language (heap (disc st))) (samples (session st))
  /\ (let passing := length (List.filter (accepted language (heap (disc st)))
                               (samples (session st))) in
      2 * (cmp_calls (disc st) - cmp_calls d0) <= passing * (passing - 1))%nat
  /\ (forall k' st1 response r1 st',
        generator (gen_calls st1) = Returns response ->
        RedFlag.passed
          (check (new_candidate (uuid4 (length (heap (disc st1)))) response)
             language) = false ->
        vote_body language k' st1 = (r1, st') ->
        cmp_calls (disc st') = cmp_calls (disc st1)
        /\ _comparison_cache (disc st') = _comparison_cache (disc st1)
        /\ groups (disc st') = groups (disc st1)).
Proof.
  intros Hv v.
  pose proof (vote_filter_inv _ _ _ _ _ _ _ _ _ _ _ _ _ _ Hv) as Hfi.
  assert (Hcost : cost_inv (cmp_calls d0) st).
  { unfold Voter.vote in Hv.
    set (k' := py_or k (Types.k config)) in *.
    set (st0 := {| disc := reset d0; session := new_session s ctx;
                   gen_calls := 0 |}) in *.
    destruct (Voter.vote_loop _ _ _ _ _ _ _ _ _ _) as [[r1 st1]|] eqn:Hl; [|done].
    assert (Hc0 : cost_inv (cmp_calls d0) st0) by (split; simpl; lia).
    pose proof (cost_inv_loop _ _ _ _ _ _ _ _ (result_inv_start k' s ctx d0) Hc0 Hl)
      as Hc1.
    destruct r1 as [[]|e]; [|by injection Hv as _ <-].
    injection Hv as Hv. unfold build_result in Hv.
    destruct (match winner (session st1) with
              | Some w => Some w
              | None => match sorted_desc votes (dict_values (groups (disc st1))) with
                        | top :: _ => Some top
                        | [] => None
                        end
              end); injection Hv as _ <-; exact Hc1. }
  destruct Hcost as [Hge Hle].
  split; [exact Hge|]. split; [exact Hle|].
  split; [exact (fi_valid _ _ _ _ _ Hfi)|].
  split.
  { simpl. rewrite <- (fi_valid _ _ _ _ _ Hfi). exact Hle. }
  intros k' st1 response r1 st' Hg Hp Hb.
  unfold Voter.vote_body in Hb. rewrite Hg in Hb.
  change (RedFlag.check ast_parse config) with check in Hb.
  rewrite Hp in Hb. simpl in Hb. by injection Hb as _ <-.
Qed.

End WithEnv.

End CostFacts.

(** ** Pausing *)

Module PauseFacts.
Import State Orchestrator StateFacts MachineFacts.

Lemma is_pausable_in_table s :
  is_pausable s = true <-> in_table (current s) PAUSED.
Proof.
  rewrite pausable_states. unfold is_pausable.
  rewrite orb_true_iff, mem_In, bool_decide_eq_true. done.
Qed.

(** X22: [pause] tells the truth about the move: it returns [True]
    exactly when the machine is in an execution phase or awaiting a
    decision, and then the machine is [PAUSED], remembers the state it
    left as the one to resume, and the state change and the interrupt
    have been emitted in that order; otherwise it returns [False] and
    the orchestrator is untouched. *)
Theorem pause_reports_the_move ts now o :
  exists b o',
    pause ts now o = Returns (b, o')
    /\ (b = true <-> is_pausable (state o) = true)
    /\ (b = true ->
        current (state o') = PAUSED
        /\ get_resume_state (state o') = Some (current (state o))
        /\ emitted o' =
             emitted o ++
               [ {| type := ORCHESTRATOR_STATE_CHANGE;
                    data := [ ("state", value PAUSED);
                              ("reason", "Pipeline pausado");
                              ("task", State.task (state o)) ] |};
                 {| type := ORCHESTRATOR_INTERRUPT;
                    data := [ ("action", "pause") ] |} ])
    /\ (b = false -> o' = o).
Proof.
  unfold pause. destruct (is_pausable (state o)) eqn:Hp; simpl.
  - pose proof Hp as Hin. apply is_pausable_in_table in Hin.
    destruct (transition_taken ts now PAUSED
                ("Pausado pelo usu" +:+ PyStr.chr 225 +:+ "rio") (state o) Hin)
      as (s' & Ht & Hc & Hprev & _).
    rewrite Ht. simpl. eexists _, _. split; [reflexivity|]. simpl.
    split; [done|]. split; [|done]. intros _.
    split; [done|]. split.
    + unfold get_resume_state. rewrite Hc, Hprev. done.
    + rewrite Hc, (transition_keeps_task _ _ _ _ _ _ _ Ht).
      by rewrite <- app_assoc.
  - exists false, o. split; [done|]. split; [done|]. split; [done|]. done.
Qed.

End PauseFacts.

(** ** Runs of the discriminator and the voter *)

Module VoteRuns.
Import Types Discriminator Voter DiscriminatorFacts VoterFacts VoterRuns.

Definition other_response : LLMResponse :=
  {| content := "function g() { return 2; }"; tokens_input := 10;
     tokens_output := 20; response_model := "m"; stop_reason := "end_turn" |}.

(** A generator that answers with two different functions in turn. *)
Definition two_way_generator : nat -> outcome LLMResponse :=
  fun n => if Nat.even n then Returns ts_response else Returns other_response.

(** A generator whose every answer is empty. *)
Definition empty_generator : nat -> outcome LLMResponse :=
  fun _ => Returns empty_response.

(** A client that finds two codes equivalent when they are the same
    text. *)
Definition same_text : nat -> string -> string -> string -> outcome bool :=
  fun _ a b _ => Returns (String.eqb a b).

Definition two_candidates : DiscState :=
  {| heap := [ {| Types.id := "a"; code := "x = 1"; tokens_used := 3;
                  is_valid := true; red_flag_reason := None; group_id := None |};
               {| Types.id := "b"; code := "y = 2"; tokens_used := 3;
                  is_valid := true; red_flag_reason := None; group_id := None |} ];
     groups := []; _comparison_cache := ∅; cmp_calls := 0 |}.

(** Five samples, three of one function and two of the other: no group
    leads by 2, and the vote ends at the bound. *)
Definition split_run : option (outcome VoteResult * VoteState) :=
  vote two_way_generator same_text ids unused_parser default_config
    20 a_step "ctx" TYPESCRIPT (Some 2) (Some 5) fresh_discriminator.

Definition rejected_run : option (outcome VoteResult * VoteState) :=
  vote empty_generator says_yes ids unused_parser default_config
    20 a_step "ctx" TYPESCRIPT (Some 2) (Some 3) fresh_discriminator.

(** A vote on a discriminator that holds the objects of an earlier one. *)
Definition later_run : option (outcome VoteResult * VoteState) :=
  vote steady_generator says_yes ids unused_parser default_config
    20 a_step "ctx" TYPESCRIPT (Some 2) (Some 5) one_group_state.

Definition batched_run : option (outcome VoteResult * VoteState) :=
  vote_parallel steady_generator says_yes ids unused_parser default_config
    20 a_step "ctx" TYPESCRIPT (Some 2) 3 fresh_discriminator.

Lemma well_grouped_two_candidates : GroupFacts.well_grouped two_candidates.
Proof.
  split; simpl.
  - intros i kv H. by rewrite lookup_nil in H.
  - intros g H. by apply elem_of_nil in H.
  - intros g r H. by apply elem_of_nil in H.
  - apply NoDup_nil_2.
Qed.

Lemma classify_batch_partitions_witness :
  GroupFacts.well_grouped two_candidates
  /\ NoDup [0%nat; 1%nat]
  /\ exists gs' d',
       classify_batch says_no [0%nat; 1%nat] "ctx" two_candidates = (Returns gs', d')
       /\ gs' = groups d'
       /\ total_candidates (stats d') = 2
       /\ stats_groups (stats d') <= total_candidates (stats d').
Proof.
  assert (Hnd : NoDup [0%nat; 1%nat]).
  { apply NoDup_cons. split; [|apply NoDup_singleton].
    intros H. apply list_elem_of_singleton in H. discriminate H. }
  split; [exact well_grouped_two_candidates|]. split; [exact Hnd|].
  destruct (classify_batch says_no [0%nat; 1%nat] "ctx" two_candidates)
    as [r d'] eqn:E.
  assert (Hr : exists gs', r = Returns gs').
  { pose proof (f_equal fst E) as E1. vm_compute in E1. subst r. by eexists. }
  destruct Hr as [gs' ->].
  exists gs', d'. split; [reflexivity|].
  destruct (GroupFacts.classify_batch_partitions says_no [0%nat; 1%nat] "ctx"
              two_candidates gs' d' well_grouped_two_candidates Hnd)
    as (_ & Hgs & _ & Hsum & Hle & _); [|exact E|].
  - intros c Hc. split.
    + apply elem_of_cons in Hc as [->|Hc]; [simpl; lia|].
      apply list_elem_of_singleton in Hc. subst c. simpl. lia.
    + intros H. by apply elem_of_nil in H.
  - split; [exact Hgs|]. split; [exact Hsum|]. exact Hle.
Defined.

Lemma compare_answers_from_cache_witness :
  CacheFacts.cache_symmetric (reset one_group_state)
  /\ exists d1,
       compare says_no " a" "b " "ctx" (reset one_group_state) = (Returns false, d1)
       /\ cmp_calls d1 = 1%nat
       /\ compare says_no "a" "b" "other" d1 = (Returns false, d1)
       /\ compare says_no "b" "a" "" d1 = (Returns false, d1).
Proof.
  split; [apply CacheFacts.reset_cache_symmetric|].
  destruct (compare says_no " a" "b " "ctx" (reset one_group_state))
    as [r d1] eqn:E.
  assert (Hr : r = Returns false /\ cmp_calls d1 = 1%nat).
  { pose proof E as E1. vm_compute in E1. by injection E1 as <- <-. }
  destruct Hr as [-> Hcalls]. exists d1. split; [reflexivity|].
  split; [exact Hcalls|].
  destruct (CacheFacts.compare_answers_from_cache says_no " a" "b " "ctx"
              (reset one_group_state) (Returns false) d1
              (CacheFacts.reset_cache_symmetric one_group_state) E)
    as [_ Hmemo].
  split.
  - exact (proj1 (Hmemo "a" "b" "other" eq_refl eq_refl)).
  - exact (proj2 (Hmemo "a" "b" "" eq_refl eq_refl)).
Defined.

(** The result of a run and its final state, read off by evaluating a
    projection of the run. *)
Definition returned_result {S} (run : option (outcome VoteResult * S))
    : option VoteResult :=
  match run with
  | Some (Returns res, _) => Some res
  | _ => None
  end.

Definition final_state {R S} (run : option (outcome R * S)) : option S :=
  snd <$> run.

Ltac no_result E :=
  exfalso; apply (f_equal returned_result) in E; vm_compute in E; discriminate E.

Ltac no_outcome E :=
  exfalso; apply (f_equal (fun run => bool_decide (is_Some (final_state run)))) in E;
  vm_compute in E; discriminate E.

Lemma vote_groups_partition_valid_samples_witness :
  exists res st,
    split_run = Some (Returns res, st)
    /\ Types.groups res
       = [("group_0", [0%nat; 2%nat; 4%nat]); ("group_1", [1%nat; 3%nat])]
    /\ votes_per_group res = [("group_0", 3); ("group_1", 2)]
    /\ concat (map snd (Types.groups res)) ≡ₚ valid_samples (session st)
    /\ py_sum (dict_values (votes_per_group res))
       = Z.of_nat (length (valid_samples (session st))).
Proof.
  destruct split_run as [[[res|e] st]|] eqn:E; try no_result E.
  exists res, st. split; [reflexivity|].
  assert (Hres : Types.groups res
                 = [("group_0", [0%nat; 2%nat; 4%nat]); ("group_1", [1%nat; 3%nat])]
                 /\ votes_per_group res = [("group_0", 3); ("group_1", 2)]).
  { pose proof (f_equal returned_result E) as E1. clear E. vm_compute in E1.
    injection E1 as <-. repeat split; reflexivity. }
  destruct Hres as [H1 H2]. split; [exact H1|]. split; [exact H2|].
  unfold split_run in E.
  destruct (VoteResultFacts.vote_groups_partition_valid_samples two_way_generator
              same_text ids unused_parser default_config 20 a_step "ctx"
              TYPESCRIPT (Some 2) (Some 5) fresh_discriminator res st E)
    as (_ & Hperm & _ & _ & Hsum & _).
  split; [exact Hperm|exact Hsum].
Defined.

Lemma vote_winner_leads_witness :
  exists res st,
    split_run = Some (Returns res, st)
    /\ Types.winner res = 0%nat
    /\ winning_margin res = 1
    /\ 1 <= winner_votes (heap (disc st)) res
    /\ (forall gid v, (gid, v) ∈ votes_per_group res ->
          v <= winner_votes (heap (disc st)) res).
Proof.
  destruct split_run as [[[res|e] st]|] eqn:E; try no_result E.
  exists res, st. split; [reflexivity|].
  assert (Hres : Types.winner res = 0%nat /\ winning_margin res = 1).
  { pose proof (f_equal returned_result E) as E1. clear E. vm_compute in E1.
    injection E1 as <-. repeat split; reflexivity. }
  destruct Hres as [H1 H2]. split; [exact H1|]. split; [exact H2|].
  unfold split_run in E.
  destruct (VoteResultFacts.vote_winner_leads two_way_generator
              same_text ids unused_parser default_config 20 a_step "ctx"
              TYPESCRIPT (Some 2) (Some 5) fresh_discriminator res st E)
    as (i & gid & ms & _ & _ & _ & _ & _ & Hone & Hmax).
  split; [exact Hone|exact Hmax].
Defined.

Lemma vote_without_valid_sample_raises_witness :
  exists r st,
    rejected_run = Some (r, st)
    /\ valid_samples (session st) = []
    /\ r = Raises (ValueError ("No valid candidates for step " +:+ step_id a_step))
    /\ groups (disc st) = [].
Proof.
  destruct rejected_run as [[r st]|] eqn:E; [|no_outcome E].
  exists r, st. split; [reflexivity|].
  assert (Hnil : valid_samples (session st) = []).
  { pose proof (f_equal (fun run => valid_samples <$> (session <$> final_state run)) E)
      as E1.
    vm_compute in E1. injection E1 as E1. symmetry. exact E1. }
  split; [exact Hnil|]. unfold rejected_run in E.
  exact (proj1 (VoteResultFacts.vote_without_valid_sample_raises empty_generator
                  says_yes ids unused_parser default_config 20 a_step "ctx"
                  TYPESCRIPT (Some 2) (Some 3) fresh_discriminator r st E) Hnil).
Defined.

Lemma vote_all_rejected_raises_witness :
  (forall n, exists response,
      empty_generator n = Returns response
      /\ forall cid,
           RedFlag.passed (RedFlag.check unused_parser default_config
                             (new_candidate cid response) TYPESCRIPT) = false)
  /\ (Z.to_nat (py_or (Some 3%Z) (Types.max_samples default_config)) <= 20)%nat
  /\ exists st,
       rejected_run
       = Some (Raises (ValueError ("No valid candidates for step " +:+ step_id a_step)),
               st)
       /\ gen_calls st = 3%nat
       /\ length (invalid_samples (session st)) = 3%nat.
Proof.
  assert (Hrej : forall n, exists response,
            empty_generator n = Returns response
            /\ forall cid,
                 RedFlag.passed (RedFlag.check unused_parser default_config
                                   (new_candidate cid response) TYPESCRIPT) = false).
  { intros n. exists empty_response. split; [reflexivity|].
    intros cid. reflexivity. }
  assert (Hfuel : (Z.to_nat (py_or (Some 3%Z) (Types.max_samples default_config))
                   <= 20)%nat) by (vm_compute; lia).
  split; [exact Hrej|]. split; [exact Hfuel|].
  destruct (VoteResultFacts.vote_all_rejected_raises empty_generator says_yes ids
              unused_parser default_config 20 a_step "ctx" TYPESCRIPT
              (Some 2) (Some 3) fresh_discriminator Hrej Hfuel)
    as (st & Hv & Hg & _ & Hi & _).
  exists st. unfold rejected_run. split; [exact Hv|]. split; [exact Hg|exact Hi].
Defined.

Lemma vote_touches_only_its_samples_witness :
  exists r st,
    later_run = Some (r, st)
    /\ heap (disc st) !! 0%nat = heap one_group_state !! 0%nat
    /\ samples (session st) = seq 2 (length (samples (session st)))
    /\ length (heap (disc st)) = (2 + length (samples (session st)))%nat.
Proof.
  destruct later_run as [[r st]|] eqn:E; [|no_outcome E].
  exists r, st. split; [reflexivity|]. unfold later_run in E.
  destruct (VoteResultFacts.vote_touches_only_its_samples steady_generator
              says_yes ids unused_parser default_config 20 a_step "ctx"
              TYPESCRIPT (Some 2) (Some 5) one_group_state r st E)
    as (Hold & Hseq & Hlen).
  split; [|split; [exact Hseq|exact Hlen]].
  apply (Hold 0%nat). reflexivity.
Defined.

Lemma margin_with_rival_witness :
  exists res st,
    split_run = Some (Returns res, st)
    /\ winning_margin res = 1
    /\ is_complete (session st) = false
    /\ py_or (Some 5) (Types.max_samples default_config) <= total_samples res.
Proof.
  destruct split_run as [[[res|e] st]|] eqn:E; try no_result E.
  exists res, st. split; [reflexivity|].
  assert (H1 : winning_margin res = 1).
  { pose proof (f_equal returned_result E) as E1. clear E. vm_compute in E1.
    injection E1 as <-. repeat split; reflexivity. }
  assert (H2 : is_complete (session st) = false).
  { pose proof (f_equal (fun run => is_complete <$> (session <$> final_state run)) E)
      as E1.
    vm_compute in E1. injection E1 as E1. symmetry. exact E1. }
  split; [exact H1|]. split; [exact H2|].
  unfold split_run in E.
  exact (proj1 (proj2 (margin_with_rival two_way_generator same_text ids
                         unused_parser default_config 20 a_step "ctx" TYPESCRIPT
                         (Some 2) (Some 5) fresh_discriminator res st E)) H2).
Defined.

Lemma vote_parallel_respects_bound_witness :
  exists res st,
    batched_run = Some (Returns res, st)
    /\ total_samples res = 3
    /\ total_samples res <= Z.max 0 (Types.max_samples default_config)
    /\ loop_cond (Types.max_samples default_config) st = false.
Proof.
  destruct batched_run as [[[res|e] st]|] eqn:E; try no_result E.
  exists res, st. split; [reflexivity|].
  assert (Hres : total_samples res = 3).
  { pose proof (f_equal returned_result E) as E1. clear E. vm_compute in E1.
    injection E1 as <-. repeat split; reflexivity. }
  split; [exact Hres|]. unfold batched_run in E.
  exact (proj2 (ParallelFacts.vote_parallel_respects_bound steady_generator
                  says_yes ids unused_parser default_config 20 a_step "ctx"
                  TYPESCRIPT (Some 2) 3 fresh_discriminator res st E)).
Defined.

Lemma classify_asks_once_per_group_witness :
  exists r d',
    classify says_no 1%nat "ctx" one_group_state = (r, d')
    /\ (cmp_calls one_group_state <= cmp_calls d'
        <= cmp_calls one_group_state + length (groups one_group_state))%nat.
Proof.
  destruct (classify says_no 1%nat "ctx" one_group_state) as [r d'] eqn:E.
  exists r, d'. split; [reflexivity|].
  exact (proj1 (CostFacts.classify_asks_once_per_group says_no 1%nat "ctx"
                  one_group_state r d' E)).
Defined.

Lemma vote_comparisons_bounded_witness :
  exists r st,
    split_run = Some (r, st)
    /\ (2 * (cmp_calls (disc st) - cmp_calls fresh_discriminator)
        <= length (valid_samples (session st))
           * (length (valid_samples (session st)) - 1))%nat.
Proof.
  destruct split_run as [[r st]|] eqn:E; [|no_outcome E].
  exists r, st. split; [reflexivity|]. unfold split_run in E.
  exact (proj1 (proj2 (CostFacts.vote_comparisons_bounded two_way_generator
                         same_text ids unused_parser default_config 20 a_step
                         "ctx" TYPESCRIPT (Some 2) (Some 5) fresh_discriminator
                         r st E))).
Defined.

Lemma vote_parallel_terminates_witness :
  1 <= 3
  /\ (forall i, returned (steady_generator i) = true)
  /\ (Z.to_nat (Types.max_samples default_config) <= 20)%nat
  /\ exists r st,
       batched_run = Some (r, st)
       /\ Z.of_nat (gen_calls st) <= Z.max 0 (Types.max_samples default_config).
Proof.
  assert (H1 : 1 <= 3) by lia.
  assert (H2 : forall i, returned (steady_generator i) = true) by reflexivity.
  assert (H3 : (Z.to_nat (Types.max_samples default_config) <= 20)%nat)
    by (vm_compute; lia).
  split; [exact H1|]. split; [exact H2|]. split; [exact H3|].
  exact (ParallelFacts.vote_parallel_terminates steady_generator says_yes ids
           unused_parser default_config 20 a_step "ctx" TYPESCRIPT (Some 2) 3
           fresh_discriminator H1 H2 H3).
Defined.

Lemma vote_parallel_empty_batches_never_end_witness :
  0 <= 0
  /\ 0 < Types.max_samples default_config
  /\ vote_parallel steady_generator says_yes ids unused_parser default_config
       50 a_step "ctx" TYPESCRIPT (Some 2) 0 fresh_discriminator = None.
Proof.
  assert (H1 : 0 <= 0) by lia.
  assert (H2 : 0 < Types.max_samples default_config) by (vm_compute; reflexivity).
  split; [exact H1|]. split; [exact H2|].
  exact (ParallelFacts.vote_parallel_empty_batches_never_end steady_generator
           says_yes ids unused_parser default_config 50 a_step "ctx" TYPESCRIPT
           (Some 2) 0 fresh_discriminator H1 H2).
Defined.

End VoteRuns.

(** ** Runs of the state machine *)

Module MachineRuns.
Import State Orchestrator StateFacts MachineFacts.

(** A machine that entered [EXPANDING], asked for a decision, and was
    paused while waiting for it. *)
Definition asked_machine : OrchestratorState :=
  {| current := AWAITING_DECISION; previous := None; State.task := "";
     current_phase_detail := "";
     transition_history :=
       [ {| from_state := IDLE; to_state := EXPANDING; reason := "start";
            timestamp := 1 |};
         {| from_state := EXPANDING; to_state := AWAITING_DECISION;
            reason := "ask"; timestamp := 2 |} ];
     error_message := None; started_at := Some 1; completed_at := None |}.

Definition paused_machine : OrchestratorState :=
  {| current := PAUSED; previous := Some AWAITING_DECISION; State.task := "";
     current_phase_detail := "";
     transition_history :=
       transition_history asked_machine
       ++ [ {| from_state := AWAITING_DECISION; to_state := PAUSED;
               reason := "pause"; timestamp := 3 |} ];
     error_message := None; started_at := Some 1; completed_at := None |}.

Definition paused_orchestrator : MDAPOrchestrator :=
  {| state := paused_machine; result := fresh_result ""; emitted := [] |}.

Lemma reachable_paused_machine : reachable paused_machine.
Proof.
  apply (reach_transition 3 3 PAUSED "pause" asked_machine true); [|reflexivity].
  apply (reach_transition 2 2 AWAITING_DECISION "ask"
           {| current := EXPANDING; previous := None; State.task := "";
              current_phase_detail := "";
              transition_history :=
                [ {| from_state := IDLE; to_state := EXPANDING; reason := "start";
                     timestamp := 1 |} ];
              error_message := None; started_at := Some 1;
              completed_at := None |} true); [|reflexivity].
  apply (reach_transition 1 1 EXPANDING "start" initial true); [|reflexivity].
  apply reach_initial.
Qed.

Lemma reachable_machine_invariants_witness :
  reachable paused_machine
  /\ (exists p, get_resume_state paused_machine = Some p
                /\ (In p EXECUTION_PHASES \/ p = AWAITING_DECISION))
  /\ started_at paused_machine <> None.
Proof.
  split; [exact reachable_paused_machine|].
  destruct (reachable_machine_invariants paused_machine reachable_paused_machine)
    as (Hp & Hs & _).
  split; [apply Hp; reflexivity|apply Hs; discriminate].
Defined.

Lemma resume_answers_whether_paused_witness :
  reachable (state paused_orchestrator)
  /\ current (state paused_orchestrator) = PAUSED
  /\ exists o',
       resume 4 4 paused_orchestrator = Returns (true, o')
       /\ state o' = state paused_orchestrator.
Proof.
  split; [exact reachable_paused_machine|]. split; [reflexivity|].
  destruct (proj2 (resume_answers_whether_paused 4 4 paused_orchestrator
                     reachable_paused_machine) eq_refl)
    as (p & o' & Hprev & Hres & _ & _ & Hstay).
  exists o'. split; [exact Hres|].
  apply Hstay. simpl in Hprev. by injection Hprev as <-.
Defined.

Lemma cancel_from_resting_state_witness :
  In (current (state paused_orchestrator))
     [PAUSED; AWAITING_DECISION; COMPLETED; ERROR]
  /\ exists o' o'',
       cancel 5 5 paused_orchestrator = Returns (true, o')
       /\ current (state o') = IDLE
       /\ start_task_begin "new task" o' = Returns o''
       /\ result o'' = fresh_result "new task"
       /\ State.task (state o'') = "new task".
Proof.
  assert (Hin : In (current (state paused_orchestrator))
                   [PAUSED; AWAITING_DECISION; COMPLETED; ERROR])
    by (left; reflexivity).
  split; [exact Hin|].
  exact (cancel_from_resting_state 5 5 paused_orchestrator "new task" Hin).
Defined.

End MachineRuns.

(** ** Replies and candidate texts *)

Module TextRuns.
Import Types Intent IntentFacts ParseFacts.

Lemma detect_falls_back_on_local_witness :
  (forall response matched data,
     Returns "no idea" = Returns response ->
     search_braces response = Some matched ->
     loads_low_confidence_reply matched <> Returns (JDict data))
  /\ exists last_resort,
       intent last_resort = CHAT_GENERAL
       /\ confidence last_resort = 0x1p-1%float
       /\ detect loads_low_confidence_reply float_not_called_int
            float_not_called_str (Returns "no idea") "quero criar um sistema"
          = default last_resort (_detect_local "quero criar um sistema").
Proof.
  assert (H : forall response matched data,
            Returns "no idea" = Returns response ->
            search_braces response = Some matched ->
            loads_low_confidence_reply matched <> Returns (JDict data)).
  { intros response matched data [= <-] Hs. vm_compute in Hs. discriminate Hs. }
  split; [exact H|].
  destruct (detect_falls_back_on_local loads_low_confidence_reply
              float_not_called_int float_not_called_str
              (Returns "no idea") "quero criar um sistema" H)
    as (last_resort & Hi & Hc & _ & Hd).
  exists last_resort. split; [exact Hi|]. split; [exact Hc|exact Hd].
Defined.

Lemma extract_code_takes_first_block_witness :
  ExtractFacts.no_backtick "Here is the code: " = true
  /\ In "ts" (EmptyString :: RedFlag.fence_tags)
  /\ ExtractFacts.no_backtick "const x = [1, 2];" = true
  /\ RedFlag._extract_code
       ("Here is the code: " +:+ RedFlag.fence +:+ "ts" +:+ ExtractFacts.newline
        +:+ "const x = [1, 2];" +:+ RedFlag.fence +:+ " Done :)")
     = PyStr.strip "const x = [1, 2];".
Proof.
  assert (H1 : ExtractFacts.no_backtick "Here is the code: " = true)
    by reflexivity.
  assert (H2 : In "ts" (EmptyString :: RedFlag.fence_tags))
    by (simpl; do 5 right; left; reflexivity).
  assert (H3 : ExtractFacts.no_backtick "const x = [1, 2];" = true)
    by reflexivity.
  split; [exact H1|]. split; [exact H2|]. split; [exact H3|].
  exact (proj1 (ExtractFacts.extract_code_takes_first_block
                  "Here is the code: " "ts" "const x = [1, 2];" " Done :)" H1 H2)
           H3).
Defined.

End TextRuns.
